(** * Append-only note merger and title graph of [obsidian-xlsx-to-md.py]

    A shallow embedding of the merge/graph core of
    [scripts/obsidian/obsidian-xlsx-to-md.py] together with the properties
    its specification states about it.

    Conventions of the embedding.
    - A Python [str] is a list of characters ([str := list ascii]); the
      characters are the code points 0..255.  Literals are written
      [$"..."].
    - "Whitespace" is what [str.strip()], [str.rstrip()] and the regex
      class [\s] agree on for these code points (Python's
      [Py_UNICODE_ISSPACE]): 9..13, 28..32, 133 and 160.
    - [str.splitlines()] breaks at 10, 11, 12, 13 (and 13 10 as one break),
      28, 29, 30 and 133.
    - A Python [set] handed to [sorted] is represented by the list of its
      elements in iteration order.
    - The file system is the single [option str] "text of the note file,
      if the file exists". *)

From Stdlib Require Import Ascii String.
From stdpp Require Import base list gmap strings sorting.

Local Open Scope list_scope.

(** ** Characters and strings *)

Definition str := list ascii.

Notation "$ s" := (list_ascii_of_string s) (at level 1, format "$ s").

Definition code (c : ascii) : nat := nat_of_ascii c.

(** [Py_UNICODE_ISSPACE] on the code points 0..255. *)
Definition is_space (c : ascii) : bool :=
  let n := code c in
  ((9 <=? n) && (n <=? 13)) || ((28 <=? n) && (n <=? 32))
  || (n =? 133) || (n =? 160).

(** The line boundaries of [str.splitlines()] on the code points 0..255. *)
Definition is_linebreak (c : ascii) : bool :=
  let n := code c in
  ((10 <=? n) && (n <=? 13)) || ((28 <=? n) && (n <=? 30)) || (n =? 133).

(** [str.lower()] on one character: A..Z and the Latin-1 capitals
    192..222 (without the multiplication sign 215) move up by 32. *)
Definition lower_char (c : ascii) : ascii :=
  let n := code c in
  if ((65 <=? n) && (n <=? 90))
     || ((192 <=? n) && (n <=? 222) && negb (n =? 215))
  then ascii_of_nat (n + 32) else c.

Definition lower (s : str) : str := map lower_char s.

Definition str_eqb (a b : str) : bool := bool_decide (a = b).

Fixpoint startswith (s p : str) {struct p} : bool :=
  match p, s with
  | [], _ => true
  | _ :: _, [] => false
  | a :: p', b :: s' => Ascii.eqb a b && startswith s' p'
  end.

Fixpoint lstrip (s : str) : str :=
  match s with
  | [] => []
  | c :: s' => if is_space c then lstrip s' else s
  end.

Fixpoint rstrip (s : str) : str :=
  match s with
  | [] => []
  | c :: s' =>
      match rstrip s' with
      | [] => if is_space c then [] else [c]
      | r => c :: r
      end
  end.

Definition strip (s : str) : str := lstrip (rstrip s).

(** [sep.join(lines)] for the one-character separator ["\n"]. *)
Definition LF : ascii := ascii_of_nat 10.
Definition CR : ascii := ascii_of_nat 13.

Fixpoint join_lines (lines : list str) : str :=
  match lines with
  | [] => []
  | [l] => l
  | l :: rest => l ++ LF :: join_lines rest
  end.

(** [str.splitlines()]: no line for the empty text, no extra line after a
    final line break, ["\r\n"] is one break. *)
Fixpoint splitlines (s : str) : list str :=
  match s with
  | [] => []
  | c :: s' =>
      if is_linebreak c then
        [] :: (if Ascii.eqb c CR then
                 match s' with
                 | d :: s'' => if Ascii.eqb d LF then splitlines s''
                               else splitlines s'
                 | [] => splitlines s'
                 end
               else splitlines s')
      else
        match splitlines s' with
        | [] => [[c]]
        | l :: ls => (c :: l) :: ls
        end
  end.

(** Python compares strings by code point, lexicographically. *)
Fixpoint str_leb (a b : str) : bool :=
  match a, b with
  | [], _ => true
  | _ :: _, [] => false
  | x :: a', y :: b' =>
      if code x <? code y then true
      else if code y <? code x then false
      else str_leb a' b'
  end.

(** [sorted(xs, key=key)]: the stable sort; the elements arrive in the
    iteration order of the collection. *)
Section Sorted.
Context {A : Type} (key : A -> str).

Fixpoint sorted_insert (x : A) (l : list A) : list A :=
  match l with
  | [] => [x]
  | y :: l' => if str_leb (key x) (key y) then x :: l
               else y :: sorted_insert x l'
  end.

Definition sorted (xs : list A) : list A := foldr sorted_insert [] xs.
End Sorted.

(** [list.insert(i, x)] for [0 <= i]: past the end it appends. *)
Definition list_insert_at {A} (i : nat) (x : A) (l : list A) : list A :=
  take i l ++ x :: drop i l.

(** [lines[start:end]] for [0 <= start]. *)
Definition slice {A} (l : list A) (start stop : nat) : list A :=
  take (stop - start) (drop start l).

(** ** The link pattern

    [WIKILINK_RE = \[\[([^\]|]+)(?:\|[^\]]+)?\]\]].  At a given position the
    pattern has at most one way to match: group 1 is the longest run of
    characters other than ']' and '|' (a shorter run would be followed by a
    character of the run, which is neither '|' nor ']'), the optional alias
    is '|' with the longest run of characters other than ']', and "]]" must
    follow.  [wikilink_match] returns group 1 and the length of the match. *)

Definition OPEN : ascii := "["%char.
Definition CLOSE : ascii := "]"%char.
Definition BAR : ascii := "|"%char.

Definition target_char (c : ascii) : bool :=
  negb (Ascii.eqb c CLOSE) && negb (Ascii.eqb c BAR).
Definition alias_char (c : ascii) : bool := negb (Ascii.eqb c CLOSE).

Fixpoint span (p : ascii -> bool) (s : str) : str * str :=
  match s with
  | [] => ([], [])
  | c :: s' => if p c then let '(a, b) := span p s' in (c :: a, b)
               else ([], s)
  end.

Definition closes (s : str) : bool := startswith s [CLOSE; CLOSE].

Definition wikilink_match (s : str) : option (str * nat) :=
  match s with
  | a :: b :: r =>
      if Ascii.eqb a OPEN && Ascii.eqb b OPEN then
        let '(g, r1) := span target_char r in
        match g with
        | [] => None
        | _ =>
            if closes r1 then Some (g, 2 + length g + 2)
            else match r1 with
                 | c :: r2 =>
                     if Ascii.eqb c BAR then
                       let '(d, r3) := span alias_char r2 in
                       match d with
                       | [] => None
                       | _ => if closes r3
                              then Some (g, 2 + length g + 1 + length d + 2)
                              else None
                       end
                     else None
                 | [] => None
                 end
        end
      else None
  | _ => None
  end.

(** [WIKILINK_RE.finditer(ln)], group 1 of each match: leftmost matches,
    not overlapping; [skip] counts the characters of the current match
    still to pass. *)
Fixpoint wikilinks_from (skip : nat) (s : str) : list str :=
  match s with
  | [] => []
  | _ :: s' =>
      match skip with
      | S k => wikilinks_from k s'
      | 0 =>
          match wikilink_match s with
          | Some (g, len) => g :: wikilinks_from (len - 1) s'
          | None => wikilinks_from 0 s'
          end
      end
  end.

Definition wikilink_targets (ln : str) : list str := wikilinks_from 0 ln.

(** ** Sections of a note *)

Definition H2 : str := $"## ".
Arguments H2 : simpl never.

Fixpoint find_start (lines : list str) (hline : str) : option nat :=
  match lines with
  | [] => None
  | ln :: rest =>
      if str_eqb (strip ln) hline then Some 0
      else S <$> find_start rest hline
  end.

(** [ln.startswith("## ")] *)
Definition is_h2 (ln : str) : bool := startswith ln H2.
Arguments is_h2 : simpl never.

(** Index of the first line that starts with ["## "], or the length. *)
Fixpoint find_next_h2 (lines : list str) : nat :=
  match lines with
  | [] => 0
  | ln :: rest => if is_h2 ln then 0 else S (find_next_h2 rest)
  end.

(** [find_section_range]; [None] stands for the pair [(-1, -1)]. *)
Definition find_section_range (lines : list str) (header : str)
  : option (nat * nat) :=
  match find_start lines (H2 ++ header) with
  | None => None
  | Some start =>
      Some (start, start + 1 + find_next_h2 (drop (start + 1) lines))
  end.

Definition ensure_section (lines : list str) (header : str)
  : list str * nat * nat :=
  match find_section_range lines header with
  | Some (s, e) => (lines, s, e)
  | None =>
      let lines1 :=
        match last lines with
        | Some l => if str_eqb (strip l) [] then lines else lines ++ [ [] ]
        | None => lines
        end in
      let lines2 := (lines1 ++ [H2 ++ header]) ++ [ [] ] in
      (lines2, length lines2 - 2, length lines2)
  end.

Definition extract_existing_wikilinks (lines : list str) (start stop : nat)
  : gset str :=
  foldl (fun found ln =>
           foldl (fun found g => {[ strip g ]} ∪ found) found
                 (wikilink_targets ln))
        ∅ (slice lines start stop).

(** [re.sub(r"\s+", " ", s)]: [in_run] tells that the previous character
    was whitespace, already replaced. *)
Fixpoint collapse_ws (in_run : bool) (s : str) : str :=
  match s with
  | [] => []
  | c :: s' =>
      if is_space c then
        if in_run then collapse_ws true s'
        else " "%char :: collapse_ws true s'
      else c :: collapse_ws false s'
  end.

Definition normalize_leaf_pair (description source : str) : str :=
  let key := strip description ++ LF :: strip source in
  lower (strip (collapse_ws false key)).

Definition DESC_PREFIX : str := $"- **Description:**".
Definition SRC_PREFIX : str := $"**Source:**".
Arguments DESC_PREFIX : simpl never.
Arguments SRC_PREFIX : simpl never.

(** One iteration of the loop of [extract_existing_leaf_pairs]; the state
    is [existing] and [desc] ([src] is never read after it is set). *)
Definition leaf_scan_step (st : gset str * option str) (ln : str)
  : gset str * option str :=
  let '(existing, desc) := st in
  let t := strip ln in
  if startswith t DESC_PREFIX then
    (existing, Some (strip (drop (length DESC_PREFIX) t)))
  else
    match desc with
    | Some d =>
        if startswith t SRC_PREFIX then
          let src := strip (drop (length SRC_PREFIX) t) in
          ({[ normalize_leaf_pair d src ]} ∪ existing, None)
        else st
    | None => st
    end.

Definition extract_existing_leaf_pairs (lines : list str) (start stop : nat)
  : gset str :=
  fst (foldl leaf_scan_step (∅, None) (slice lines start stop)).

Definition link_line (item : str) : str := $"- [[" ++ item ++ $"]]".

(** The insertion loop shared by the two append functions:
    [lines.insert(insert_at, ln); insert_at += 1] for each new line. *)
Definition insert_all (lines : list str) (insert_at : nat) (new : list str)
  : list str :=
  fst (foldl (fun '(ls, at_) ln => (list_insert_at at_ ln ls, S at_))
             (lines, insert_at) new).

Definition append_missing_links (lines : list str) (section_header : str)
    (new_links : list str) : list str :=
  let '(lines, s, e) := ensure_section lines section_header in
  let existing := extract_existing_wikilinks lines s e in
  let to_add :=
    filter (fun x => x ∉ existing) (sorted lower new_links) in
  match to_add with
  | [] => lines
  | _ => insert_all lines e (map link_line to_add)
  end.

Definition DESC_HEADER : str := $"Description and source".
Arguments DESC_HEADER : simpl never.

Definition leaf_block (desc src : str) : list str :=
  [ rstrip ($"- **Description:** " ++ desc);
    rstrip ($"  **Source:** " ++ src) ].

(** The selection loop of [append_missing_leaf_blocks]: the state is
    [existing] and [to_add_blocks]. *)
Definition leaf_select_step (st : gset str * list (list str))
    (pair : str * str) : gset str * list (list str) :=
  let '(existing, to_add_blocks) := st in
  let '(desc, src) := pair in
  let key := normalize_leaf_pair desc src in
  if negb (str_eqb key []) && bool_decide (key ∉ existing) then
    ({[ key ]} ∪ existing, to_add_blocks ++ [leaf_block desc src])
  else st.

Definition append_missing_leaf_blocks (lines : list str)
    (new_leaf_pairs : list (str * str)) : list str :=
  let '(lines, s, e) := ensure_section lines DESC_HEADER in
  let existing := extract_existing_leaf_pairs lines s e in
  let to_add_blocks :=
    snd (foldl leaf_select_step (existing, []) new_leaf_pairs) in
  match to_add_blocks with
  | [] => lines
  | _ => insert_all lines e (concat to_add_blocks)
  end.

Definition PARENTS : str := $"Parents".
Definition CHILDREN : str := $"Children".
Arguments PARENTS : simpl never.
Arguments CHILDREN : simpl never.

Definition create_new_note_lines (title : str) : list str :=
  [ $"# " ++ title; []; H2 ++ PARENTS; []; H2 ++ CHILDREN; [];
    H2 ++ DESC_HEADER; [] ].

(** The three guarded append steps of [update_note_file_append_only]. *)
Definition append_updates (lines : list str) (add_parents add_children : list str)
    (add_leaf_pairs : list (str * str)) : list str :=
  let lines :=
    match add_parents with
    | [] => lines
    | _ => append_missing_links lines PARENTS add_parents
    end in
  let lines :=
    match add_children with
    | [] => lines
    | _ => append_missing_links lines CHILDREN add_children
    end in
  match add_leaf_pairs with
  | [] => lines
  | _ => append_missing_leaf_blocks lines add_leaf_pairs
  end.

(** What the function reads: the lines of the file, or the template when
    the file is missing or has no line. *)
Definition load_lines (file : option str) (title : str) : list str :=
  match file with
  | Some raw =>
      match splitlines raw with
      | [] => create_new_note_lines title
      | lines => lines
      end
  | None => create_new_note_lines title
  end.

(** ["\n".join(lines).rstrip() + "\n"] *)
Definition serialize (lines : list str) : str :=
  rstrip (join_lines lines) ++ [LF].

(** [update_note_file_append_only]: from the file as it is (if it exists)
    to the text written back. *)
Definition update_note_file_append_only (file : option str) (title : str)
    (add_parents add_children : list str)
    (add_leaf_pairs : list (str * str)) : str :=
  serialize (append_updates (load_lines file title)
                            add_parents add_children add_leaf_pairs).

(** ** Graph building *)

(** A row as [read_xlsx_rows_by_columns] hands it over: a dict with the
    keys ["parts"], ["description"] and ["source"]; the last two are read
    with [r.get(..) or ""], so they may be missing. *)
Record row := Row {
  parts : list str;
  description : option str;
  source : option str;
}.

(** [defaultdict(set)]: reading a missing key stores the empty set. *)
Definition dd_touch (m : gmap str (gset str)) (k : str) : gmap str (gset str) :=
  match m !! k with
  | Some _ => m
  | None => <[k := ∅]> m
  end.

Definition dd_get (m : gmap str (gset str)) (k : str) : gset str :=
  default ∅ (m !! k).

(** [m[k].add(x)] on a [defaultdict(set)]. *)
Definition dd_add (m : gmap str (gset str)) (k x : str) : gmap str (gset str) :=
  <[k := {[ x ]} ∪ dd_get m k]> m.

(** [m.setdefault(k, set())] *)
Definition setdefault (m : gmap str (gset str)) (k : str) : gmap str (gset str) :=
  dd_touch m k.

(** [leaf_info[k].append(x)] on a [defaultdict(list)]. *)
Definition dl_append (m : gmap str (list (str * str))) (k : str) (x : str * str)
  : gmap str (list (str * str)) :=
  <[k := default [] (m !! k) ++ [x]]> m.

Record graph := Graph {
  parent_to_children : gmap str (gset str);
  child_to_parents : gmap str (gset str);
  leaf_info : gmap str (list (str * str));
  edge_count : nat;
  leaf_entry_count : nat;
}.

Definition empty_graph : graph := Graph ∅ ∅ ∅ 0 0.

(** The labels [(parts[i], parts[i + 1])] for [i] in
    [range(len(parts) - 1)]. *)
Fixpoint consecutive_pairs (ps : list str) : list (str * str) :=
  match ps with
  | p :: (c :: _) as rest => (p, c) :: consecutive_pairs rest
  | _ => []
  end.

(** Body of the inner loop. *)
Definition add_edge (g : graph) (pc : str * str) : graph :=
  let '(p, c) := pc in
  let fresh := bool_decide (c ∉ dd_get (parent_to_children g) p) in
  Graph (dd_add (parent_to_children g) p c)
        (dd_add (child_to_parents g) c p)
        (leaf_info g)
        (if fresh then S (edge_count g) else edge_count g)
        (leaf_entry_count g).

(** Body of the outer loop. *)
Definition add_row (g : graph) (r : row) : graph :=
  match parts r, last (parts r) with
  | first :: _, Some leaf_title =>
      let g := foldl add_edge g (consecutive_pairs (parts r)) in
      let desc := strip (default [] (description r)) in
      let src := strip (default [] (source r)) in
      let with_leaf := negb (str_eqb desc []) || negb (str_eqb src []) in
      Graph (setdefault (parent_to_children g) leaf_title)
            (setdefault (child_to_parents g) first)
            (if with_leaf then dl_append (leaf_info g) leaf_title (desc, src)
             else leaf_info g)
            (edge_count g)
            (if with_leaf then S (leaf_entry_count g) else leaf_entry_count g)
  | _, _ => g
  end.

Definition build_title_graph_from_parts (rows : list row) : graph :=
  foldl add_row empty_graph rows.

Definition rows_abcd : list row :=
  [ Row [$"A"; $"B"; $"C"] None None; Row [$"A"; $"B"; $"D"] None None ].

(** ** Notions used in the statements and in the proofs

    Views of the same data that the properties refer to: the lines of a
    section as a list, what the two scans find in a section, the words of
    a text, the edges of the graph. *)

Definition blank (s : str) : bool := forallb is_space s.

Definition lb_free (s : str) : Prop := Forall (fun c => is_linebreak c = false) s.

Fixpoint until_h2 (lines : list str) : list str :=
  match lines with
  | [] => []
  | ln :: rest => if is_h2 ln then [] else ln :: until_h2 rest
  end.

Fixpoint from_h2 (lines : list str) : list str :=
  match lines with
  | [] => []
  | ln :: rest => if is_h2 ln then lines else from_h2 rest
  end.

(** The lines before the section, the section (heading line first) and the
    lines after it. *)
Fixpoint split_section (lines : list str) (hline : str)
  : option (list str * list str * list str) :=
  match lines with
  | [] => None
  | ln :: rest =>
      if str_eqb (strip ln) hline
      then Some ([], ln :: until_h2 rest, from_h2 rest)
      else (fun '(pre, sec, post) => (ln :: pre, sec, post))
             <$> split_section rest hline
  end.

(** The blank separator [ensure_section] puts before a new heading. *)
Definition separator (lines : list str) : list str :=
  match last lines with
  | Some l => if str_eqb (strip l) [] then [] else [ [] ]
  | None => []
  end.

(** [ensure_section] in terms of the decomposition: the lines with the
    section in them, cut before, inside and after the section. *)
Definition ensured (lines : list str) (header : str)
  : list str * list str * list str :=
  match split_section lines (H2 ++ header) with
  | Some d => d
  | None => (lines ++ separator lines, [H2 ++ header; []], [])
  end.

Definition links_of (sec : list str) : gset str :=
  foldl (fun found ln =>
           foldl (fun found g => {[ strip g ]} ∪ found) found
                 (wikilink_targets ln))
        ∅ sec.

Definition keys_of (sec : list str) : gset str :=
  fst (foldl leaf_scan_step (∅, None) sec).

Definition links_to_add (existing : gset str) (new_links : list str) : list str :=
  filter (fun x => x ∉ existing) (sorted lower new_links).

(** The pairs the selection loop keeps, with the keys seen so far. *)
Fixpoint new_pairs (existing : gset str) (pairs : list (str * str))
  : list (str * str) :=
  match pairs with
  | [] => []
  | (desc, src) :: rest =>
      let key := normalize_leaf_pair desc src in
      if negb (str_eqb key []) && bool_decide (key ∉ existing)
      then (desc, src) :: new_pairs ({[ key ]} ∪ existing) rest
      else new_pairs existing rest
  end.

Definition blocks_of (pairs : list (str * str)) : list str :=
  concat (map (fun '(desc, src) => leaf_block desc src) pairs).

Definition key_le {A} (key : A -> str) (a b : A) : Prop :=
  str_leb (key a) (key b) = true.

(** The words of a text, as [str.split()] gives them: the maximal runs of
    characters that are no whitespace. *)
Fixpoint words (s : str) : list str :=
  match s with
  | [] => []
  | c :: s' =>
      if is_space c then words s'
      else match s' with
           | [] => [[c]]
           | d :: _ =>
               if is_space d then [c] :: words s'
               else match words s' with
                    | w :: ws => (c :: w) :: ws
                    | [] => [[c]]
                    end
           end
  end.

(** [" ".join(ws)] *)
Fixpoint unwords (ws : list str) : str :=
  match ws with
  | [] => []
  | [w] => w
  | w :: rest => w ++ " "%char :: unwords rest
  end.

Definition starts_with_space (s : str) : bool :=
  match s with
  | c :: _ => is_space c
  | [] => false
  end.

Definition key_of (p : str * str) : str := normalize_leaf_pair p.1 p.2.

Definition DESC_LINE (d : str) : str := rstrip ($"- **Description:** " ++ d).
Definition SRC_LINE (s : str) : str := rstrip ($"  **Source:** " ++ s).

(** The edges written so far, as the set of (parent, child) pairs. *)
Definition edges_of (m : gmap str (gset str)) (E : gset (str * str)) : Prop :=
  forall p c, c ∈ dd_get m p <-> (p, c) ∈ E.

(** The invariant of both loops. *)
Record consistent (g : graph) (E : gset (str * str)) : Prop := {
  cons_children : edges_of (parent_to_children g) E;
  cons_parents : forall p c, p ∈ dd_get (child_to_parents g) c <-> (p, c) ∈ E;
  cons_count : edge_count g = size E;
}.

Definition row_pairs (r : row) : list (str * str) := consecutive_pairs (parts r).

Definition all_pairs (rows : list row) : list (str * str) :=
  concat (map row_pairs rows).

Definition has_keys (g : graph) (t : str) : Prop :=
  is_Some (parent_to_children g !! t) /\ is_Some (child_to_parents g !! t).

Definition template_rest : list str :=
  [ []; H2 ++ PARENTS; []; H2 ++ CHILDREN; []; H2 ++ DESC_HEADER; [] ].

(** The lines of the section under the heading line [hline], heading line
    first: what [lines[start:end]] is for the range that
    [find_section_range] returns. *)
Fixpoint section_of (lines : list str) (hline : str) : option (list str) :=
  match lines with
  | [] => None
  | ln :: rest =>
      if str_eqb (strip ln) hline then Some (ln :: until_h2 rest)
      else section_of rest hline
  end.

(** Lines that are no heading line for [hline], and lines that do not end
    a section. *)
Definition no_heading (hline : str) (Y : list str) : Prop :=
  Forall (fun y => strip y <> hline) Y.

Definition no_h2 (Y : list str) : Prop := Forall (fun y => is_h2 y = false) Y.

(** [L'] is [L] with the lines [Y] put in at one place; lines that end a
    section are only ever put at the very end. *)
Definition grows (L L' Y : list str) : Prop :=
  exists A B, L = A ++ B /\ L' = A ++ Y ++ B /\ (no_h2 Y \/ B = []).

(** The three headers the merger uses. *)
Definition known_header (h : str) : Prop :=
  h = PARENTS \/ h = CHILDREN \/ h = DESC_HEADER.

(** What one append step adds: the heading lines when the section was
    missing, then the new lines. *)
Definition new_heading (lines : list str) (header : str) : list str :=
  match split_section lines (H2 ++ header) with
  | Some _ => []
  | None => separator lines ++ [H2 ++ header; []]
  end.

Definition ensured_section (lines : list str) (header : str) : list str :=
  (ensured lines header).1.2.

Definition new_links (lines : list str) (header : str) (ts : list str)
  : list str :=
  map link_line (links_to_add (links_of (ensured_section lines header)) ts).

Definition new_blocks (lines : list str) (pairs : list (str * str))
  : list str :=
  blocks_of (new_pairs (keys_of (ensured_section lines DESC_HEADER)) pairs).

(** The lines the leaf scan reacts to. *)
Definition scan_relevant (ln : str) : bool :=
  startswith (strip ln) DESC_PREFIX || startswith (strip ln) SRC_PREFIX.

(** A title that a link line gives back: not empty, trimmed, without ']'
    and '|'. *)
Definition good_title (t : str) : Prop :=
  t <> [] /\ strip t = t /\ forallb target_char t = true.

(** Nothing is left to add: every candidate is a link target of its
    section, every pair has an empty key or a key of the section. *)
Definition links_settled (lines : list str) (header : str) (ts : list str)
  : Prop :=
  ts = [] \/
  exists sec, section_of lines (H2 ++ header) = Some sec
              /\ forall t, t ∈ ts -> t ∈ links_of sec.

Definition leaves_settled (lines : list str) (pairs : list (str * str))
  : Prop :=
  pairs = [] \/
  exists sec, section_of lines (H2 ++ DESC_HEADER) = Some sec
              /\ forall p, p ∈ pairs -> key_of p = [] \/ key_of p ∈ keys_of sec.

Definition settled (lines : list str) (add_parents add_children : list str)
    (add_leaf_pairs : list (str * str)) : Prop :=
  links_settled lines PARENTS add_parents
  /\ links_settled lines CHILDREN add_children
  /\ leaves_settled lines add_leaf_pairs.

(** The lines without the blank lines at the end and without the trailing
    whitespace of the last line left: what [rstrip] leaves of the joined
    text. *)
Fixpoint rstrip_lines (lines : list str) : list str :=
  match lines with
  | [] => []
  | x :: rest =>
      match rstrip_lines rest with
      | [] => if blank x then [] else [rstrip x]
      | r => x :: r
      end
  end.


(** The guarded steps of [update_note_file_append_only], and the lines
    each of them puts in. *)
Definition links_step (lines : list str) (header : str) (ts : list str)
  : list str :=
  match ts with
  | [] => lines
  | _ => append_missing_links lines header ts
  end.

Definition leaf_step (lines : list str) (pairs : list (str * str)) : list str :=
  match pairs with
  | [] => lines
  | _ => append_missing_leaf_blocks lines pairs
  end.

Definition links_step_added (lines : list str) (header : str) (ts : list str)
  : list str :=
  match ts with
  | [] => []
  | _ => new_heading lines header ++ new_links lines header ts
  end.

Definition leaf_step_added (lines : list str) (pairs : list (str * str))
  : list str :=
  match pairs with
  | [] => []
  | _ => new_heading lines DESC_HEADER ++ new_blocks lines pairs
  end.


(** A section of [L] seen again in [M], a later state of the same note:
    found in both or in neither; nothing of it lost; and no link target in
    it that is not in [L]'s section or written as a link line of [M]. *)
Definition same_found (h : str) (L M : list str) : Prop :=
  section_of L (H2 ++ h) = None <-> section_of M (H2 ++ h) = None.



(** The note is missing or has no line, so the template is used. *)
Definition scaffolded (file : option str) : Prop :=
  match file with
  | Some raw => splitlines raw = []
  | None => True
  end.

(** ** File names *)

Definition QUOTE : ascii := ascii_of_nat 34.

(** The characters that [sanitize_filename] replaces: backslash, slash,
    colon, star, question mark, double quote, the angle brackets and the
    bar. *)
Definition forbidden (c : ascii) : bool :=
  bool_decide (c ∈ QUOTE :: $"\/:*?<>|").

(** [re.sub] of one forbidden character by [" - "]. *)
Fixpoint replace_forbidden (s : str) : str :=
  match s with
  | [] => []
  | c :: s' => (if forbidden c then $" - " else [c]) ++ replace_forbidden s'
  end.

(** [s.rstrip(chars)] *)
Fixpoint rstrip_chars (chars s : str) : str :=
  match s with
  | [] => []
  | c :: s' =>
      match rstrip_chars chars s' with
      | [] => if bool_decide (c ∈ chars) then [] else [c]
      | r => c :: r
      end
  end.

Definition UNTITLED : str := $"Untitled".

(** [sanitize_filename]; for a string, [name or ""] is the string. *)
Definition sanitize_filename (name : str) : str :=
  let name := strip name in
  let name := replace_forbidden name in
  let name := strip (collapse_ws false name) in
  let name := rstrip_chars $" ." name in
  match name with
  | [] => UNTITLED
  | _ => name
  end.

(** The name before the last step of [sanitize_filename]. *)
Definition spaced (name : str) : str :=
  strip (collapse_ws false (replace_forbidden (strip name))).

Definition nonspace (c : ascii) : bool := negb (is_space c).

(** A word: not empty, no whitespace. *)
Definition proper (w : str) : Prop := w <> [] /\ forallb nonspace w = true.

(** ** Column letters *)

Section Columns.
Local Open Scope Z_scope.

Definition ord (c : ascii) : Z := Z.of_nat (code c).
Definition chr (n : Z) : ascii := ascii_of_nat (Z.to_nat n).

(** [str.upper()] on one character of the code points 0..255, as the code
    points of the result: the sharp s gives two letters, the micro sign
    and the y with diaeresis leave the range. *)
Definition upper_char (c : ascii) : list Z :=
  let n := ord c in
  if ((97 <=? n) && (n <=? 122))
     || ((224 <=? n) && (n <=? 254) && negb (n =? 247))
  then [n - 32]
  else if n =? 223 then [83; 83]
  else if n =? 181 then [924]
  else if n =? 255 then [376]
  else [n].

Definition upper (s : str) : list Z := concat (map upper_char s).

Definition is_AZ (n : Z) : bool := (65 <=? n) && (n <=? 90).

(** [re.fullmatch(r"[A-Z]+", col)] on the code points. *)
Definition letters_only (col : list Z) : bool :=
  match col with
  | [] => false
  | _ => forallb is_AZ col
  end.

(** [col_letter_to_index]; [None] stands for the [ValueError]. *)
Definition col_letter_to_index (col : str) : option Z :=
  let col := upper (strip col) in
  if letters_only col
  then Some (foldl (fun n ch => n * 26 + (ch - 65 + 1)) 0 col - 1)
  else None.

(** The number that the loop of [col_letter_to_index] computes. *)
Definition number_of (col : list Z) : Z :=
  foldl (fun n ch => n * 26 + (ch - 65 + 1)) 0 col.


(** The loop of [index_to_col_letter]: the letters as they are appended,
    last letter of the column first. *)
Fixpoint letters_loop (fuel : nat) (n : Z) : list ascii :=
  match fuel with
  | O => []
  | S fuel' =>
      if n =? 0 then []
      else chr (65 + (n - 1) mod 26) :: letters_loop fuel' ((n - 1) / 26)
  end.

(** [index_to_col_letter]; [None] stands for the [ValueError]. *)
Definition index_to_col_letter (idx0 : Z) : option str :=
  if idx0 <? 0 then None
  else Some (rev (letters_loop (Z.to_nat (idx0 + 1)) (idx0 + 1))).

(** [ask_col] on the lines that [input] reads, one after the other; with
    no line left [input] raises [EOFError] ([None]). The result is the
    answer and the lines not read. *)
Fixpoint ask_col (inputs : list str) : option (str * list str) :=
  match inputs with
  | [] => None
  | a :: rest =>
      let ans := upper (strip a) in
      if letters_only ans then Some (map chr ans, rest)
      else ask_col rest
  end.

(** ** Reading the sheet *)

(** A cell value: [None], or the text [str(val)] of the value. *)
Definition cell := option str.

(** [row[ci] if ci < len(row) else None], then
    [sval = "" if val is None else str(val).strip()]; the index is never
    negative. *)
Definition cell_text (r : list cell) (ci : Z) : str :=
  let val := if ci <? Z.of_nat (length r)
             then match r !! Z.to_nat ci with
                  | Some v => v
                  | None => None
                  end
             else None in
  match val with
  | None => []
  | Some v => strip v
  end.

(** The body of the loop over the rows; [None] stands for [continue]. *)
Definition read_row (hierarchy_idx0 : list Z) (include_desc : bool)
    (desc_idx0 src_idx0 : option Z) (r : list cell) : option row :=
  let parts := List.filter (fun sval => negb (str_eqb sval []))
                           (map (cell_text r) hierarchy_idx0) in
  match parts with
  | [] => None
  | _ =>
      let description :=
        if include_desc then
          match desc_idx0 with Some i => cell_text r i | None => [] end
        else [] in
      let source :=
        if include_desc then
          match src_idx0 with Some i => cell_text r i | None => [] end
        else [] in
      Some (Row parts (Some description) (Some source))
  end.

(** [col_letter_to_index(letter) if (include_desc and letter) else None];
    the outer [None] stands for the [ValueError]. *)
Definition optional_col (include_desc : bool) (letter : option str)
  : option (option Z) :=
  match letter with
  | Some (c :: l) =>
      if include_desc then Some <$> col_letter_to_index (c :: l)
      else Some None
  | _ => Some None
  end.

(** [read_xlsx_rows_by_columns] on the rows that [ws.iter_rows] yields
    from [start_row] on; [None] stands for the [ValueError]. *)
Definition read_xlsx_rows_by_columns (rows_iter : list (option (list cell)))
    (hierarchy_cols_letters : list str) (include_desc : bool)
    (desc_col_letter source_col_letter : option str) : option (list row) :=
  hierarchy_idx0 ← mapM col_letter_to_index hierarchy_cols_letters;
  desc_idx0 ← optional_col include_desc desc_col_letter;
  src_idx0 ← optional_col include_desc source_col_letter;
  Some (omap (fun r => r ≫= read_row hierarchy_idx0 include_desc
                                     desc_idx0 src_idx0) rows_iter).

(** [validate_cols_exist] on [ws.max_column]: [true] when it returns,
    [false] when it raises. *)
Definition validate_cols_exist (max_column : option Z) (cols : list str)
  : bool :=
  match max_column with
  | None => false
  | Some m =>
      if m <=? 0 then false
      else
        forallb (fun c => match col_letter_to_index c with
                          | Some idx => negb (m - 1 <? idx)
                          | None => false
                          end) cols
  end.

(** [cols_to_check] of [main]. *)
Definition cols_to_check (hierarchy_cols : list str) (include_desc : bool)
    (desc_col source_col : option str) : list str :=
  let truthy (c : option str) :=
    match c with Some (x :: l) => [x :: l] | _ => [] end in
  hierarchy_cols
  ++ (if include_desc then truthy desc_col ++ truthy source_col else []).

End Columns.

(** ** Views of the sections *)

(** The lines with [new] put after the section of the heading line
    [hline], or with [tail] at the end when there is no such section. *)
Fixpoint put_after_section (hline : str) (new tail : list str)
    (lines : list str) : list str :=
  match lines with
  | [] => tail
  | ln :: rest =>
      if str_eqb (strip ln) hline
      then ln :: until_h2 rest ++ new ++ from_h2 rest
      else ln :: put_after_section hline new tail rest
  end.

(** The heading lines of [h] and [h'] start the line. *)
Definition headings_flush (h h' : str) (lines : list str) : Prop :=
  Forall (fun ln => strip ln = H2 ++ h \/ strip ln = H2 ++ h' ->
                    is_h2 ln = true) lines.

(** ** Views of the rows *)

(** The labels of the rows. *)
Definition labels (rows : list row) : gset str :=
  list_to_set (concat (map parts rows)).

(** The leaf entry that a row contributes: its last label with the trimmed
    description and source, unless both are empty. *)
Definition leaf_entry (r : row) : option (str * (str * str)) :=
  match last (parts r) with
  | Some leaf_title =>
      let desc := strip (default [] (description r)) in
      let src := strip (default [] (source r)) in
      if negb (str_eqb desc []) || negb (str_eqb src [])
      then Some (leaf_title, (desc, src))
      else None
  | None => None
  end.

Definition leaf_entries (rows : list row) : list (str * (str * str)) :=
  omap leaf_entry rows.

Definition entries_of (t : str) (es : list (str * (str * str)))
  : list (str * str) :=
  map snd (List.filter (fun e => str_eqb e.1 t) es).

(** The leaf entries written so far. *)
Definition leaf_inv (g : graph) (es : list (str * (str * str))) : Prop :=
  leaf_entry_count g = length es
  /\ forall t, leaf_info g !! t
               = match entries_of t es with [] => None | l => Some l end.

(** Every key of the graph is in [S]. *)
Definition keys_within (g : graph) (S : gset str) : Prop :=
  forall t, is_Some (parent_to_children g !! t)
            \/ is_Some (child_to_parents g !! t)
            \/ is_Some (leaf_info g !! t) -> t ∈ S.

(** ** The notes of a graph *)

Section Notes.

(** The order in which a Python set hands out its elements. *)
Variable order : gset str -> list str.

Definition all_titles (g : graph) : gset str :=
  dom (parent_to_children g) ∪ dom (child_to_parents g) ∪ dom (leaf_info g).

(** [roots] of [dry_run_summary]. *)
Definition roots (g : graph) : list str :=
  sorted lower
    (List.filter (fun t => size (dd_get (child_to_parents g) t) =? 0)
                 (order (all_titles g))).

(** [sample_titles] of [dry_run_summary]. *)
Definition sample_titles (g : graph) : list str :=
  take 15 (sorted lower (order (all_titles g))).

Definition MD : str := $".md".

(** The call of [update_note_file_append_only] for a title, on the file as
    it is. *)
Definition note_update (g : graph) (file : option str) (title : str) : str :=
  update_note_file_append_only file title
    (order (dd_get (child_to_parents g) title))
    (order (dd_get (parent_to_children g) title))
    (default [] (leaf_info g !! title)).

(** One round of the loop of [main] that writes the notes. *)
Definition write_note (g : graph) (dir : gmap str str) (title : str) : gmap str str :=
  let filename := sanitize_filename title ++ MD in
  <[filename := note_update g (dir !! filename) title]> dir.

Definition write_notes (g : graph) (dir : gmap str str) : gmap str str :=
  foldl (write_note g) dir (sorted lower (order (all_titles g))).

End Notes.

(** ** Strings: trimming, prefixes, joining and splitting *)

Module StrFacts.

Lemma str_eqb_true a b : str_eqb a b = true <-> a = b.
Proof. unfold str_eqb. apply bool_decide_eq_true. Qed.

Lemma str_eqb_false a b : str_eqb a b = false <-> a <> b.
Proof. unfold str_eqb. apply bool_decide_eq_false. Qed.

Lemma str_eqb_refl a : str_eqb a a = true.
Proof. by apply str_eqb_true. Qed.

Lemma linebreak_is_space c : is_linebreak c = true -> is_space c = true.
Proof. destruct c as [[] [] [] [] [] [] [] []]; vm_compute; congruence. Qed.

Lemma startswith_app p r : startswith (p ++ r) p = true.
Proof.
  induction p as [|a p IH]; [done|]. simpl.
  by rewrite Ascii.eqb_refl, IH.
Qed.



(** *** [rstrip] *)

Lemma rstrip_blank s : blank s = true -> rstrip s = [].
Proof.
  induction s as [|c s IH]; [done|]. simpl. intros H.
  apply andb_true_iff in H as [Hc Hs]. by rewrite (IH Hs), Hc.
Qed.

Lemma rstrip_nil_blank s : rstrip s = [] -> blank s = true.
Proof.
  induction s as [|c s IH]; [done|]. simpl.
  destruct (rstrip s) eqn:E; [|done].
  destruct (is_space c); [|done]. intros _. by rewrite IH.
Qed.

Lemma rstrip_cons c s :
  rstrip (c :: s) =
  if blank (c :: s) then [] else c :: rstrip s.
Proof.
  simpl. destruct (rstrip s) eqn:E.
  - rewrite (rstrip_nil_blank s E), andb_true_r. by destruct (is_space c).
  - destruct (blank s) eqn:Hb.
    + by rewrite (rstrip_blank s Hb) in E.
    + by rewrite andb_false_r.
Qed.

Lemma blank_app a b : blank (a ++ b) = blank a && blank b.
Proof. unfold blank. apply forallb_app. Qed.

Lemma rstrip_app_blank s w : blank w = true -> rstrip (s ++ w) = rstrip s.
Proof.
  intros Hw. induction s as [|c s IH].
  - simpl. by rewrite rstrip_blank.
  - rewrite <- app_comm_cons, !rstrip_cons, IH.
    change (blank (c :: s ++ w)) with (is_space c && blank (s ++ w)).
    rewrite blank_app, Hw, andb_true_r. done.
Qed.

Lemma rstrip_app_nonblank a b : blank b = false -> rstrip (a ++ b) = a ++ rstrip b.
Proof.
  intros Hb. induction a as [|c a IH]; [done|].
  rewrite <- app_comm_cons, rstrip_cons, IH.
  change (blank (c :: a ++ b)) with (is_space c && blank (a ++ b)).
  by rewrite blank_app, Hb, !andb_false_r.
Qed.

Lemma rstrip_decomp s : exists w, s = rstrip s ++ w /\ blank w = true.
Proof.
  induction s as [|c s (w & Hs & Hw)]; [by exists []|].
  rewrite rstrip_cons. destruct (blank (c :: s)) eqn:Hb.
  - by exists (c :: s).
  - exists w. split; [|done]. simpl. by rewrite <- Hs.
Qed.

Lemma blank_rstrip s : blank (rstrip s) = blank s.
Proof.
  destruct (rstrip_decomp s) as (w & Hs & Hw).
  rewrite Hs at 2. by rewrite blank_app, Hw, andb_true_r.
Qed.

Lemma rstrip_idem s : rstrip (rstrip s) = rstrip s.
Proof.
  induction s as [|c s IH]; [done|].
  rewrite rstrip_cons. destruct (blank (c :: s)) eqn:Hb; [done|].
  rewrite rstrip_cons, IH.
  change (blank (c :: rstrip s)) with (is_space c && blank (rstrip s)).
  rewrite blank_rstrip. change (is_space c && blank s) with (blank (c :: s)).
  by rewrite Hb.
Qed.

Lemma rstrip_snoc_nonspace s c : is_space c = false -> rstrip (s ++ [c]) = s ++ [c].
Proof.
  intros Hc. rewrite rstrip_app_nonblank.
  - simpl. by rewrite Hc.
  - simpl. by rewrite Hc.
Qed.


(** *** [lstrip] and [strip] *)

Lemma lstrip_blank s : blank s = true -> lstrip s = [].
Proof.
  induction s as [|c s IH]; [done|]. simpl. intros H.
  apply andb_true_iff in H as [-> Hs]. auto.
Qed.

Lemma lstrip_decomp s : exists w, s = w ++ lstrip s /\ blank w = true.
Proof.
  induction s as [|c s (w & Hs & Hw)]; [by exists []|].
  simpl. destruct (is_space c) eqn:Hc.
  - exists (c :: w). simpl. rewrite Hc, Hw. by rewrite <- Hs.
  - by exists [].
Qed.

Lemma lstrip_app_blank w s : blank w = true -> lstrip (w ++ s) = lstrip s.
Proof.
  induction w as [|c w IH]; [done|]. simpl. intros H.
  apply andb_true_iff in H as [-> Hw]. auto.
Qed.

Lemma lstrip_nonspace c s : is_space c = false -> lstrip (c :: s) = c :: s.
Proof. intros H. simpl. by rewrite H. Qed.


Lemma strip_nil_blank s : strip s = [] -> blank s = true.
Proof.
  unfold strip. intros H. rewrite <- blank_rstrip.
  destruct (lstrip_decomp (rstrip s)) as (w & Hs & Hw).
  rewrite Hs, H, app_nil_r. done.
Qed.

Lemma strip_rstrip s : strip (rstrip s) = strip s.
Proof. unfold strip. by rewrite rstrip_idem. Qed.

Lemma strip_app_blank_r s w : blank w = true -> strip (s ++ w) = strip s.
Proof. intros H. unfold strip. by rewrite rstrip_app_blank. Qed.

Lemma strip_app_blank_l w s : blank w = true -> strip (w ++ s) = strip s.
Proof.
  intros Hw. unfold strip. destruct (blank s) eqn:Hs.
  - rewrite !rstrip_blank; [done..|]. by rewrite blank_app, Hw, Hs.
  - rewrite rstrip_app_nonblank by done. by apply lstrip_app_blank.
Qed.

(** A line is its trimmed text between two runs of whitespace. *)
Lemma strip_decomp s :
  exists a b, s = a ++ strip s ++ b /\ blank a = true /\ blank b = true.
Proof.
  destruct (rstrip_decomp s) as (b & Hs & Hb).
  destruct (lstrip_decomp (rstrip s)) as (a & Hr & Ha).
  exists a, b. split; [|done]. unfold strip.
  rewrite app_assoc, <- Hr. done.
Qed.

Lemma strip_fixed c s d :
  is_space c = false -> is_space d = false ->
  strip (c :: s ++ [d]) = c :: s ++ [d].
Proof.
  intros Hc Hd. unfold strip.
  rewrite app_comm_cons, rstrip_snoc_nonspace by done.
  simpl. by rewrite Hc.
Qed.

(** The first character of a trimmed line is no whitespace. *)
Lemma strip_head s c r : strip s = c :: r -> is_space c = false.
Proof.
  unfold strip. generalize (rstrip s). intros t.
  induction t as [|x t IH]; [done|]. simpl.
  destruct (is_space x) eqn:E; [done|]. by intros [= <- _].
Qed.

Lemma strip_idem s : strip (strip s) = strip s.
Proof.
  destruct (strip_decomp s) as (a & b & Hs & Ha & Hb).
  rewrite Hs at 2.
  by rewrite strip_app_blank_l, strip_app_blank_r.
Qed.

End StrFacts.

(** ** Sections: the range found, as a decomposition of the lines *)

Module SecFacts.
Import StrFacts.

(** *** The insertion loop is a splice *)

Lemma insert_all_from (lines : list str) (e : nat) (acc new : list str) :
  e <= length lines ->
  fst (foldl (fun '(ls, at_) ln => (list_insert_at at_ ln ls, S at_))
             (take e lines ++ acc ++ drop e lines, e + length acc) new)
  = take e lines ++ (acc ++ new) ++ drop e lines.
Proof.
  intros He. revert acc. induction new as [|ln new IH]; intros acc.
  - by rewrite app_nil_r.
  - simpl. unfold list_insert_at.
    assert (Hlen : length (take e lines) = e) by (rewrite length_take; lia).
    rewrite (app_assoc (take e lines) acc).
    rewrite take_app_length', drop_app_length'
      by (rewrite length_app, Hlen; lia).
    replace (S (e + length acc)) with (e + length (acc ++ [ln]))
      by (rewrite length_app; simpl; lia).
    replace ((take e lines ++ acc) ++ ln :: drop e lines)
      with (take e lines ++ (acc ++ [ln]) ++ drop e lines)
      by (by rewrite <- !app_assoc).
    rewrite IH. by rewrite <- !app_assoc.
Qed.

Lemma insert_all_splice lines e new :
  e <= length lines ->
  insert_all lines e new = take e lines ++ new ++ drop e lines.
Proof.
  intros He. unfold insert_all.
  pose proof (insert_all_from lines e [] new He) as H.
  simpl in H. rewrite Nat.add_0_r, take_drop in H. done.
Qed.

(** *** Sections *)

Lemma until_h2_take lines : until_h2 lines = take (find_next_h2 lines) lines.
Proof.
  induction lines as [|ln rest IH]; [done|]. simpl.
  destruct (is_h2 ln); [done|]. simpl. by rewrite IH.
Qed.

Lemma from_h2_drop lines : from_h2 lines = drop (find_next_h2 lines) lines.
Proof.
  induction lines as [|ln rest IH]; [done|]. simpl.
  destruct (is_h2 ln); [done|]. simpl. by rewrite IH.
Qed.

Lemma until_from_h2 lines : until_h2 lines ++ from_h2 lines = lines.
Proof. by rewrite until_h2_take, from_h2_drop, take_drop. Qed.

Lemma find_next_h2_le lines : find_next_h2 lines <= length lines.
Proof.
  induction lines as [|ln rest IH]; simpl; [lia|].
  destruct (is_h2 ln); simpl; lia.
Qed.

Lemma until_h2_length lines : length (until_h2 lines) = find_next_h2 lines.
Proof.
  rewrite until_h2_take, length_take. pose proof (find_next_h2_le lines). lia.
Qed.

Lemma split_section_app lines hline pre sec post :
  split_section lines hline = Some (pre, sec, post) ->
  lines = pre ++ sec ++ post.
Proof.
  revert pre. induction lines as [|ln rest IH]; intros pre; [done|]. simpl.
  destruct (str_eqb (strip ln) hline).
  - intros [= <- <- <-]. simpl. by rewrite until_from_h2.
  - destruct (split_section rest hline) as [[[pre' sec'] post']|] eqn:E; [|done].
    simpl. intros [= <- <- <-]. simpl. by rewrite <- (IH pre').
Qed.

Lemma find_start_split lines hline :
  find_start lines hline =
  (fun '(pre, _, _) => length pre) <$> split_section lines hline.
Proof.
  induction lines as [|ln rest IH]; [done|]. simpl.
  destruct (str_eqb (strip ln) hline); [done|]. rewrite IH.
  by destruct (split_section rest hline) as [[[pre' sec'] post']|].
Qed.

Lemma split_section_drop lines hline pre sec post :
  split_section lines hline = Some (pre, sec, post) ->
  exists hdr, sec = hdr :: until_h2 (drop (length pre + 1) lines)
              /\ post = from_h2 (drop (length pre + 1) lines)
              /\ strip hdr = hline.
Proof.
  revert pre. induction lines as [|ln rest IH]; intros pre; [done|]. simpl.
  destruct (str_eqb (strip ln) hline) eqn:Eq.
  - intros [= <- <- <-]. exists ln. simpl. rewrite drop_0.
    by apply str_eqb_true in Eq.
  - destruct (split_section rest hline) as [[[pre' sec'] post']|] eqn:E; [|done].
    simpl. intros [= <- <- <-]. simpl. by apply IH.
Qed.

Lemma find_section_range_split lines header :
  find_section_range lines header =
  (fun '(pre, sec, _) => (length pre, length pre + length sec))
    <$> split_section lines (H2 ++ header).
Proof.
  unfold find_section_range. rewrite find_start_split.
  destruct (split_section lines (H2 ++ header)) as [[[pre sec] post]|] eqn:E;
    [|done].
  simpl. destruct (split_section_drop _ _ _ _ _ E) as (hdr & -> & _ & _).
  simpl. rewrite until_h2_length. do 2 f_equal. lia.
Qed.

Lemma slice_app_mid {A} (pre sec post : list A) :
  slice (pre ++ sec ++ post) (length pre) (length pre + length sec) = sec.
Proof.
  unfold slice. rewrite drop_app_length.
  replace (length pre + length sec - length pre) with (length sec) by lia.
  by rewrite take_app_length.
Qed.

Lemma separator_blank lines :
  match last lines with
  | Some l => if str_eqb (strip l) [] then lines else lines ++ [ [] ]
  | None => lines
  end = lines ++ (match last lines with
                  | Some l => if str_eqb (strip l) [] then [] else [ [] ]
                  | None => []
                  end).
Proof.
  destruct (last lines) as [l|]; [|by rewrite app_nil_r].
  destruct (str_eqb (strip l) []); [by rewrite app_nil_r | done].
Qed.

Lemma ensure_section_ensured lines header :
  let '(pre, sec, post) := ensured lines header in
  ensure_section lines header
  = (pre ++ sec ++ post, length pre, length pre + length sec).
Proof.
  unfold ensured, ensure_section. rewrite find_section_range_split.
  destruct (split_section lines (H2 ++ header)) as [[[pre sec] post]|] eqn:E.
  - simpl. by rewrite <- (split_section_app _ _ _ _ _ E).
  - simpl. rewrite separator_blank. fold (separator lines).
    rewrite <- !app_assoc. simpl. rewrite !length_app. simpl.
    f_equal; [f_equal|]; lia.
Qed.

(** *** What the scans of a section see *)

Lemma links_fold_inner (found : gset str) gs x :
  x ∈ foldl (fun found g => {[ strip g ]} ∪ found) found gs
  <-> x ∈ found \/ exists g, g ∈ gs /\ x = strip g.
Proof.
  revert found. induction gs as [|g gs IH]; intros found; simpl.
  - split; [by left|]. intros [?|(g & Hg & _)]; [done|].
    by apply elem_of_nil in Hg.
  - rewrite IH, elem_of_union, elem_of_singleton. split.
    + intros [[->|?]|(g' & Hg' & ->)]; [right|by left|right].
      * exists g. split; [left|done].
      * exists g'. split; [by right|done].
    + intros [?|(g' & Hg' & ->)]; [by left; right|].
      apply elem_of_cons in Hg' as [->|Hg']; [by left; left|].
      right. by exists g'.
Qed.

Lemma links_fold_outer (found : gset str) sec x :
  x ∈ foldl (fun found ln =>
               foldl (fun found g => {[ strip g ]} ∪ found) found
                     (wikilink_targets ln)) found sec
  <-> x ∈ found
      \/ exists ln g, ln ∈ sec /\ g ∈ wikilink_targets ln /\ x = strip g.
Proof.
  revert found. induction sec as [|ln sec IH]; intros found; simpl.
  - split; [by left|]. intros [?|(ln & g & Hln & _)]; [done|].
    by apply elem_of_nil in Hln.
  - rewrite IH, links_fold_inner. split.
    + intros [[?|(g & Hg & ->)]|(ln' & g & Hln & Hg & ->)].
      * by left.
      * right. exists ln, g. split; [left|done].
      * right. exists ln', g. split; [by right|done].
    + intros [?|(ln' & g & Hln & Hg & ->)]; [by left; left|].
      apply elem_of_cons in Hln as [->|Hln].
      * left. right. by exists g.
      * right. by exists ln', g.
Qed.

Lemma elem_of_links_of sec x :
  x ∈ links_of sec
  <-> exists ln g, ln ∈ sec /\ g ∈ wikilink_targets ln /\ x = strip g.
Proof.
  unfold links_of. rewrite links_fold_outer. split; [|by right].
  intros [H|H]; [|done]. by apply elem_of_empty in H.
Qed.

Lemma links_of_mono sec sec' :
  (forall ln, ln ∈ sec -> ln ∈ sec') -> links_of sec ⊆ links_of sec'.
Proof.
  intros H x. rewrite !elem_of_links_of.
  intros (ln & g & Hln & Hg & ->). exists ln, g. auto.
Qed.

(** *** The two append functions in terms of the decomposition *)

Lemma append_missing_links_ensured lines header new_links :
  let '(pre, sec, post) := ensured lines header in
  append_missing_links lines header new_links
  = pre ++ sec
    ++ map link_line (links_to_add (links_of sec) new_links) ++ post.
Proof.
  pose proof (ensure_section_ensured lines header) as He.
  destruct (ensured lines header) as [[pre sec] post].
  unfold append_missing_links. rewrite He.
  unfold extract_existing_wikilinks. rewrite slice_app_mid.
  fold (links_of sec). fold (links_to_add (links_of sec) new_links).
  assert (Hsplice : forall X : list str,
    insert_all (pre ++ sec ++ post) (length pre + length sec) X
    = pre ++ sec ++ X ++ post).
  { intros X. rewrite insert_all_splice by (rewrite !length_app; lia).
    rewrite (app_assoc pre sec post).
    rewrite take_app_length', drop_app_length' by (rewrite length_app; lia).
    by rewrite <- app_assoc. }
  destruct (links_to_add (links_of sec) new_links) as [|x to_add] eqn:E.
  - done.
  - rewrite Hsplice. done.
Qed.

Lemma leaf_select_fold existing acc pairs :
  snd (foldl leaf_select_step (existing, acc) pairs)
  = acc ++ map (fun '(desc, src) => leaf_block desc src)
               (new_pairs existing pairs).
Proof.
  revert existing acc. induction pairs as [|[d s] pairs IH]; intros existing acc.
  - by rewrite app_nil_r.
  - simpl.
    destruct (negb (str_eqb (normalize_leaf_pair d s) [])
              && bool_decide (normalize_leaf_pair d s ∉ existing)).
    + rewrite IH. by rewrite <- app_assoc.
    + by rewrite IH.
Qed.

Lemma append_missing_leaf_blocks_ensured lines pairs :
  let '(pre, sec, post) := ensured lines DESC_HEADER in
  append_missing_leaf_blocks lines pairs
  = pre ++ sec ++ blocks_of (new_pairs (keys_of sec) pairs) ++ post.
Proof.
  pose proof (ensure_section_ensured lines DESC_HEADER) as He.
  destruct (ensured lines DESC_HEADER) as [[pre sec] post].
  unfold append_missing_leaf_blocks. rewrite He.
  unfold extract_existing_leaf_pairs. rewrite slice_app_mid.
  fold (keys_of sec). rewrite leaf_select_fold. simpl.
  unfold blocks_of.
  destruct (new_pairs (keys_of sec) pairs) as [|[d s] chosen] eqn:E.
  - reflexivity.
  - cbn [map]. rewrite insert_all_splice by (rewrite !length_app; lia).
    rewrite (app_assoc pre sec post).
    rewrite take_app_length', drop_app_length' by (rewrite length_app; lia).
    by rewrite <- app_assoc.
Qed.

End SecFacts.

(** ** Appending links: order and placement *)

Module LinkFacts.
Import StrFacts SecFacts.

(** *** The order of [sorted] *)

Lemma str_leb_total a b : str_leb a b = false -> str_leb b a = true.
Proof.
  revert b. induction a as [|x a IH]; intros [|y b]; simpl; try done.
  destruct (code x <? code y) eqn:E1; [done|].
  destruct (code y <? code x) eqn:E2; [done|]. apply IH.
Qed.

Lemma str_leb_trans a b c :
  str_leb a b = true -> str_leb b c = true -> str_leb a c = true.
Proof.
  revert b c. induction a as [|x a IH]; intros [|y b] [|z c]; simpl; try done.
  destruct (code x <? code y) eqn:E1, (code y <? code x) eqn:E2,
           (code y <? code z) eqn:E3, (code z <? code y) eqn:E4,
           (code x <? code z) eqn:E5, (code z <? code x) eqn:E6;
    try done;
    repeat match goal with
           | H : (_ <? _) = true |- _ => apply Nat.ltb_lt in H
           | H : (_ <? _) = false |- _ => apply Nat.ltb_ge in H
           end; try lia.
  apply IH.
Qed.

Section SortedFacts.
Context {A : Type} (key : A -> str).

Lemma sorted_insert_perm x l : sorted_insert key x l ≡ₚ x :: l.
Proof.
  induction l as [|y l IH]; [done|]. simpl.
  destruct (str_leb (key x) (key y)); [done|].
  rewrite IH. apply Permutation_swap.
Qed.

Lemma sorted_perm xs : sorted key xs ≡ₚ xs.
Proof.
  induction xs as [|x xs IH]; [done|]. simpl.
  rewrite sorted_insert_perm. by rewrite IH.
Qed.

Lemma sorted_insert_sorted x l :
  StronglySorted (key_le key) l ->
  StronglySorted (key_le key) (sorted_insert key x l).
Proof.
  induction 1 as [|y l Hl IH Hy]; simpl.
  - repeat constructor.
  - destruct (str_leb (key x) (key y)) eqn:E.
    + constructor; [by constructor|]. constructor; [done|].
      eapply Forall_impl; [exact Hy|]. intros z Hz.
      unfold key_le in *. by eapply str_leb_trans.
    + constructor; [done|].
      rewrite sorted_insert_perm. constructor; [|done].
      by apply str_leb_total.
Qed.

Lemma sorted_sorted xs : StronglySorted (key_le key) (sorted key xs).
Proof.
  induction xs as [|x xs IH]; simpl; [constructor|].
  by apply sorted_insert_sorted.
Qed.
End SortedFacts.



Lemma elem_of_links_to_add existing new_links x :
  x ∈ links_to_add existing new_links <-> x ∈ new_links /\ x ∉ existing.
Proof.
  unfold links_to_add. rewrite list_elem_of_filter, (sorted_perm lower new_links).
  tauto.
Qed.

(** *** Lines without ['['] hold no link *)







End LinkFacts.

(** ** Leaf pairs: the dedup key and the selection loop *)

Module LeafFacts.
Import StrFacts SecFacts.

(** *** The key as a sequence of words *)

Lemma words_nonspace_head c s :
  is_space c = false -> exists w ws, words (c :: s) = (c :: w) :: ws.
Proof.
  intros Hc. simpl. rewrite Hc. destruct s as [|d s]; [by eexists _, _|].
  destruct (is_space d); [by eexists _, _|].
  destruct (words (d :: s)) as [|w ws]; by eexists _, _.
Qed.

Lemma words_head_nonspace s w ws :
  words s = w :: ws -> exists x r, w = x :: r /\ is_space x = false.
Proof.
  induction s as [|c s IH]; [done|]. destruct (is_space c) eqn:Hc.
  - simpl. rewrite Hc. apply IH.
  - destruct (words_nonspace_head c s Hc) as (w' & ws' & ->).
    intros [= <- _]. eauto.
Qed.

Lemma unwords_cons w ws :
  unwords (w :: ws) =
  match ws with [] => w | _ => w ++ " "%char :: unwords ws end.
Proof. done. Qed.

(** Collapsing whitespace and trimming on the right joins the words by one
    space each, with one leading space when whitespace was pending. *)
Lemma rstrip_collapse s :
  rstrip (collapse_ws true s) = unwords (words s)
  /\ rstrip (collapse_ws false s) =
     match words s with
     | [] => []
     | ws => if starts_with_space s then " "%char :: unwords ws else unwords ws
     end.
Proof.
  induction s as [|c s [IHt IHf]]; [done|].
  assert (Hsp : is_space " " = true) by done.
  destruct (is_space c) eqn:Hc.
  - cbn [collapse_ws words starts_with_space]. rewrite Hc.
    split; [done|]. rewrite rstrip_cons.
    change (blank (" "%char :: collapse_ws true s))
      with (is_space " " && blank (collapse_ws true s)).
    rewrite Hsp, andb_true_l, <- blank_rstrip, IHt.
    destruct (words s) as [|w ws] eqn:Ew; [done|].
    destruct (words_head_nonspace s w ws Ew) as (x & r & -> & Hx).
    rewrite unwords_cons. destruct ws; simpl; by rewrite Hx.
  - assert (Hstep : forall b, rstrip (collapse_ws b (c :: s))
                            = c :: rstrip (collapse_ws false s)).
    { intros b. cbn [collapse_ws]. rewrite Hc, rstrip_cons.
      change (blank (c :: collapse_ws false s))
        with (is_space c && blank (collapse_ws false s)).
      by rewrite Hc, andb_false_l. }
    assert (Hgoal : c :: rstrip (collapse_ws false s) = unwords (words (c :: s))).
    { rewrite IHf. cbn [words]. rewrite Hc. destruct s as [|d s]; [done|].
      cbn [starts_with_space]. destruct (is_space d) eqn:Hd.
      - destruct (words (d :: s)) as [|w' ws']; [done|].
        by rewrite (unwords_cons [c]).
      - destruct (words_nonspace_head d s Hd) as (w' & ws' & Hw').
        rewrite Hw'. rewrite !unwords_cons. destruct ws'; reflexivity. }
    rewrite !Hstep, Hgoal. split; [done|].
    destruct (words_nonspace_head c s Hc) as (w & ws & Hw).
    rewrite Hw. cbn [starts_with_space]. by rewrite Hc.
Qed.

Lemma lstrip_unwords s w ws :
  words s = w :: ws -> lstrip (unwords (w :: ws)) = unwords (w :: ws).
Proof.
  intros H. destruct (words_head_nonspace s w ws H) as (x & r & -> & Hx).
  rewrite unwords_cons. destruct ws; simpl; by rewrite Hx.
Qed.

Lemma strip_collapse s : strip (collapse_ws false s) = unwords (words s).
Proof.
  unfold strip. rewrite (proj2 (rstrip_collapse s)).
  destruct (words s) as [|w ws] eqn:E; [done|].
  destruct (starts_with_space s).
  - cbn [lstrip]. change (is_space " ") with true. cbn iota.
    by apply lstrip_unwords with s.
  - by apply lstrip_unwords with s.
Qed.

Lemma words_app_space x c y :
  is_space c = true -> words (x ++ c :: y) = words x ++ words y.
Proof.
  intros Hc. induction x as [|a x IH].
  - simpl. by rewrite Hc.
  - rewrite <- app_comm_cons. cbn [words]. destruct (is_space a) eqn:Ha; [done|].
    destruct x as [|d x].
    + simpl. by rewrite Hc.
    + rewrite <- app_comm_cons. destruct (is_space d) eqn:Hd.
      * rewrite app_comm_cons, IH. done.
      * rewrite app_comm_cons, IH.
        destruct (words_nonspace_head d x Hd) as (w & ws & ->). done.
Qed.

Lemma words_blank w : blank w = true -> words w = [].
Proof.
  induction w as [|c w IH]; [done|]. simpl. intros H.
  apply andb_true_iff in H as [-> Hw]. auto.
Qed.

Lemma words_blank_l w s : blank w = true -> words (w ++ s) = words s.
Proof.
  induction w as [|c w IH]; [done|]. simpl. intros H.
  apply andb_true_iff in H as [-> Hw]. auto.
Qed.

Lemma words_blank_r s w : blank w = true -> words (s ++ w) = words s.
Proof.
  destruct w as [|c w]; [by rewrite app_nil_r|]. simpl. intros H.
  apply andb_true_iff in H as [Hc Hw].
  by rewrite words_app_space, (words_blank w), app_nil_r.
Qed.

Lemma words_strip s : words (strip s) = words s.
Proof.
  destruct (strip_decomp s) as (a & b & Hs & Ha & Hb).
  rewrite Hs at 2. by rewrite words_blank_l, words_blank_r.
Qed.

(** The key only sees the words of the two fields, in one sequence. *)
Lemma normalize_leaf_pair_words d s :
  normalize_leaf_pair d s = lower (unwords (words d ++ words s)).
Proof.
  unfold normalize_leaf_pair. cbv zeta. rewrite strip_collapse.
  by rewrite words_app_space, !words_strip.
Qed.

Lemma normalize_leaf_pair_strip d s :
  normalize_leaf_pair (strip d) (strip s) = normalize_leaf_pair d s.
Proof. by rewrite !normalize_leaf_pair_words, !words_strip. Qed.

(** *** The selection loop *)

Lemma new_pairs_sublist K ps : sublist (new_pairs K ps) ps.
Proof.
  revert K. induction ps as [|[d s] ps IH]; intros K; simpl; [done|].
  destruct (negb _ && _); [by apply sublist_skip | by apply sublist_cons].
Qed.



Lemma new_pairs_complete K ps p :
  p ∈ ps -> key_of p <> [] ->
  key_of p ∈ K \/ key_of p ∈ map key_of (new_pairs K ps).
Proof.
  revert K. induction ps as [|[d s] ps IH]; intros K Hp Hne.
  - by apply elem_of_nil in Hp.
  - simpl.
    destruct (negb (str_eqb (normalize_leaf_pair d s) [])
              && bool_decide (normalize_leaf_pair d s ∉ K)) eqn:E.
    + apply elem_of_cons in Hp as [->|Hp].
      * right. cbn [map]. left.
      * destruct (IH ({[normalize_leaf_pair d s]} ∪ K) Hp Hne) as [H|H].
        -- apply elem_of_union in H as [H|H]; [|by left].
           apply elem_of_singleton in H. right. cbn [map].
           rewrite H. left.
        -- right. cbn [map]. by right.
    + apply elem_of_cons in Hp as [->|Hp]; [|by apply IH].
      left. apply andb_false_iff in E as [E|E].
      * apply negb_false_iff, str_eqb_true in E. done.
      * apply bool_decide_eq_false in E. by apply dec_stable.
Qed.

Lemma new_pairs_none K ps :
  (forall p, p ∈ ps -> key_of p = [] \/ key_of p ∈ K) -> new_pairs K ps = [].
Proof.
  induction ps as [|[d s] ps IH]; intros H; [done|]. simpl.
  destruct (H (d, s)) as [Hk|Hk]; [left|..].
  - unfold key_of in Hk. simpl in Hk. rewrite Hk. simpl.
    apply IH. intros p Hp. apply H. by right.
  - unfold key_of in Hk. simpl in Hk.
    rewrite (bool_decide_eq_false_2 _) by (intros Hn; by apply Hn).
    rewrite andb_false_r. apply IH. intros p Hp. apply H. by right.
Qed.


(** *** The scan reads back what the selection wrote *)

Lemma rstrip_app_fixed a b : rstrip a = a -> rstrip (a ++ b) = a ++ rstrip b.
Proof.
  intros Ha. destruct (blank b) eqn:Hb.
  - by rewrite rstrip_app_blank, (rstrip_blank b), app_nil_r.
  - by apply rstrip_app_nonblank.
Qed.

Lemma desc_line_shape d :
  DESC_LINE d = DESC_PREFIX ++ rstrip (" "%char :: d).
Proof.
  unfold DESC_LINE.
  change ($"- **Description:** " ++ d) with (DESC_PREFIX ++ " "%char :: d).
  by apply rstrip_app_fixed.
Qed.

Lemma src_line_shape s :
  SRC_LINE s = $"  " ++ SRC_PREFIX ++ rstrip (" "%char :: s).
Proof.
  unfold SRC_LINE.
  change ($"  **Source:** " ++ s) with (($"  " ++ SRC_PREFIX) ++ " "%char :: s).
  rewrite rstrip_app_fixed by done. by rewrite <- app_assoc.
Qed.

Lemma strip_rstrip_space d : strip (rstrip (" "%char :: d)) = strip d.
Proof. rewrite strip_rstrip. by apply (strip_app_blank_l [" "%char]). Qed.

Lemma strip_desc_line d : strip (DESC_LINE d) = DESC_LINE d.
Proof.
  unfold strip. unfold DESC_LINE at 1. rewrite rstrip_idem.
  fold (DESC_LINE d). by rewrite desc_line_shape.
Qed.

Lemma strip_src_line s :
  strip (SRC_LINE s) = SRC_PREFIX ++ rstrip (" "%char :: s).
Proof.
  unfold strip. unfold SRC_LINE at 1. rewrite rstrip_idem.
  fold (SRC_LINE s). by rewrite src_line_shape.
Qed.

Lemma leaf_scan_block K st d s :
  foldl leaf_scan_step (K, st) (leaf_block d s)
  = ({[ normalize_leaf_pair d s ]} ∪ K, None).
Proof.
  unfold leaf_block. fold (DESC_LINE d). fold (SRC_LINE s).
  cbn [foldl]. unfold leaf_scan_step at 2.
  rewrite strip_desc_line, desc_line_shape, startswith_app.
  rewrite drop_app_length. unfold leaf_scan_step.
  rewrite strip_src_line.
  replace (startswith (SRC_PREFIX ++ rstrip (" "%char :: s)) DESC_PREFIX)
    with false by done.
  rewrite startswith_app, drop_app_length.
  by rewrite !strip_rstrip_space, normalize_leaf_pair_strip.
Qed.

Lemma leaf_scan_blocks K st ps :
  ps <> [] ->
  foldl leaf_scan_step (K, st) (blocks_of ps)
  = (list_to_set (map key_of ps) ∪ K, None).
Proof.
  revert K st. induction ps as [|[d s] ps IH]; intros K st Hne; [done|].
  unfold blocks_of. cbn [map concat]. rewrite foldl_app, leaf_scan_block.
  destruct ps as [|p ps].
  - simpl. f_equal. change (key_of (d, s)) with (normalize_leaf_pair d s).
    set_solver.
  - fold (blocks_of (p :: ps)). rewrite IH by done.
    f_equal. cbn [map list_to_set].
    change (key_of (d, s)) with (normalize_leaf_pair d s). set_solver.
Qed.

Lemma keys_of_app_blocks sec ps :
  keys_of (sec ++ blocks_of ps) = list_to_set (map key_of ps) ∪ keys_of sec.
Proof.
  unfold keys_of. rewrite foldl_app.
  destruct ps as [|p ps].
  - simpl. by rewrite (left_id_L ∅ (∪)).
  - destruct (foldl leaf_scan_step (∅, None) sec) as [K st].
    by rewrite leaf_scan_blocks.
Qed.

(** Two pairs with one key give the block of the first. *)
Lemma same_key_one_block lines p q :
  key_of p = key_of q ->
  append_missing_leaf_blocks lines [p; q] = append_missing_leaf_blocks lines [p].
Proof.
  intros Hk.
  pose proof (append_missing_leaf_blocks_ensured lines [p; q]) as H2.
  pose proof (append_missing_leaf_blocks_ensured lines [p]) as H1.
  destruct (ensured lines DESC_HEADER) as [[pre sec] post].
  rewrite H1, H2. do 3 f_equal.
  destruct p as [d s], q as [d' s']. unfold key_of in Hk. simpl in Hk.
  cbn [new_pairs]. rewrite <- Hk.
  destruct (negb (str_eqb (normalize_leaf_pair d s) [])) eqn:E1; [|done].
  destruct (bool_decide (normalize_leaf_pair d s ∉ keys_of sec)) eqn:E2.
  - cbn [andb].
    assert (bool_decide (normalize_leaf_pair d s
                         ∉ {[normalize_leaf_pair d s]} ∪ keys_of sec) = false)
      as -> by (apply bool_decide_eq_false; set_solver).
    done.
  - reflexivity.
Qed.

End LeafFacts.

(** ** Graph building: the bookkeeping invariants *)

Module GraphFacts.

Lemma foldl_invariant {A B} (P : A -> Prop) (f : A -> B -> A) (l : list B) a :
  P a -> (forall a b, P a -> b ∈ l -> P (f a b)) -> P (foldl f a l).
Proof.
  revert a. induction l as [|b l IH]; intros a Ha Hstep; simpl; [done|].
  apply IH.
  - apply Hstep; [done | left].
  - intros a' b' Ha' Hb'. apply Hstep; [done | by right].
Qed.

Lemma dd_get_touch m k k' : dd_get (dd_touch m k) k' = dd_get m k'.
Proof.
  unfold dd_get, dd_touch. destruct (m !! k) eqn:E; [done|].
  destruct (decide (k = k')) as [->|Hne].
  - by rewrite lookup_insert_eq, E.
  - by rewrite lookup_insert_ne.
Qed.

Lemma dd_get_add m k x k' y :
  y ∈ dd_get (dd_add m k x) k' <-> (k = k' /\ x = y) \/ y ∈ dd_get m k'.
Proof.
  unfold dd_add. unfold dd_get at 1.
  destruct (decide (k = k')) as [->|Hne].
  - rewrite lookup_insert_eq. simpl. set_solver.
  - rewrite lookup_insert_ne by done. fold (dd_get m k'). naive_solver.
Qed.

Lemma dd_touch_is_Some m k k' :
  is_Some (dd_touch m k !! k') <-> k = k' \/ is_Some (m !! k').
Proof.
  unfold dd_touch. destruct (m !! k) eqn:E.
  - split; [by right|]. intros [<-|?]; [by rewrite E|done].
  - rewrite lookup_insert_is_Some. destruct (decide (k = k')); naive_solver.
Qed.

Lemma dd_add_is_Some m k x k' :
  is_Some (dd_add m k x !! k') <-> k = k' \/ is_Some (m !! k').
Proof.
  unfold dd_add. rewrite lookup_insert_is_Some.
  destruct (decide (k = k')); naive_solver.
Qed.

Lemma dd_get_elem m k x :
  x ∈ dd_get m k <-> exists xs, m !! k = Some xs /\ x ∈ xs.
Proof.
  unfold dd_get. destruct (m !! k) as [xs|]; simpl.
  - naive_solver.
  - split; [set_solver|]. by intros (? & ? & ?).
Qed.

Lemma consistent_empty : consistent empty_graph ∅.
Proof.
  split; simpl.
  - intros p c. unfold dd_get. rewrite lookup_empty. set_solver.
  - intros p c. unfold dd_get. rewrite lookup_empty. set_solver.
  - vm_compute. reflexivity.
Qed.

Lemma consistent_add_edge g E pc :
  consistent g E -> consistent (add_edge g pc) ({[ pc ]} ∪ E).
Proof.
  intros [Hc Hp Hn]. destruct pc as [p c]. unfold add_edge. split; simpl.
  - intros p' c'. rewrite dd_get_add, (Hc p' c').
    rewrite elem_of_union, elem_of_singleton. naive_solver.
  - intros p' c'. rewrite dd_get_add, (Hp p' c').
    rewrite elem_of_union, elem_of_singleton. naive_solver.
  - case_bool_decide as Hfresh.
    + rewrite size_union, size_singleton; [lia|].
      apply disjoint_singleton_l. by rewrite <- (Hc p c).
    + rewrite (Hc p c) in Hfresh.
      rewrite Hn. f_equal. set_solver.
Qed.

Lemma consistent_add_edges g E pcs :
  consistent g E -> consistent (foldl add_edge g pcs) (list_to_set pcs ∪ E).
Proof.
  revert g E. induction pcs as [|pc pcs IH]; intros g E H; simpl.
  - by rewrite (left_id_L ∅ (∪)).
  - replace ({[pc]} ∪ list_to_set pcs ∪ E)
      with (list_to_set pcs ∪ ({[pc]} ∪ E)) by set_solver.
    apply IH. by apply consistent_add_edge.
Qed.

Lemma consistent_add_row g E r :
  consistent g E ->
  consistent (add_row g r) (list_to_set (row_pairs r) ∪ E).
Proof.
  intros H. unfold add_row, row_pairs.
  destruct (parts r) as [|first rest] eqn:Eparts.
  { simpl. by rewrite (left_id_L ∅ (∪)). }
  destruct (last (first :: rest)) as [leaf|] eqn:Elast.
  2:{ by rewrite last_cons in Elast; destruct (last rest). }
  pose proof (consistent_add_edges g E (consecutive_pairs (first :: rest)) H)
    as [Hc Hp Hn].
  split; simpl.
  - intros p c. unfold setdefault. rewrite dd_get_touch. apply Hc.
  - intros p c. unfold setdefault. rewrite dd_get_touch. apply Hp.
  - done.
Qed.

Lemma consistent_build_from g E rows :
  consistent g E ->
  consistent (foldl add_row g rows) (list_to_set (all_pairs rows) ∪ E).
Proof.
  revert g E. induction rows as [|r rows IH]; intros g E H.
  - simpl. by rewrite (left_id_L ∅ (∪)).
  - simpl. unfold all_pairs. simpl. rewrite list_to_set_app_L.
    fold (all_pairs rows).
    replace (list_to_set (row_pairs r) ∪ list_to_set (all_pairs rows) ∪ E)
      with (list_to_set (all_pairs rows) ∪ (list_to_set (row_pairs r) ∪ E))
      by set_solver.
    apply IH. by apply consistent_add_row.
Qed.

Lemma consistent_build rows :
  consistent (build_title_graph_from_parts rows) (list_to_set (all_pairs rows)).
Proof.
  unfold build_title_graph_from_parts.
  rewrite <- (right_id_L ∅ (∪) (list_to_set (all_pairs rows))).
  apply consistent_build_from, consistent_empty.
Qed.

(** *** Every title of a row is a key of both mappings *)

Lemma add_edge_keys_mono g pc t :
  is_Some (parent_to_children g !! t) ->
  is_Some (parent_to_children (add_edge g pc) !! t).
Proof. destruct pc. simpl. rewrite dd_add_is_Some. auto. Qed.

Lemma add_edge_keys_mono' g pc t :
  is_Some (child_to_parents g !! t) ->
  is_Some (child_to_parents (add_edge g pc) !! t).
Proof. destruct pc. simpl. rewrite dd_add_is_Some. auto. Qed.

Lemma add_edges_keys g pcs t :
  (is_Some (parent_to_children g !! t) \/ t ∈ map fst pcs ->
   is_Some (parent_to_children (foldl add_edge g pcs) !! t))
  /\ (is_Some (child_to_parents g !! t) \/ t ∈ map snd pcs ->
      is_Some (child_to_parents (foldl add_edge g pcs) !! t)).
Proof.
  revert g. induction pcs as [|[p c] pcs IH]; intros g; simpl.
  - split; intros [?|H]; try done; by apply elem_of_nil in H.
  - destruct (IH (add_edge g (p, c))) as [IH1 IH2]. split.
    + intros [H|H]; apply IH1.
      * left. by apply add_edge_keys_mono.
      * apply elem_of_cons in H as [->|H]; [|by right].
        left. simpl. rewrite dd_add_is_Some. by left.
    + intros [H|H]; apply IH2.
      * left. by apply add_edge_keys_mono'.
      * apply elem_of_cons in H as [->|H]; [|by right].
        left. simpl. rewrite dd_add_is_Some. by left.
Qed.

Lemma parts_parent_or_last ps t :
  t ∈ ps -> last ps = Some t \/ t ∈ map fst (consecutive_pairs ps).
Proof.
  induction ps as [|p ps IH]; intros H; [by apply elem_of_nil in H|].
  destruct ps as [|c ps].
  - apply elem_of_cons in H as [->|H]; [by left | by apply elem_of_nil in H].
  - apply elem_of_cons in H as [->|H].
    + right. simpl. left.
    + destruct (IH H) as [Hl|Hm].
      * left. by rewrite last_cons, Hl.
      * right. simpl. by right.
Qed.

Lemma parts_child_or_first ps t :
  t ∈ ps -> head ps = Some t \/ t ∈ map snd (consecutive_pairs ps).
Proof.
  induction ps as [|p ps IH]; intros H; [by apply elem_of_nil in H|].
  apply elem_of_cons in H as [->|H]; [by left|].
  right. destruct ps as [|c ps]; [by apply elem_of_nil in H|].
  destruct (IH H) as [Hh|Hm].
  - simpl in Hh. injection Hh as ->. simpl. left.
  - simpl. by right.
Qed.

Lemma add_row_keys_mono g r t : has_keys g t -> has_keys (add_row g r) t.
Proof.
  intros [H1 H2]. unfold add_row.
  destruct (parts r) as [|first rest]; [done|].
  destruct (last (first :: rest)) as [leaf|]; [|done].
  split; simpl; unfold setdefault; rewrite dd_touch_is_Some; right.
  - by apply add_edges_keys; left.
  - by apply add_edges_keys; left.
Qed.

Lemma add_row_keys g r t : t ∈ parts r -> has_keys (add_row g r) t.
Proof.
  intros Ht. unfold add_row.
  destruct (parts r) as [|first rest] eqn:Eparts; [by apply elem_of_nil in Ht|].
  destruct (last (first :: rest)) as [leaf|] eqn:Elast.
  2:{ by rewrite last_cons in Elast; destruct (last rest). }
  split; simpl; unfold setdefault; rewrite dd_touch_is_Some.
  - destruct (parts_parent_or_last _ _ Ht) as [Hl|Hm].
    + left. congruence.
    + right. apply add_edges_keys. by right.
  - destruct (parts_child_or_first _ _ Ht) as [Hh|Hm].
    + left. simpl in Hh. congruence.
    + right. apply add_edges_keys. by right.
Qed.

Lemma build_keys_from g rows t :
  has_keys g t \/ (exists r, r ∈ rows /\ t ∈ parts r) ->
  has_keys (foldl add_row g rows) t.
Proof.
  revert g. induction rows as [|r rows IH]; intros g H; simpl.
  - destruct H as [H|(r & Hr & _)]; [done | by apply elem_of_nil in Hr].
  - apply IH. destruct H as [H|(r' & Hr & Ht)].
    + left. by apply add_row_keys_mono.
    + apply elem_of_cons in Hr as [->|Hr].
      * left. by apply add_row_keys.
      * right. eauto.
Qed.

End GraphFacts.

(** C5. After [build_title_graph_from_parts], the two mappings are converse
    relations ([c] is in [parent_to_children[p]] exactly when [p] is in
    [child_to_parents[c]]), and every label of every row (first, middle,
    last or only label) is a key of both mappings. *)
Theorem graph_mappings_converse_and_total (rows : list row) :
  let g := build_title_graph_from_parts rows in
  (forall p c,
      (exists cs, parent_to_children g !! p = Some cs /\ c ∈ cs)
      <-> (exists ps, child_to_parents g !! c = Some ps /\ p ∈ ps))
  /\ (forall r t, r ∈ rows -> t ∈ parts r ->
        is_Some (parent_to_children g !! t)
        /\ is_Some (child_to_parents g !! t)).
Proof.
  intros g. split.
  - intros p c. rewrite <- !GraphFacts.dd_get_elem.
    destruct (GraphFacts.consistent_build rows) as [Hc Hp _].
    subst g. by rewrite (Hc p c), (Hp p c).
  - intros r t Hr Ht. apply GraphFacts.build_keys_from. right. eauto.
Qed.

(** C6. [edge_count] is the number of distinct (parent, child) pairs among
    the consecutive label pairs of all rows; for the rows [A,B,C] and
    [A,B,D] the mappings hold exactly the edges A->B, B->C, B->D,
    [parent_to_children["A"]] is [{"B"}] and [edge_count] is 3. *)
Theorem edge_count_counts_distinct_pairs :
  (forall rows : list row,
      edge_count (build_title_graph_from_parts rows)
      = size (list_to_set (C := gset (str * str))
                (concat (map (fun r => consecutive_pairs (parts r)) rows))))
  /\ (let g := build_title_graph_from_parts rows_abcd in
      parent_to_children g
        = {[ $"A" := {[ $"B" ]}; $"B" := {[ $"C"; $"D" ]};
             $"C" := ∅; $"D" := ∅ ]}
      /\ child_to_parents g
        = {[ $"A" := ∅; $"B" := {[ $"A" ]};
             $"C" := {[ $"B" ]}; $"D" := {[ $"B" ]} ]}
      /\ parent_to_children g !! $"A" = Some {[ $"B" ]}
      /\ edge_count g = 3).
Proof.
  split.
  - intros rows. apply (cons_count _ _ (GraphFacts.consistent_build rows)).
  - repeat split; vm_compute; reflexivity.
Qed.

(** ** How a section changes when lines are put into a note *)

Module GrowFacts.
Import StrFacts SecFacts LinkFacts LeafFacts.

Lemma until_h2_no_h2 R : no_h2 (until_h2 R).
Proof.
  induction R as [|x R IH]; simpl; [constructor|].
  destruct (is_h2 x) eqn:E; [constructor|]. by constructor.
Qed.

Lemma until_h2_app_no_h2 Y B : no_h2 Y -> until_h2 (Y ++ B) = Y ++ until_h2 B.
Proof.
  induction 1 as [|y Y Hy HY IH]; [done|]. simpl. by rewrite Hy, IH.
Qed.

Lemma from_h2_app_no_h2 Y B : no_h2 Y -> from_h2 (Y ++ B) = from_h2 B.
Proof.
  induction 1 as [|y Y Hy HY IH]; [done|]. simpl. by rewrite Hy.
Qed.

Lemma until_h2_from_h2 R : until_h2 (from_h2 R) = [].
Proof.
  induction R as [|x R IH]; [done|]. simpl.
  destruct (is_h2 x) eqn:E; [|done]. simpl. by rewrite E.
Qed.

Lemma until_nil_from R : until_h2 R = [] -> from_h2 R = R.
Proof. intros H. rewrite <- (until_from_h2 R) at 2. by rewrite H. Qed.

Lemma until_h2_sublist R : sublist (until_h2 R) R.
Proof. rewrite until_h2_take. apply sublist_take. Qed.

(** *** The decomposition, read both ways *)

Lemma section_of_split L h :
  section_of L h = (fun '(_, sec, _) => sec) <$> split_section L h.
Proof.
  induction L as [|x L IH]; [done|]. simpl.
  destruct (str_eqb (strip x) h); [done|]. rewrite IH.
  by destruct (split_section L h) as [[[pre sec] post]|].
Qed.

Lemma split_section_spec L h pre sec post :
  split_section L h = Some (pre, sec, post) ->
  L = pre ++ sec ++ post /\ no_heading h pre
  /\ exists hdr body, sec = hdr :: body /\ strip hdr = h
                      /\ no_h2 body /\ until_h2 post = [].
Proof.
  intros H. split; [by apply split_section_app with h|].
  revert pre H. induction L as [|x L IH]; intros pre; [done|]. simpl.
  destruct (str_eqb (strip x) h) eqn:E.
  - intros [= <- <- <-]. split; [constructor|].
    exists x, (until_h2 L). apply str_eqb_true in E.
    repeat split; [done|apply until_h2_no_h2|apply until_h2_from_h2].
  - destruct (split_section L h) as [[[pre' sec'] post']|]; [|done].
    simpl. intros [= <- <- <-]. destruct (IH pre' eq_refl) as [Hpre Hrest].
    split; [|done]. constructor; [|done]. by apply str_eqb_false.
Qed.

Lemma split_section_intro pre hdr body post h :
  no_heading h pre -> strip hdr = h -> no_h2 body -> until_h2 post = [] ->
  split_section (pre ++ (hdr :: body) ++ post) h = Some (pre, hdr :: body, post).
Proof.
  intros Hpre Hh Hb Hp. induction Hpre as [|x pre Hx Hpre IH].
  - simpl. rewrite (proj2 (str_eqb_true _ _) Hh).
    by rewrite until_h2_app_no_h2, from_h2_app_no_h2, Hp, app_nil_r,
      until_nil_from.
  - simpl in IH |- *. rewrite (proj2 (str_eqb_false _ _) Hx). by rewrite IH.
Qed.

Lemma split_section_none L h : split_section L h = None <-> no_heading h L.
Proof.
  induction L as [|x L IH]; simpl.
  - split; [constructor|done].
  - destruct (str_eqb (strip x) h) eqn:E.
    + split; [done|]. intros H. apply Forall_cons in H as [H _].
      by apply str_eqb_true in E.
    + apply str_eqb_false in E. rewrite fmap_None, IH.
      split; [by constructor | by intros [_ H]%Forall_cons].
Qed.

Lemma section_of_none L h : section_of L h = None <-> no_heading h L.
Proof. by rewrite section_of_split, fmap_None, split_section_none. Qed.

Lemma section_of_skip Y B h :
  no_heading h Y -> section_of (Y ++ B) h = section_of B h.
Proof.
  induction 1 as [|y Y Hy HY IH]; [done|]. simpl.
  by rewrite (proj2 (str_eqb_false _ _) Hy).
Qed.

(** *** Putting lines in *)

Lemma filter_none {A} (P : A -> bool) (l : list A) :
  (forall y, y ∈ l -> P y = false) -> List.filter P l = [].
Proof.
  induction l as [|x l IH]; intros H; [done|]. simpl.
  rewrite (H x) by left. apply IH. intros y Hy. apply H. by right.
Qed.

Lemma until_h2_grow A Y B :
  no_h2 Y \/ B = [] ->
  sublist (until_h2 (A ++ B)) (until_h2 (A ++ Y ++ B))
  /\ (forall ln, ln ∈ until_h2 (A ++ Y ++ B) -> ln ∈ until_h2 (A ++ B) \/ ln ∈ Y)
  /\ (forall P : str -> bool, (forall y, y ∈ Y -> P y = false) ->
        List.filter P (until_h2 (A ++ Y ++ B))
        = List.filter P (until_h2 (A ++ B))).
Proof.
  intros HY. induction A as [|a A (IH1 & IH2 & IH3)].
  - simpl. destruct HY as [HY| ->].
    + rewrite until_h2_app_no_h2 by done. split; [by apply sublist_inserts_l|].
      split.
      * intros ln [?|?]%elem_of_app; auto.
      * intros P HP. by rewrite List.filter_app, filter_none.
    + rewrite app_nil_r. simpl. split; [apply sublist_nil_l|]. split.
      * intros ln Hln. right. by apply (sublist_subseteq _ _ (until_h2_sublist Y)).
      * intros P HP. apply filter_none. intros y Hy. apply HP.
        by apply (sublist_subseteq _ _ (until_h2_sublist Y)).
  - simpl. destruct (is_h2 a).
    { split; [done|]. split; [|done]. intros ln H. by apply elem_of_nil in H. }
    split; [by apply sublist_skip|]. split.
    + intros ln [->|Hln]%elem_of_cons; [left; left|].
      destruct (IH2 ln Hln); [left; by right | by right].
    + intros P HP. simpl. by rewrite IH3.
Qed.

(** A section seen before and after lines [Y], none of them its heading
    line, are put in. *)
Lemma section_of_grow L L' Y h :
  grows L L' Y -> no_heading h Y ->
  match section_of L h, section_of L' h with
  | Some sec, Some sec' =>
      sublist sec sec'
      /\ (forall ln, ln ∈ sec' -> ln ∈ sec \/ ln ∈ Y)
      /\ (forall P : str -> bool, (forall y, y ∈ Y -> P y = false) ->
            List.filter P sec' = List.filter P sec)
  | None, None => True
  | _, _ => False
  end.
Proof.
  intros (A & B & -> & -> & HY) Hh. induction A as [|a A IH].
  - simpl. rewrite section_of_skip by done.
    destruct (section_of B h) as [sec|]; [|done]. by repeat split; auto.
  - simpl. destruct (str_eqb (strip a) h); [|done].
    destruct (until_h2_grow A Y B HY) as (H1 & H2 & H3).
    split; [by apply sublist_skip|]. split.
    + intros ln [->|Hln]%elem_of_cons; [left; left|].
      destruct (H2 ln Hln); [left; by right | by right].
    + intros P HP. simpl. by rewrite H3.
Qed.

Lemma grows_sublist L L' Y : grows L L' Y -> sublist L L'.
Proof.
  intros (A & B & -> & -> & _). apply sublist_app; [done|].
  by apply sublist_inserts_l.
Qed.

Lemma grows_elem_of L L' Y ln : grows L L' Y -> ln ∈ L' <-> ln ∈ L \/ ln ∈ Y.
Proof.
  intros (A & B & -> & -> & _). rewrite !elem_of_app. tauto.
Qed.

(** *** The lines the steps put in *)

Lemma known_header_facts h :
  known_header h ->
  strip (H2 ++ h) = H2 ++ h /\ (OPEN ∉ H2 ++ h)
  /\ is_h2 (H2 ++ h) = true /\ scan_relevant (H2 ++ h) = false.
Proof.
  intros [-> | [-> | ->]]; repeat split; try (vm_compute; reflexivity);
    apply (bool_decide_unpack _); vm_compute; exact I.
Qed.

Lemma known_header_inj h h' :
  known_header h -> known_header h' -> H2 ++ h = H2 ++ h' -> h = h'.
Proof. intros _ _ H. by apply app_inv_head in H. Qed.

Lemma link_line_head t : exists r, link_line t = "-"%char :: r.
Proof. by eexists. Qed.

Lemma link_line_strip t : strip (link_line t) = link_line t.
Proof.
  unfold link_line.
  replace ($"- [[" ++ t ++ $"]]")
    with ("-"%char :: ($" [[" ++ t ++ [CLOSE]) ++ [CLOSE])
    by (simpl; by rewrite <- app_assoc).
  by apply strip_fixed.
Qed.

Lemma link_line_no_h2 t : is_h2 (link_line t) = false.
Proof. done. Qed.

Lemma link_line_no_heading t h : strip (link_line t) <> H2 ++ h.
Proof. rewrite link_line_strip. done. Qed.


Lemma leaf_block_lines d s ln :
  ln ∈ leaf_block d s -> ln = DESC_LINE d \/ ln = SRC_LINE s.
Proof.
  unfold leaf_block. fold (DESC_LINE d). fold (SRC_LINE s).
  intros [->|[->|H]%elem_of_cons]%elem_of_cons; auto.
  by apply elem_of_nil in H.
Qed.

Lemma blocks_of_lines ps ln :
  ln ∈ blocks_of ps ->
  exists d s, (d, s) ∈ ps /\ (ln = DESC_LINE d \/ ln = SRC_LINE s).
Proof.
  unfold blocks_of. induction ps as [|[d s] ps IH]; cbn [map concat].
  - intros H. by apply elem_of_nil in H.
  - intros [H|H]%elem_of_app.
    + exists d, s. split; [left|]. by apply leaf_block_lines.
    + destruct (IH H) as (d' & s' & Hin & Hl). exists d', s'.
      split; [by right|done].
Qed.

Lemma desc_line_no_h2 d : is_h2 (DESC_LINE d) = false.
Proof. by rewrite desc_line_shape. Qed.

Lemma src_line_no_h2 s : is_h2 (SRC_LINE s) = false.
Proof. by rewrite src_line_shape. Qed.

Lemma desc_line_no_heading d h : strip (DESC_LINE d) <> H2 ++ h.
Proof. rewrite strip_desc_line, desc_line_shape. done. Qed.

Lemma src_line_no_heading s h : strip (SRC_LINE s) <> H2 ++ h.
Proof. rewrite strip_src_line. done. Qed.

Lemma link_lines_inert (l : list str) h' :
  no_h2 (map link_line l) /\ no_heading (H2 ++ h') (map link_line l).
Proof.
  unfold no_h2, no_heading. rewrite !Forall_forall.
  split; intros y (t & -> & _)%list_elem_of_fmap.
  - apply link_line_no_h2.
  - apply link_line_no_heading.
Qed.

Lemma blocks_inert ps h' :
  no_h2 (blocks_of ps) /\ no_heading (H2 ++ h') (blocks_of ps).
Proof.
  unfold no_h2, no_heading. rewrite !Forall_forall.
  split; intros y (d & s & _ & [-> | ->])%blocks_of_lines.
  - apply desc_line_no_h2.
  - apply src_line_no_h2.
  - apply desc_line_no_heading.
  - apply src_line_no_heading.
Qed.

Lemma new_links_inert L h ts h' :
  no_h2 (new_links L h ts) /\ no_heading (H2 ++ h') (new_links L h ts).
Proof. apply link_lines_inert. Qed.

Lemma new_blocks_inert L ps h' :
  no_h2 (new_blocks L ps) /\ no_heading (H2 ++ h') (new_blocks L ps).
Proof. apply blocks_inert. Qed.

Lemma separator_lines L ln : ln ∈ separator L -> ln = [].
Proof.
  unfold separator. destruct (last L) as [l|].
  - destruct (str_eqb (strip l) []).
    + intros H. by apply elem_of_nil in H.
    + intros [->|H]%elem_of_cons; [done|]. by apply elem_of_nil in H.
  - intros H. by apply elem_of_nil in H.
Qed.

Lemma new_heading_lines L h ln :
  ln ∈ new_heading L h -> ln = [] \/ ln = H2 ++ h.
Proof.
  unfold new_heading. destruct (split_section L (H2 ++ h)).
  - intros H. by apply elem_of_nil in H.
  - intros [H|H]%elem_of_app; [left; by apply separator_lines with L|].
    apply elem_of_cons in H as [->|H]; [by right|].
    apply elem_of_cons in H as [->|H]; [by left|]. by apply elem_of_nil in H.
Qed.

Lemma new_heading_no_heading L h h' :
  known_header h -> h <> h' -> no_heading (H2 ++ h') (new_heading L h).
Proof.
  intros Hk Hne. unfold no_heading. rewrite Forall_forall.
  intros y [-> | ->]%new_heading_lines.
  - done.
  - destruct (known_header_facts h Hk) as (-> & _).
    intros H. by apply app_inv_head in H.
Qed.

(** *** The shape of the two append functions *)

Lemma no_h2_app X Y : no_h2 X -> no_h2 Y -> no_h2 (X ++ Y).
Proof. apply Forall_app_2. Qed.

Lemma no_heading_app h X Y :
  no_heading h X -> no_heading h Y -> no_heading h (X ++ Y).
Proof. apply Forall_app_2. Qed.

Lemma append_missing_links_grows L h ts :
  append_missing_links L h ts = fst (fst (ensured L h))
      ++ ensured_section L h ++ new_links L h ts ++ snd (ensured L h)
  /\ grows L (append_missing_links L h ts) (new_heading L h ++ new_links L h ts).
Proof.
  pose proof (append_missing_links_ensured L h ts) as Ha.
  unfold new_links, ensured_section, new_heading. unfold ensured in *.
  destruct (split_section L (H2 ++ h)) as [[[pre sec] post]|] eqn:E.
  - split; [done|]. rewrite Ha. exists (pre ++ sec), post.
    split; [rewrite <- app_assoc; by apply split_section_app with (H2 ++ h)|].
    split; [by rewrite <- !app_assoc|].
    left. simpl. apply (link_lines_inert _ h).
  - simpl in *. split; [done|]. rewrite Ha. exists L, [].
    split; [by rewrite app_nil_r|]. split; [|by right].
    by rewrite <- !app_assoc.
Qed.

Lemma append_missing_leaf_blocks_grows L ps :
  append_missing_leaf_blocks L ps = fst (fst (ensured L DESC_HEADER))
      ++ ensured_section L DESC_HEADER ++ new_blocks L ps
      ++ snd (ensured L DESC_HEADER)
  /\ grows L (append_missing_leaf_blocks L ps)
           (new_heading L DESC_HEADER ++ new_blocks L ps).
Proof.
  pose proof (append_missing_leaf_blocks_ensured L ps) as Ha.
  unfold new_blocks, ensured_section, new_heading. unfold ensured in *.
  destruct (split_section L (H2 ++ DESC_HEADER)) as [[[pre sec] post]|] eqn:E.
  - split; [done|]. rewrite Ha. exists (pre ++ sec), post.
    split; [rewrite <- app_assoc; by apply split_section_app with (H2 ++ DESC_HEADER)|].
    split; [by rewrite <- !app_assoc|].
    left. simpl. apply (blocks_inert _ DESC_HEADER).
  - simpl in *. split; [done|]. rewrite Ha. exists L, [].
    split; [by rewrite app_nil_r|]. split; [|by right].
    by rewrite <- !app_assoc.
Qed.

(** The section of a step's own header, after the step: the ensured
    section followed by the new lines. *)
Lemma ensured_spec L h :
  known_header h ->
  let '(pre, sec, post) := ensured L h in
  no_heading (H2 ++ h) pre
  /\ exists hdr body, sec = hdr :: body /\ strip hdr = H2 ++ h
                      /\ no_h2 body /\ until_h2 post = [].
Proof.
  intros Hk. unfold ensured.
  destruct (split_section L (H2 ++ h)) as [[[pre sec] post]|] eqn:E.
  - by destruct (split_section_spec _ _ _ _ _ E) as (_ & ? & ?).
  - split.
    + apply no_heading_app; [by apply split_section_none|].
      unfold no_heading. rewrite Forall_forall.
      by intros y ->%separator_lines.
    + exists (H2 ++ h), [ [] ]. destruct (known_header_facts h Hk) as (-> & _).
      repeat split. by repeat constructor.
Qed.

Lemma section_after_step L h X :
  known_header h -> no_h2 X ->
  section_of (fst (fst (ensured L h)) ++ ensured_section L h ++ X
              ++ snd (ensured L h)) (H2 ++ h)
  = Some (ensured_section L h ++ X).
Proof.
  intros Hk HX. pose proof (ensured_spec L h Hk) as Hs.
  unfold ensured_section. destruct (ensured L h) as [[pre sec] post].
  destruct Hs as (Hpre & hdr & body & -> & Hh & Hb & Hp). simpl.
  rewrite section_of_split.
  replace (pre ++ hdr :: body ++ X ++ post)
    with (pre ++ (hdr :: body ++ X) ++ post)
    by (simpl; by rewrite <- app_assoc).
  rewrite (split_section_intro pre hdr (body ++ X) post); try done.
  by apply no_h2_app.
Qed.

End GrowFacts.

(** ** The three append steps, one after the other *)

Module StepFacts.
Import StrFacts SecFacts LinkFacts LeafFacts GrowFacts.

Lemma append_updates_steps L ap ac al :
  append_updates L ap ac al
  = leaf_step (links_step (links_step L PARENTS ap) CHILDREN ac) al.
Proof. reflexivity. Qed.

Lemma links_step_grows L h ts :
  grows L (links_step L h ts) (links_step_added L h ts).
Proof.
  destruct ts as [|t ts].
  - exists L, []. simpl. rewrite !app_nil_r. split; [done|]. split; [done|]. by right.
  - apply append_missing_links_grows.
Qed.

Lemma leaf_step_grows L al : grows L (leaf_step L al) (leaf_step_added L al).
Proof.
  destruct al as [|p al].
  - exists L, []. simpl. rewrite !app_nil_r. split; [done|]. split; [done|]. by right.
  - apply append_missing_leaf_blocks_grows.
Qed.

Lemma links_step_added_lines L h ts ln :
  ln ∈ links_step_added L h ts ->
  ln = [] \/ ln = H2 ++ h \/ exists t, t ∈ ts /\ ln = link_line t.
Proof.
  unfold links_step_added. destruct ts as [|t0 ts].
  { intros H. by apply elem_of_nil in H. }
  intros [H|H]%elem_of_app.
  - apply new_heading_lines in H as [->| ->]; auto.
  - unfold new_links in H. apply list_elem_of_fmap in H as (t & -> & Ht).
    right. right. exists t. split; [|done].
    by apply elem_of_links_to_add in Ht as [Ht _].
Qed.

Lemma leaf_step_added_lines L al ln :
  ln ∈ leaf_step_added L al ->
  ln = [] \/ ln = H2 ++ DESC_HEADER
  \/ exists d s, (d, s) ∈ al /\ (ln = DESC_LINE d \/ ln = SRC_LINE s).
Proof.
  unfold leaf_step_added. destruct al as [|p0 al].
  { intros H. by apply elem_of_nil in H. }
  intros [H|H]%elem_of_app.
  - apply new_heading_lines in H as [->| ->]; auto.
  - unfold new_blocks in H. apply blocks_of_lines in H as (d & s & Hin & Hl).
    right. right. exists d, s. split; [|done].
    by apply (sublist_subseteq _ _ (new_pairs_sublist _ _)) in Hin.
Qed.

Lemma header_line_no_heading h h' :
  known_header h -> h <> h' -> strip (H2 ++ h) <> H2 ++ h'.
Proof.
  intros Hk Hne. destruct (known_header_facts h Hk) as (-> & _).
  intros H. by apply app_inv_head in H.
Qed.

Lemma links_step_added_no_heading L h ts h' :
  known_header h -> h <> h' ->
  no_heading (H2 ++ h') (links_step_added L h ts).
Proof.
  intros Hk Hne. unfold no_heading. rewrite Forall_forall.
  intros y [->|[->|(t & _ & ->)]]%links_step_added_lines.
  - done.
  - by apply header_line_no_heading.
  - apply link_line_no_heading.
Qed.

Lemma leaf_step_added_no_heading L al h' :
  DESC_HEADER <> h' -> no_heading (H2 ++ h') (leaf_step_added L al).
Proof.
  intros Hne. unfold no_heading. rewrite Forall_forall.
  intros y [->|[->|(d & s & _ & [-> | ->])]]%leaf_step_added_lines.
  - done.
  - apply header_line_no_heading; [|done]. right. by right.
  - apply desc_line_no_heading.
  - apply src_line_no_heading.
Qed.


(** *** The targets of a link line *)

Lemma wikilinks_skip_all k s : length s <= k -> wikilinks_from k s = [].
Proof.
  revert k. induction s as [|c s IH]; intros k Hk; [done|]. simpl in Hk.
  destruct k as [|k]; [lia|]. cbn [wikilinks_from]. apply IH. lia.
Qed.

Lemma span_stop p u c r :
  forallb p u = true -> p c = false -> span p (u ++ c :: r) = (u, c :: r).
Proof.
  intros Hu Hc. induction u as [|x u IH]; simpl.
  - by rewrite Hc.
  - simpl in Hu. apply andb_true_iff in Hu as [-> Hu]. by rewrite IH.
Qed.

Lemma wikilink_match_link t :
  forallb target_char t = true ->
  wikilink_match (OPEN :: OPEN :: t ++ [CLOSE; CLOSE])
  = match t with [] => None | _ => Some (t, 2 + length t + 2) end.
Proof.
  intros Ht. unfold wikilink_match. rewrite Ascii.eqb_refl. cbn [andb].
  rewrite (span_stop target_char t CLOSE [CLOSE]) by done.
  by destruct t.
Qed.

Lemma wikilink_targets_link_line t :
  forallb target_char t = true ->
  wikilink_targets (link_line t) = match t with [] => [] | _ => [t] end.
Proof.
  intros Ht. unfold wikilink_targets, link_line.
  change ($"- [[" ++ t ++ $"]]")
    with ("-"%char :: " "%char :: OPEN :: OPEN :: t ++ [CLOSE; CLOSE]).
  cbn [wikilinks_from].
  change (wikilink_match ("-"%char :: " "%char :: OPEN :: OPEN :: t ++ [CLOSE; CLOSE]))
    with (@None (str * nat)).
  change (wikilink_match (" "%char :: OPEN :: OPEN :: t ++ [CLOSE; CLOSE]))
    with (@None (str * nat)).
  cbv iota. rewrite wikilink_match_link by done.
  destruct t as [|c t]; [done|].
  cbv iota beta. f_equal. apply wikilinks_skip_all.
  fold Nat.add. rewrite length_app. simpl. lia.
Qed.


Lemma link_line_has_target t :
  good_title t -> t ∈ links_of [link_line t].
Proof.
  intros (Hne & Hs & Ht). apply elem_of_links_of.
  exists (link_line t), t. split; [left|].
  rewrite wikilink_targets_link_line by done. split; [|done].
  destruct t; [done|left].
Qed.

Lemma links_of_app X Y : links_of (X ++ Y) = links_of X ∪ links_of Y.
Proof.
  apply set_eq. intros t. rewrite elem_of_union, !elem_of_links_of. split.
  - intros (ln & g & [H|H]%elem_of_app & Hg & ->); [left|right]; eauto.
  - intros [(ln & g & H & Hg & ->)|(ln & g & H & Hg & ->)];
      exists ln, g; rewrite elem_of_app; auto.
Qed.

(** *** The scan only sees description and source lines *)




(** *** The section a step works on *)




(** *** A section of another header, across a step *)






Lemma links_kept_grow h M M' Y sec :
  grows M M' Y -> no_heading (H2 ++ h) Y ->
  section_of M (H2 ++ h) = Some sec ->
  exists sec', section_of M' (H2 ++ h) = Some sec'
               /\ links_of sec ⊆ links_of sec'.
Proof.
  intros Hg Hh HM.
  pose proof (section_of_grow M M' Y (H2 ++ h) Hg Hh) as H.
  rewrite HM in H. destruct (section_of M' (H2 ++ h)) as [sec'|]; [|done].
  exists sec'. split; [done|]. destruct H as (Hsub & _).
  apply links_of_mono. intros ln. apply (sublist_subseteq _ _ Hsub).
Qed.




End StepFacts.

(** ** The text written and read again *)

Module TextFacts.
Import StrFacts SecFacts LinkFacts LeafFacts GrowFacts StepFacts.

(** *** [rstrip] of the joined lines *)

Lemma blank_join_lines R : blank (join_lines R) = forallb blank R.
Proof.
  induction R as [|x R IH]; [done|]. destruct R as [|y R].
  - simpl. by rewrite andb_true_r.
  - change (join_lines (x :: y :: R)) with (x ++ LF :: join_lines (y :: R)).
    rewrite blank_app. change (blank (LF :: ?s)) with (blank s).
    rewrite IH. reflexivity.
Qed.



Lemma rstrip_lines_nonblank L :
  rstrip_lines L <> [] -> forallb blank (rstrip_lines L) = false.
Proof.
  induction L as [|x L IH]; [done|]. cbn [rstrip_lines].
  destruct (rstrip_lines L) as [|r rs].
  - destruct (blank x) eqn:E; [done|]. intros _. simpl.
    by rewrite blank_rstrip, E.
  - intros _. change (blank x && forallb blank (r :: rs) = false).
    rewrite IH by done. apply andb_false_r.
Qed.

Lemma join_lines_cons x R :
  R <> [] -> join_lines (x :: R) = x ++ LF :: join_lines R.
Proof. by destruct R. Qed.

Lemma rstrip_join_lines L : rstrip (join_lines L) = join_lines (rstrip_lines L).
Proof.
  induction L as [|x L IH]; [done|]. destruct L as [|y L].
  - simpl. destruct (blank x) eqn:E; [by apply rstrip_blank|done].
  - rewrite join_lines_cons by done.
    change (rstrip_lines (x :: y :: L))
      with (match rstrip_lines (y :: L) with
            | [] => if blank x then [] else [rstrip x]
            | r => x :: r
            end).
    destruct (rstrip_lines (y :: L)) as [|r rs] eqn:E.
    + assert (blank (join_lines (y :: L)) = true) as Hb.
      { apply rstrip_nil_blank. by rewrite IH. }
      rewrite rstrip_app_blank by done.
      destruct (blank x) eqn:Ex; [by apply rstrip_blank|done].
    + assert (blank (join_lines (y :: L)) = false) as Hb.
      { rewrite <- blank_rstrip, IH, blank_join_lines, <- E.
        apply rstrip_lines_nonblank. by rewrite E. }
      rewrite rstrip_app_nonblank.
      2:{ exact Hb. }
      rewrite (join_lines_cons x (r :: rs)) by done. f_equal.
      rewrite rstrip_cons.
      change (blank (LF :: join_lines (y :: L)))
        with (blank (join_lines (y :: L))).
      rewrite Hb. by rewrite IH.
Qed.

Lemma serialize_lines L : serialize L = join_lines (rstrip_lines L) ++ [LF].
Proof. unfold serialize. by rewrite rstrip_join_lines. Qed.



(** *** [splitlines] of what [join_lines] wrote *)

Lemma splitlines_line l s :
  lb_free l -> splitlines (l ++ LF :: s) = l :: splitlines s.
Proof.
  intros Hl. induction Hl as [|c l Hc Hl IH]; [done|].
  cbn [app splitlines]. rewrite Hc, IH. reflexivity.
Qed.

Lemma splitlines_last l :
  lb_free l -> splitlines (l ++ [LF]) = [l].
Proof. intros Hl. by rewrite splitlines_line. Qed.

Lemma splitlines_join_lines R :
  R <> [] -> Forall lb_free R -> splitlines (join_lines R ++ [LF]) = R.
Proof.
  intros Hne HR. induction HR as [|x R Hx HR IH]; [done|].
  destruct R as [|y R].
  - by apply splitlines_last.
  - rewrite join_lines_cons by done. rewrite <- app_assoc.
    change ((LF :: ?a) ++ ?b) with (LF :: (a ++ b)).
    rewrite splitlines_line by done. by rewrite IH.
Qed.

Lemma splitlines_lb_free s : Forall lb_free (splitlines s).
Proof.
  assert (forall n s, length s <= n -> Forall lb_free (splitlines s)) as H.
  { clear s. induction n as [|n IH]; intros s Hs.
    - destruct s; [constructor|simpl in Hs; lia].
    - destruct s as [|c s]; [constructor|]. simpl in Hs.
      cbn [splitlines]. destruct (is_linebreak c) eqn:Hc.
      + constructor; [constructor|].
        destruct (Ascii.eqb c CR); [|apply IH; lia].
        destruct s as [|d s]; [constructor|].
        destruct (Ascii.eqb d LF); apply IH; simpl in *; lia.
      + pose proof (IH s ltac:(lia)) as Hs'.
        destruct (splitlines s) as [|l ls]; [by repeat constructor|].
        apply Forall_cons in Hs' as [Hl Hls].
        constructor; [by constructor|done]. }
  by apply (H (length s)).
Qed.

Lemma rstrip_lb_free x : lb_free x -> lb_free (rstrip x).
Proof.
  intros Hx. destruct (rstrip_decomp x) as (w & Hw & _).
  unfold lb_free in *. rewrite Hw in Hx. by apply Forall_app in Hx as [? _].
Qed.

Lemma rstrip_lines_lb_free L :
  Forall lb_free L -> Forall lb_free (rstrip_lines L).
Proof.
  induction 1 as [|x L Hx HL IH]; [constructor|]. cbn [rstrip_lines].
  destruct (rstrip_lines L) as [|r rs].
  - destruct (blank x); [constructor|]. repeat constructor.
    by apply rstrip_lb_free.
  - by constructor.
Qed.

(** The lines read back from the text that [serialize] wrote. *)
Lemma splitlines_serialize L :
  Forall lb_free L ->
  splitlines (serialize L)
  = match rstrip_lines L with [] => [ [] ] | R => R end.
Proof.
  intros HL. rewrite serialize_lines.
  destruct (rstrip_lines L) as [|r rs] eqn:E; [done|].
  apply splitlines_join_lines; [done|]. rewrite <- E.
  by apply rstrip_lines_lb_free.
Qed.

(** *** Whitespace at the end of a line changes no link *)

















(** *** A section, read again from the text *)








(** *** Requests that change nothing *)









(** *** After a step, its request is settled *)

Lemma links_step_settled L h ts :
  known_header h -> (forall t, t ∈ ts -> good_title t) ->
  links_settled (links_step L h ts) h ts.
Proof.
  intros Hk Hts. destruct ts as [|t0 ts]; [by left|]. right.
  unfold links_step.
  destruct (append_missing_links_grows L h (t0 :: ts)) as [-> _].
  exists (ensured_section L h ++ new_links L h (t0 :: ts)). split.
  { apply section_after_step; [done|]. apply (new_links_inert L h _ h). }
  intros t Ht. rewrite links_of_app. apply elem_of_union.
  destruct (decide (t ∈ links_of (ensured_section L h))) as [?|Hn]; [by left|].
  right. apply elem_of_links_of. exists (link_line t), t.
  destruct (Hts t Ht) as (Hne & Hs & Hc). split; [|split; [|done]].
  - unfold new_links. apply list_elem_of_fmap. exists t. split; [done|].
    by apply elem_of_links_to_add.
  - rewrite wikilink_targets_link_line by done. destruct t; [done|left].
Qed.

Lemma links_settled_grow L L' Y h ts :
  grows L L' Y -> no_heading (H2 ++ h) Y ->
  links_settled L h ts -> links_settled L' h ts.
Proof.
  intros Hg Hh [->|(sec & Hs & Hin)]; [by left|]. right.
  destruct (links_kept_grow h L L' Y sec Hg Hh Hs) as (sec' & Hs' & Hsub).
  exists sec'. split; [done|]. intros t Ht. by apply Hsub, Hin.
Qed.

Lemma leaf_step_settled L al : leaves_settled (leaf_step L al) al.
Proof.
  destruct al as [|p0 al]; [by left|]. right. unfold leaf_step.
  destruct (append_missing_leaf_blocks_grows L (p0 :: al)) as [-> _].
  assert (known_header DESC_HEADER) as Hk by (right; by right).
  exists (ensured_section L DESC_HEADER ++ new_blocks L (p0 :: al)). split.
  { apply section_after_step; [done|]. apply (new_blocks_inert L _ DESC_HEADER). }
  intros p Hp. unfold new_blocks. rewrite keys_of_app_blocks.
  destruct (decide (key_of p = [])) as [?|Hne]; [by left|right].
  apply elem_of_union.
  destruct (new_pairs_complete (keys_of (ensured_section L DESC_HEADER))
              (p0 :: al) p Hp Hne) as [?|?]; [by right|left].
  by apply elem_of_list_to_set.
Qed.

Lemma append_updates_settled L ap ac al :
  (forall t, t ∈ ap -> good_title t) -> (forall t, t ∈ ac -> good_title t) ->
  settled (append_updates L ap ac al) ap ac al.
Proof.
  intros Hap Hac. rewrite append_updates_steps.
  assert (known_header PARENTS) as Kp by (by left).
  assert (known_header CHILDREN) as Kc by (right; by left).
  set (La := links_step L PARENTS ap).
  set (Lb := links_step La CHILDREN ac).
  repeat split.
  - apply links_settled_grow with Lb (leaf_step_added Lb al).
    { apply leaf_step_grows. }
    { by apply leaf_step_added_no_heading. }
    apply links_settled_grow with La (links_step_added La CHILDREN ac).
    { apply links_step_grows. }
    { by apply links_step_added_no_heading. }
    by apply links_step_settled.
  - apply links_settled_grow with Lb (leaf_step_added Lb al).
    { apply leaf_step_grows. }
    { by apply leaf_step_added_no_heading. }
    by apply links_step_settled.
  - apply leaf_step_settled.
Qed.

(** *** No line of the merged note holds a line break *)

Lemma lb_free_app a b : lb_free a -> lb_free b -> lb_free (a ++ b).
Proof. apply Forall_app_2. Qed.

Lemma link_line_lb_free t : lb_free t -> lb_free (link_line t).
Proof.
  intros Ht. unfold link_line.
  apply lb_free_app; [by repeat constructor|].
  apply lb_free_app; [done|by repeat constructor].
Qed.

Lemma desc_line_lb_free d : lb_free d -> lb_free (DESC_LINE d).
Proof.
  intros Hd. apply rstrip_lb_free, lb_free_app; [by repeat constructor|done].
Qed.

Lemma src_line_lb_free s : lb_free s -> lb_free (SRC_LINE s).
Proof.
  intros Hd. apply rstrip_lb_free, lb_free_app; [by repeat constructor|done].
Qed.

Lemma header_lb_free h : known_header h -> lb_free (H2 ++ h).
Proof. intros [-> | [-> | ->]]; by repeat constructor. Qed.

Lemma grows_lb_free L L' Y :
  grows L L' Y -> Forall lb_free L -> Forall lb_free Y -> Forall lb_free L'.
Proof.
  intros Hg HL HY. rewrite Forall_forall in *. intros x Hx.
  apply (grows_elem_of _ _ _ _ Hg) in Hx as [?|?]; auto.
Qed.

Lemma links_step_lb_free L h ts :
  known_header h -> Forall lb_free L -> Forall lb_free ts ->
  Forall lb_free (links_step L h ts).
Proof.
  intros Hk HL Hts.
  apply grows_lb_free with L (links_step_added L h ts); [|done|].
  { apply links_step_grows. }
  apply Forall_forall.
  intros y [->|[->|(t & Ht & ->)]]%links_step_added_lines.
  - constructor.
  - by apply header_lb_free.
  - rewrite Forall_forall in Hts. by apply link_line_lb_free, Hts.
Qed.

Lemma leaf_step_lb_free L al :
  Forall lb_free L -> Forall (fun p => lb_free p.1 /\ lb_free p.2) al ->
  Forall lb_free (leaf_step L al).
Proof.
  intros HL Hal.
  apply grows_lb_free with L (leaf_step_added L al); [|done|].
  { apply leaf_step_grows. }
  apply Forall_forall. rewrite Forall_forall in Hal.
  intros y [->|[->|(d & s & Hin & [-> | ->])]]%leaf_step_added_lines.
  - constructor.
  - apply header_lb_free. right. by right.
  - apply desc_line_lb_free. by apply (Hal _ Hin).
  - apply src_line_lb_free. by apply (Hal _ Hin).
Qed.

Lemma append_updates_lb_free L ap ac al :
  Forall lb_free L -> Forall lb_free ap -> Forall lb_free ac ->
  Forall (fun p => lb_free p.1 /\ lb_free p.2) al ->
  Forall lb_free (append_updates L ap ac al).
Proof.
  intros HL Hap Hac Hal. rewrite append_updates_steps.
  apply leaf_step_lb_free; [|done].
  apply links_step_lb_free; [right; by left| |done].
  apply links_step_lb_free; [by left|done..].
Qed.

Lemma load_lines_lb_free file title :
  (scaffolded file -> lb_free title) -> Forall lb_free (load_lines file title).
Proof.
  intros Ht.
  assert (scaffolded file -> Forall lb_free (create_new_note_lines title)) as Hc.
  { intros Hs. unfold create_new_note_lines.
    constructor; [apply lb_free_app; [by repeat constructor|by apply Ht]|].
    repeat (constructor; [by repeat constructor|]). constructor. }
  destruct file as [raw|]; [|by apply Hc]. unfold load_lines.
  pose proof (splitlines_lb_free raw) as Hr.
  destruct (splitlines raw) as [|l ls] eqn:E; [by apply Hc|done].
Qed.

(** *** The lines the second run starts from *)




End TextFacts.

(** ** A larger request against the same note *)

Module MonoFacts.
Import StrFacts SecFacts LinkFacts LeafFacts GrowFacts StepFacts.









Lemma same_found_trans h L M N :
  same_found h L M -> same_found h M N -> same_found h L N.
Proof. unfold same_found. tauto. Qed.

Lemma same_found_sym h L M : same_found h L M -> same_found h M L.
Proof. unfold same_found. tauto. Qed.






End MonoFacts.

Import StrFacts SecFacts LinkFacts.

Module TemplateFacts.

Lemma splitlines_nil raw : splitlines raw = [] <-> raw = [].
Proof.
  split; [|by intros ->]. destruct raw as [|c s]; [done|]. simpl.
  destruct (is_linebreak c); [done|]. by destruct (splitlines s).
Qed.

(** The title line of the template is no level-2 heading. *)
Lemma title_line_no_heading title header :
  str_eqb (strip ($"# " ++ title)) (H2 ++ header) = false.
Proof.
  apply str_eqb_false. unfold strip.
  change ($"# " ++ title) with ("#"%char :: " "%char :: title).
  rewrite rstrip_cons. cbn [blank forallb]. change (is_space "#") with false.
  cbn [andb]. rewrite lstrip_nonspace by done.
  rewrite rstrip_cons. by destruct (blank (" "%char :: title)).
Qed.

Lemma find_section_range_title title rest header :
  find_section_range (($"# " ++ title) :: rest) header
  = (fun '(s, e) => (S s, S e)) <$> find_section_range rest header.
Proof.
  unfold find_section_range. cbn [find_start].
  rewrite title_line_no_heading.
  destruct (find_start rest (H2 ++ header)) as [n|]; [|done].
  cbn [fmap option_fmap option_map]. do 2 f_equal.
Qed.

Lemma template_parent title :
  append_missing_links (create_new_note_lines title) PARENTS [$"Animal"]
  = [ $"# " ++ title; []; $"## Parents"; []; $"- [[Animal]]";
      $"## Children"; []; $"## Description and source"; [] ].
Proof.
  pose proof (append_missing_links_ensured
                (create_new_note_lines title) PARENTS [$"Animal"]) as H.
  unfold ensured in H.
  change (create_new_note_lines title)
    with (($"# " ++ title) :: template_rest) in H.
  assert (Hcons : forall h,
    split_section (($"# " ++ title) :: template_rest) (H2 ++ h)
    = (fun '(pre, sec, post) => (($"# " ++ title) :: pre, sec, post))
        <$> split_section template_rest (H2 ++ h)).
  { intros h. change (split_section (($"# " ++ title) :: template_rest) (H2 ++ h))
      with (if str_eqb (strip ($"# " ++ title)) (H2 ++ h)
            then Some ([], ($"# " ++ title) :: until_h2 template_rest,
                       from_h2 template_rest)
            else (fun '(pre, sec, post) => (($"# " ++ title) :: pre, sec, post))
                   <$> split_section template_rest (H2 ++ h)).
    by rewrite title_line_no_heading. }
  rewrite Hcons in H.
  assert (split_section template_rest (H2 ++ PARENTS)
          = Some ([ [] ], [H2 ++ PARENTS; []],
                  [H2 ++ CHILDREN; []; H2 ++ DESC_HEADER; [] ])) as Hs
    by (vm_compute; reflexivity).
  rewrite Hs in H. cbn [fmap option_fmap option_map] in H.
  assert (links_to_add (links_of [H2 ++ PARENTS; []]) [$"Animal"] = [$"Animal"])
    as Hl by (vm_compute; reflexivity).
  rewrite Hl in H. exact H.
Qed.

End TemplateFacts.

(** C9. A note file that is missing or has no line makes the merger start
    from the template: the heading "# title", then the empty sections
    "Parents", "Children" and "Description and source".  Merging such a
    note with the one parent "Animal", no child and no leaf pair gives a
    "Parents" section whose only non-blank body line is "- [[Animal]]", and
    "Children" and "Description and source" sections without a non-blank
    line; the function is total, it has no failing case. *)
Theorem empty_note_starts_from_template :
  (forall title, load_lines None title = create_new_note_lines title)
  /\ (forall raw title, splitlines raw = [] ->
        load_lines (Some raw) title = create_new_note_lines title)
  /\ (forall raw, splitlines raw = [] <-> raw = [])
  /\ (forall title,
        create_new_note_lines title
        = [ $"# " ++ title; $""; $"## Parents"; $""; $"## Children"; $"";
            $"## Description and source"; $"" ])
  /\ forall title,
      let out := append_updates (load_lines None title) [$"Animal"] [] [] in
      let non_blank := filter (fun ln : str => strip ln <> []) in
      out = [ $"# " ++ title; $""; $"## Parents"; $""; $"- [[Animal]]";
              $"## Children"; $""; $"## Description and source"; $"" ]
      /\ find_section_range out PARENTS = Some (2, 5)
      /\ non_blank (slice out 3 5) = [ $"- [[Animal]]" ]
      /\ find_section_range out CHILDREN = Some (5, 7)
      /\ non_blank (slice out 6 7) = []
      /\ find_section_range out DESC_HEADER = Some (7, 9)
      /\ non_blank (slice out 8 9) = []
      /\ update_note_file_append_only None title [$"Animal"] [] []
         = $"# " ++ title ++ $"

## Parents

- [[Animal]]
## Children

## Description and source
"
      /\ update_note_file_append_only (Some []) title [$"Animal"] [] []
         = update_note_file_append_only None title [$"Animal"] [] [].
Proof.
  split; [done|]. split; [by intros raw title H; simpl; rewrite H|].
  split; [apply TemplateFacts.splitlines_nil|]. split; [done|].
  intros title out non_blank.
  assert (Hout : out = [ $"# " ++ title; $""; $"## Parents"; $"";
                         $"- [[Animal]]"; $"## Children"; $"";
                         $"## Description and source"; $"" ]).
  { subst out. unfold append_updates, load_lines.
    apply TemplateFacts.template_parent. }
  split; [done|].
  rewrite Hout, !TemplateFacts.find_section_range_title.
  do 6 (split; [vm_compute; reflexivity|]).
  split; [|done].
  unfold update_note_file_append_only. fold out. rewrite Hout.
  unfold serialize.
  set (rest := [ $""; $"## Parents"; $""; $"- [[Animal]]"; $"## Children";
                 $""; $"## Description and source"; $"" ]).
  change (join_lines (($"# " ++ title) :: rest))
    with (($"# " ++ title) ++ LF :: join_lines rest).
  rewrite (rstrip_app_nonblank ($"# " ++ title) (LF :: join_lines rest))
    by (vm_compute; reflexivity).
  rewrite <- !app_assoc. do 2 f_equal.
Qed.

Import StrFacts SecFacts LinkFacts.



Import StrFacts SecFacts LeafFacts.


Import StrFacts SecFacts LeafFacts.

(** C10. [normalize_leaf_pair] joins the two fields by a newline and
    collapses whitespace, so the key keeps only the sequence of words of
    description followed by source: pairs that cut one word sequence at
    different places, as ("a b", "c") and ("a", "b c"), have the same key,
    and merging both appends one block only. *)
Theorem leaf_key_ignores_field_boundary :
  (forall d1 s1 d2 s2 : str,
      words d1 ++ words s1
      = words d2 ++ words s2 ->
      normalize_leaf_pair d1 s1 = normalize_leaf_pair d2 s2)
  /\ ($"a b", $"c") <> ($"a", $"b c")
  /\ normalize_leaf_pair $"a b" $"c" = normalize_leaf_pair $"a" $"b c"
  /\ (forall lines,
        append_missing_leaf_blocks lines [($"a b", $"c"); ($"a", $"b c")]
        = append_missing_leaf_blocks lines [($"a b", $"c")])
  /\ update_note_file_append_only None $"T" [] []
       [($"a b", $"c"); ($"a", $"b c")]
     = $"# T

## Parents

## Children

## Description and source

- **Description:** a b
  **Source:** c
".
Proof.
  split.
  { intros d1 s1 d2 s2 H. by rewrite !normalize_leaf_pair_words, H. }
  split; [done|].
  split; [vm_compute; reflexivity|].
  split; [intros lines; apply same_key_one_block; vm_compute; reflexivity|].
  vm_compute; reflexivity.
Qed.

(** C4. The note ["## Parents\n ## Children\n"], whose Children heading is
    indented: [find_section_range] finds the start of a section by the
    trimmed line, the end by [startswith("## ")] on the untrimmed line.
    The Parents section therefore runs over the Children heading to the end
    of the note, and the parent link to "X" is written at index 2, inside
    the range (1, 3) that the same function gives for the Children section
    of the result. *)
Theorem parent_link_lands_in_indented_children_section :
  let doc := $"## Parents" ++ [LF] ++ $" ## Children" ++ [LF] in
  let out := splitlines
               (update_note_file_append_only (Some doc) $"T" [$"X"] [] []) in
  find_section_range (splitlines doc) PARENTS = Some (0, 2)
  /\ find_section_range (splitlines doc) CHILDREN = Some (1, 2)
  /\ out = [$"## Parents"; $" ## Children"; $"- [[X]]"]
  /\ find_section_range out CHILDREN = Some (1, 3)
  /\ slice out 2 3 = [link_line $"X"]
  /\ wikilink_targets $" ## Children" = [].
Proof. vm_compute. repeat split. Qed.

Import StrFacts SecFacts LinkFacts LeafFacts GrowFacts StepFacts TextFacts.

(** The note ["# T\nsome note  "], merged with an empty request: the line
    "some note  " of the input is no line of the output, which holds
    "some note" in its place. *)
Lemma trailing_whitespace_of_last_line_is_lost :
  splitlines ($"# T" ++ [LF] ++ $"some note  ") = [$"# T"; $"some note  "]
  /\ splitlines (update_note_file_append_only
                   (Some ($"# T" ++ [LF] ++ $"some note  ")) $"T" [] [] [])
     = [$"# T"; $"some note"]
  /\ $"some note  " <> $"some note".
Proof. vm_compute. repeat split. discriminate. Qed.

(** C2, amended. The lines the merger starts from are kept, unmodified and
    in their order, in the list of lines it builds: new lines are only put
    in between or after them. The text written is this list joined by
    newlines, without the blank lines at its end and without the whitespace
    at the end of its last other line, followed by one newline; when no
    line break is written into a line, these are the lines of the output. *)
Theorem merged_lines_keep_input_lines file title ap ac al :
  let L0 := load_lines file title in
  let L1 := append_updates L0 ap ac al in
  sublist L0 L1
  /\ update_note_file_append_only file title ap ac al
     = join_lines (rstrip_lines L1) ++ [LF]
  /\ ((scaffolded file -> lb_free title) ->
      Forall lb_free ap -> Forall lb_free ac ->
      Forall (fun p => lb_free p.1 /\ lb_free p.2) al ->
      splitlines (update_note_file_append_only file title ap ac al)
      = match rstrip_lines L1 with [] => [ [] ] | R => R end).
Proof.
  intros L0 L1. split; [|split].
  - unfold L1. rewrite append_updates_steps.
    etrans; [|apply (grows_sublist _ _ _ (leaf_step_grows _ al))].
    etrans; [|apply (grows_sublist _ _ _ (links_step_grows _ CHILDREN ac))].
    apply (grows_sublist _ _ _ (links_step_grows _ PARENTS ap)).
  - apply serialize_lines.
  - intros Ht Hap Hac Hal. apply splitlines_serialize.
    apply append_updates_lb_free; [|done..]. by apply load_lines_lb_free.
Qed.

Import StrFacts SecFacts LinkFacts LeafFacts GrowFacts StepFacts MonoFacts.




Import StrFacts SecFacts LinkFacts LeafFacts GrowFacts StepFacts TextFacts.




(** ** Column letters and indexes *)

Module ColFacts.
Import StrFacts.
Local Open Scope Z_scope.

Lemma ord_chr k : 0 <= k < 256 -> ord (chr k) = k.
Proof.
  intros Hk. unfold ord, chr, code.
  rewrite nat_ascii_embedding by lia. lia.
Qed.

Lemma chr_ord c : chr (ord c) = c.
Proof. unfold ord, chr, code. by rewrite Nat2Z.id, ascii_nat_embedding. Qed.

Lemma is_AZ_spec n : is_AZ n = true <-> 65 <= n <= 90.
Proof. unfold is_AZ. rewrite andb_true_iff, !Z.leb_le. tauto. Qed.

Lemma number_of_snoc ls d : number_of (ls ++ [d]) = number_of ls * 26 + (d - 64).
Proof. unfold number_of. rewrite foldl_snoc. lia. Qed.

Lemma number_of_rev_bound ls :
  Forall (fun d => 65 <= d <= 90) ls -> Z.of_nat (length ls) <= number_of (rev ls).
Proof.
  induction 1 as [|d ls Hd Hls IH]; [done|].
  cbn [rev length]. rewrite number_of_snoc. lia.
Qed.

(** The loop gives the letters of its number, and does not run out of
    rounds. *)
Lemma letters_loop_number fuel n :
  0 <= n -> (Z.to_nat n <= fuel)%nat ->
  number_of (map ord (rev (letters_loop fuel n))) = n
  /\ Forall (fun d => 65 <= d <= 90) (map ord (letters_loop fuel n)).
Proof.
  revert n. induction fuel as [|fuel IH]; intros n Hn Hf.
  - assert (n = 0) as -> by lia. by split.
  - cbn [letters_loop]. destruct (Z.eqb_spec n 0) as [->|Hne]; [by split|].
    pose proof (Z.mod_pos_bound (n - 1) 26 ltac:(lia)) as Hm.
    pose proof (Z.div_mod (n - 1) 26 ltac:(lia)) as Hd.
    assert (0 <= (n - 1) / 26) as Hq by (apply Z.div_pos; lia).
    assert ((n - 1) / 26 < n) as Hlt.
    { destruct (Z.eq_dec n 1) as [->|]; [done|].
      assert ((n - 1) / 26 < n - 1); [|lia].
      apply Z.div_lt; lia. }
    destruct (IH ((n - 1) / 26) Hq ltac:(lia)) as [IH1 IH2].
    cbn [rev map]. rewrite map_app. cbn [map].
    rewrite number_of_snoc, IH1.
    rewrite ord_chr by lia. split; [lia|].
    constructor; [lia|done].
Qed.

Lemma letters_loop_of_number ls fuel :
  Forall (fun d => 65 <= d <= 90) ls -> (length ls <= fuel)%nat ->
  letters_loop fuel (number_of (rev ls)) = map chr ls.
Proof.
  intros Hls. revert fuel. induction Hls as [|d ls Hd Hls IH]; intros fuel Hf.
  - by destruct fuel.
  - destruct fuel as [|fuel]; [simpl in Hf; lia|].
    cbn [rev]. rewrite number_of_snoc. cbn [letters_loop].
    pose proof (number_of_rev_bound ls Hls) as Hb.
    destruct (Z.eqb_spec (number_of (rev ls) * 26 + (d - 64)) 0) as [?|_]; [lia|].
    replace (number_of (rev ls) * 26 + (d - 64) - 1)
      with (d - 65 + number_of (rev ls) * 26) by lia.
    rewrite Z.mod_add, Z.div_add by lia.
    rewrite Z.mod_small, Z.div_small by lia.
    cbn [map]. f_equal; [f_equal; lia|].
    rewrite Z.add_0_l. apply IH. simpl in Hf. lia.
Qed.

(** *** Strings of capital letters *)

Lemma is_AZ_not_space c : is_AZ (ord c) = true -> is_space c = false.
Proof.
  intros H. destruct c as [[] [] [] [] [] [] [] []]; vm_compute in H |- *;
    congruence.
Qed.

Lemma upper_char_AZ c : is_AZ (ord c) = true -> upper_char c = [ord c].
Proof.
  intros H. destruct c as [[] [] [] [] [] [] [] []]; vm_compute in H |- *;
    congruence.
Qed.



Lemma no_space_rstrip s :
  forallb (fun c => negb (is_space c)) s = true -> rstrip s = s.
Proof.
  induction s as [|c s IH]; [done|]. simpl.
  intros [Hc Hs]%andb_true_iff. rewrite (IH Hs).
  destruct s; [|done]. by destruct (is_space c).
Qed.

Lemma no_space_strip s :
  forallb (fun c => negb (is_space c)) s = true -> strip s = s.
Proof.
  intros H. unfold strip. rewrite no_space_rstrip by done.
  destruct s as [|c s]; [done|]. simpl in *.
  apply andb_true_iff in H as [Hc _]. by destruct (is_space c).
Qed.

Lemma capitals_normal s :
  forallb (fun c => is_AZ (ord c)) s = true ->
  strip s = s /\ upper s = map ord s.
Proof.
  intros H. split.
  - apply no_space_strip. rewrite forallb_forall in *. intros c Hc.
    by rewrite is_AZ_not_space by auto.
  - unfold upper. induction s as [|c s IH]; [done|]. simpl in *.
    apply andb_true_iff in H as [Hc Hs]. by rewrite upper_char_AZ, IH.
Qed.

Lemma forallb_AZ_chr ls :
  forallb is_AZ ls = true ->
  forallb (fun c => is_AZ (ord c)) (map chr ls) = true
  /\ map ord (map chr ls) = ls.
Proof.
  induction ls as [|d ls IH]; [done|]. simpl.
  intros [Hd Hls]%andb_true_iff. destruct (IH Hls) as [IH1 IH2].
  apply is_AZ_spec in Hd as Hd'.
  rewrite ord_chr by lia. rewrite Hd, IH1, IH2. done.
Qed.

Lemma letters_only_spec ls :
  letters_only ls = true <-> ls <> [] /\ forallb is_AZ ls = true.
Proof.
  destruct ls as [|d ls].
  - split; [done|]. by intros [? _].
  - change (letters_only (d :: ls)) with (forallb is_AZ (d :: ls)).
    split; [by intros ->|]. by intros [_ ?].
Qed.

Lemma forallb_AZ_bounds ls :
  forallb is_AZ ls = true <-> Forall (fun d => 65 <= d <= 90) ls.
Proof.
  induction ls as [|d ls IH]; simpl; [split; [constructor|done]|].
  rewrite andb_true_iff, is_AZ_spec, IH, Forall_cons. tauto.
Qed.

(** The index of a column of capital letters. *)
Lemma col_letter_to_index_capitals ls :
  letters_only ls = true ->
  col_letter_to_index (map chr ls) = Some (number_of ls - 1).
Proof.
  intros H. apply letters_only_spec in H as H'. destruct H' as [Hne Hls].
  destruct (forallb_AZ_chr ls Hls) as [H1 H2].
  destruct (capitals_normal _ H1) as [H3 H4].
  unfold col_letter_to_index. cbv zeta. rewrite H3, H4, H2, H. done.
Qed.

Lemma number_of_pos ls :
  letters_only ls = true -> 1 <= number_of ls.
Proof.
  intros [Hne Hls]%letters_only_spec. apply forallb_AZ_bounds in Hls.
  pose proof (number_of_rev_bound (rev ls)) as H.
  rewrite rev_involutive, length_rev in H.
  specialize (H ltac:(by apply Forall_rev)).
  destruct ls; [done|]. simpl in H. lia.
Qed.

Lemma col_letter_to_index_some col i :
  col_letter_to_index col = Some i <->
  letters_only (upper (strip col)) = true
  /\ i = number_of (upper (strip col)) - 1.
Proof.
  unfold col_letter_to_index. cbv zeta.
  destruct (letters_only (upper (strip col))); [|split; [done|by intros [? _]]].
  split; [intros [= <-]; done|]. by intros [_ ->].
Qed.

Lemma index_to_col_letter_number ls :
  letters_only ls = true ->
  index_to_col_letter (number_of ls - 1) = Some (map chr ls).
Proof.
  intros H. pose proof (number_of_pos ls H) as Hp.
  apply letters_only_spec in H as [Hne Hls]. apply forallb_AZ_bounds in Hls.
  unfold index_to_col_letter.
  destruct (Z.ltb_spec (number_of ls - 1) 0) as [?|_]; [lia|].
  replace (number_of ls - 1 + 1) with (number_of (rev (rev ls)))
    by (rewrite rev_involutive; lia).
  rewrite letters_loop_of_number.
  - by rewrite <- map_rev, rev_involutive.
  - by apply Forall_rev.
  - pose proof (number_of_rev_bound (rev ls) ltac:(by apply Forall_rev)). lia.
Qed.



End ColFacts.

(** X1. [index_to_col_letter] on an index that is not negative: the loop
    ends (more rounds give the same letters), the result is a non-empty
    string of capital letters, and [col_letter_to_index] gives the index
    back. *)
Theorem index_to_col_letter_round_trip (i : Z) :
  (0 <= i)%Z ->
  exists s, index_to_col_letter i = Some s
            /\ s <> []
            /\ forallb (fun c => is_AZ (ord c)) s = true
            /\ col_letter_to_index s = Some i
            /\ forall fuel, (Z.to_nat (i + 1) <= fuel)%nat ->
                 rev (letters_loop fuel (i + 1)) = s.
Proof.
  intros Hi. unfold index_to_col_letter.
  destruct (Z.ltb_spec i 0) as [?|_]; [lia|].
  assert (forall fuel, (Z.to_nat (i + 1) <= fuel)%nat ->
            letters_only (map ord (rev (letters_loop fuel (i + 1)))) = true
            /\ number_of (map ord (rev (letters_loop fuel (i + 1)))) = (i + 1)%Z)
    as Hloop.
  { intros fuel Hf.
    destruct (ColFacts.letters_loop_number fuel (i + 1) ltac:(lia) Hf) as [Hn Hb].
    split; [|done]. apply ColFacts.letters_only_spec. split.
    - intros E. rewrite E in Hn. unfold number_of in Hn. simpl in Hn. lia.
    - apply ColFacts.forallb_AZ_bounds. rewrite map_rev. by apply Forall_rev. }
  assert (forall fuel, (Z.to_nat (i + 1) <= fuel)%nat ->
            rev (letters_loop fuel (i + 1))
            = rev (letters_loop (Z.to_nat (i + 1)) (i + 1))) as Hfuel.
  { intros fuel Hf.
    destruct (Hloop fuel Hf) as [H1 H2].
    destruct (Hloop (Z.to_nat (i + 1)) ltac:(lia)) as [H3 H4].
    pose proof (ColFacts.index_to_col_letter_number _ H1) as E1.
    pose proof (ColFacts.index_to_col_letter_number _ H3) as E2.
    rewrite H2 in E1. rewrite H4 in E2. rewrite E1 in E2.
    injection E2 as E2.
    rewrite !map_map in E2.
    rewrite !(map_ext _ id (fun c => ColFacts.chr_ord c)), !map_id in E2.
    done. }
  eexists. split; [done|].
  destruct (Hloop (Z.to_nat (i + 1)) ltac:(lia)) as [H1 H2].
  apply ColFacts.letters_only_spec in H1 as H1'. destruct H1' as [Hne Hall].
  split; [|split; [|split]].
  - intros E. by rewrite E in Hne.
  - rewrite forallb_forall in Hall. apply forallb_forall. intros c Hc.
    apply Hall. by apply in_map.
  - pose proof (ColFacts.col_letter_to_index_capitals _ H1) as E.
    rewrite map_map, (map_ext _ id (fun c => ColFacts.chr_ord c)), map_id in E.
    rewrite E, H2. f_equal. lia.
  - exact Hfuel.
Qed.

Lemma index_to_col_letter_round_trip_witness :
  exists s, index_to_col_letter 27 = Some s
            /\ s <> []
            /\ forallb (fun c => is_AZ (ord c)) s = true
            /\ col_letter_to_index s = Some 27%Z
            /\ forall fuel, (Z.to_nat (27 + 1) <= fuel)%nat ->
                 rev (letters_loop fuel (27 + 1)) = s.
Proof. apply (index_to_col_letter_round_trip 27). lia. Defined.

(** X2. A column that [col_letter_to_index] accepts: the index is not
    negative, and [index_to_col_letter] gives back the column as it was
    read, trimmed and in capital letters; this string has the same index. *)
Theorem col_letter_to_index_round_trip (col : str) (i : Z) :
  col_letter_to_index col = Some i ->
  (0 <= i)%Z
  /\ exists s, index_to_col_letter i = Some s
               /\ map ord s = upper (strip col)
               /\ col_letter_to_index s = Some i.
Proof.
  intros [Hl ->]%ColFacts.col_letter_to_index_some.
  pose proof (ColFacts.number_of_pos _ Hl) as Hp. split; [lia|].
  exists (map chr (upper (strip col))).
  split; [by apply ColFacts.index_to_col_letter_number|].
  apply ColFacts.letters_only_spec in Hl as Hl'. destruct Hl' as [_ Hall].
  split; [by apply ColFacts.forallb_AZ_chr|].
  by apply ColFacts.col_letter_to_index_capitals.
Qed.

Lemma col_letter_to_index_round_trip_witness :
  (0 <= 26)%Z
  /\ exists s, index_to_col_letter 26 = Some s
               /\ map ord s = upper (strip $" aa ")
               /\ col_letter_to_index s = Some 26%Z.
Proof.
  apply (col_letter_to_index_round_trip $" aa " 26). vm_compute. reflexivity.
Defined.


(** X4. [ask_col] reads answers until one is a column: the answers before
    it are all columns that [col_letter_to_index] refuses, the answer
    returned is that answer trimmed and in capital letters, and
    [col_letter_to_index] accepts it with the index of the answer. When
    no answer is a column, all lines are read and [input] fails. *)
Theorem ask_col_returns_first_column (inputs : list str) :
  match ask_col inputs with
  | Some (c, rest) =>
      exists skipped a,
        inputs = skipped ++ a :: rest
        /\ Forall (fun x => col_letter_to_index x = None) skipped
        /\ map ord c = upper (strip a)
        /\ is_Some (col_letter_to_index c)
        /\ col_letter_to_index c = col_letter_to_index a
  | None => Forall (fun x => col_letter_to_index x = None) inputs
  end.
Proof.
  induction inputs as [|a inputs IH]; [constructor|].
  cbn [ask_col]. cbv zeta.
  destruct (letters_only (upper (strip a))) eqn:E.
  - exists [], a. split; [done|]. split; [constructor|].
    apply ColFacts.letters_only_spec in E as E'. destruct E' as [_ Hall].
    split; [by apply ColFacts.forallb_AZ_chr|].
    rewrite (ColFacts.col_letter_to_index_capitals _ E).
    split; [by eexists|]. unfold col_letter_to_index. cbv zeta. by rewrite E.
  - assert (col_letter_to_index a = None) as Ha.
    { unfold col_letter_to_index. cbv zeta. by rewrite E. }
    destruct (ask_col inputs) as [[c rest]|].
    + destruct IH as (skipped & b & -> & Hs & Hrest).
      exists (a :: skipped), b. split; [done|]. split; [by constructor|done].
    + by constructor.
Qed.

(** ** File names *)

Module NameFacts.
Import StrFacts LeafFacts.

(** *** [rstrip_chars] *)

Lemma rstrip_chars_decomp cs s :
  exists w, s = rstrip_chars cs s ++ w /\ Forall (fun c => c ∈ cs) w.
Proof.
  induction s as [|c s (w & Hs & Hw)]; [by exists []|]. cbn [rstrip_chars].
  destruct (rstrip_chars cs s) as [|r rs] eqn:E.
  - simpl in Hs. subst w. case_bool_decide.
    + exists (c :: s). split; [done|]. by constructor.
    + exists s. by split.
  - exists w. split; [|done]. rewrite Hs at 1. done.
Qed.

Lemma rstrip_chars_last cs s m d :
  rstrip_chars cs s = m ++ [d] -> d ∉ cs.
Proof.
  revert m. induction s as [|c s IH]; intros m; [by destruct m|].
  cbn [rstrip_chars]. destruct (rstrip_chars cs s) as [|r rs] eqn:E.
  - case_bool_decide; [by destruct m|].
    destruct m as [|? [|? ?]]; [|done..]. by intros [= <-].
  - destruct m as [|x m].
    + intros H. by injection H.
    + intros [= _ Hm]. by apply (IH m).
Qed.

Lemma rstrip_chars_all cs s :
  Forall (fun c => c ∈ cs) s -> rstrip_chars cs s = [].
Proof.
  induction 1 as [|c s Hc Hs IH]; [done|]. cbn [rstrip_chars].
  rewrite IH. by rewrite bool_decide_true.
Qed.

Lemma rstrip_chars_snoc cs m d :
  d ∉ cs -> rstrip_chars cs (m ++ [d]) = m ++ [d].
Proof.
  intros Hd. induction m as [|c m IH].
  - simpl. by rewrite bool_decide_false.
  - cbn [app rstrip_chars]. rewrite IH. by destruct m.
Qed.

Lemma snoc_or_nil {A} (l : list A) : l = [] \/ exists m d, l = m ++ [d].
Proof.
  destruct l as [|x l] using rev_ind; [by left|right; eauto].
Qed.

(** *** Whitespace runs *)

Lemma collapse_length b s : length (collapse_ws b s) <= length s.
Proof.
  revert b. induction s as [|c s IH]; intros b; [done|]. simpl.
  destruct (is_space c); [destruct b|]; simpl;
    [specialize (IH true)|specialize (IH true)|specialize (IH false)]; lia.
Qed.

Lemma collapse_prefix b a w :
  collapse_ws b (a ++ w) = a ++ w -> collapse_ws b a = a.
Proof.
  revert b. induction a as [|c a IH]; intros b; [done|].
  cbn [app collapse_ws]. destruct (is_space c).
  - destruct b.
    + intros E. pose proof (collapse_length true (a ++ w)) as Hl.
      rewrite E in Hl. simpl in Hl. lia.
    + intros [= <- E]. by rewrite (IH true E).
  - intros [= E]. by rewrite (IH false E).
Qed.

Lemma collapse_fixed_spaces b s c :
  collapse_ws b s = s -> c ∈ s -> is_space c = true -> c = " "%char.
Proof.
  revert b. induction s as [|x s IH]; intros b E Hc Hsp.
  { by apply elem_of_nil in Hc. }
  cbn [collapse_ws] in E. destruct (is_space x) eqn:Hx.
  - destruct b.
    + pose proof (collapse_length true s) as Hl. rewrite E in Hl.
      simpl in Hl. lia.
    + injection E as <- E. apply elem_of_cons in Hc as [->|Hc]; [done|].
      by apply (IH true).
  - injection E as E. apply elem_of_cons in Hc as [->|Hc]; [congruence|].
    by apply (IH false).
Qed.

Lemma collapse_nospace b w :
  forallb nonspace w = true -> collapse_ws b w = w.
Proof.
  revert b. induction w as [|c w IH]; intros b; [done|]. simpl.
  intros [Hc Hw]%andb_true_iff. unfold nonspace in Hc.
  destruct (is_space c); [done|]. by rewrite IH.
Qed.

Lemma collapse_app_nospace b c w s :
  forallb nonspace (c :: w) = true ->
  collapse_ws b ((c :: w) ++ s) = (c :: w) ++ collapse_ws false s.
Proof.
  revert b c. induction w as [|d w IH]; intros b c.
  - simpl. rewrite andb_true_r. unfold nonspace. by destruct (is_space c).
  - intros H. change (forallb nonspace (c :: d :: w))
      with (nonspace c && forallb nonspace (d :: w)) in H.
    apply andb_true_iff in H as [Hc Hw].
    change ((c :: d :: w) ++ s) with (c :: ((d :: w) ++ s)).
    cbn [collapse_ws]. unfold nonspace in Hc.
    destruct (is_space c); [done|]. by rewrite (IH false d Hw).
Qed.

Lemma words_proper s : Forall proper (words s).
Proof.
  induction s as [|c s IH]; [constructor|]. cbn [words].
  destruct (is_space c) eqn:Hc; [done|].
  assert (nonspace c = true) as Hn by (unfold nonspace; by rewrite Hc).
  destruct s as [|d s].
  { repeat constructor; [done|]. simpl. by rewrite Hn. }
  destruct (is_space d) eqn:Hd.
  - constructor; [|done]. split; [done|]. simpl. by rewrite Hn.
  - destruct (words (d :: s)) as [|w ws].
    + repeat constructor; [done|]. simpl. by rewrite Hn.
    + apply Forall_cons in IH as [[Hw1 Hw2] Hws].
      constructor; [|done]. split; [done|]. simpl. by rewrite Hn.
Qed.

Lemma collapse_unwords b ws :
  Forall proper ws -> collapse_ws b (unwords ws) = unwords ws.
Proof.
  intros H. revert b. induction H as [|w ws [Hne Hw] Hws IH]; intros b; [done|].
  destruct ws as [|w2 ws].
  - by apply collapse_nospace.
  - rewrite unwords_cons. destruct w as [|c w]; [done|].
    rewrite collapse_app_nospace by done. f_equal.
    cbn [collapse_ws]. change (is_space " ") with true. cbv iota.
    by rewrite IH.
Qed.

Lemma collapse_elem b s c :
  c ∈ collapse_ws b s -> c = " "%char \/ c ∈ s.
Proof.
  revert b. induction s as [|x s IH]; intros b; [by intros ?%elem_of_nil|].
  cbn [collapse_ws]. destruct (is_space x); [destruct b|].
  - intros [?|?]%IH; [by left|right; by right].
  - intros [->|[?|?]%IH]%elem_of_cons; [by left|by left|right; by right].
  - intros [->|[?|?]%IH]%elem_of_cons; [right; by left|by left|right; by right].
Qed.

Lemma strip_elem s c : c ∈ strip s -> c ∈ s.
Proof.
  destruct (strip_decomp s) as (a & b & Hs & _). intros H. rewrite Hs.
  rewrite !elem_of_app. auto.
Qed.

(** *** Forbidden characters *)

Lemma replace_forbidden_app a b :
  replace_forbidden (a ++ b) = replace_forbidden a ++ replace_forbidden b.
Proof.
  induction a as [|c a IH]; [done|]. cbn [app replace_forbidden].
  by rewrite IH, app_assoc.
Qed.

Lemma replace_forbidden_free s :
  Forall (fun c => forbidden c = false) (replace_forbidden s).
Proof.
  induction s as [|c s IH]; [constructor|]. cbn [replace_forbidden].
  destruct (forbidden c) eqn:E.
  - apply Forall_app. split; [|done]. by repeat constructor.
  - by constructor.
Qed.

Lemma replace_forbidden_id s :
  Forall (fun c => forbidden c = false) s -> replace_forbidden s = s.
Proof.
  induction 1 as [|c s Hc Hs IH]; [done|]. cbn [replace_forbidden].
  by rewrite Hc, IH.
Qed.

Lemma space_not_forbidden c : is_space c = true -> forbidden c = false.
Proof.
  intros H. destruct (forbidden c) eqn:E; [|done].
  unfold forbidden in E. apply bool_decide_eq_true in E.
  repeat (apply elem_of_cons in E as [->|E]; [by vm_compute in H|]).
  by apply elem_of_nil in E.
Qed.

(** *** The steps of [sanitize_filename] *)

Lemma sanitize_filename_spaced name :
  sanitize_filename name
  = match rstrip_chars $" ." (spaced name) with
    | [] => UNTITLED
    | r => r
    end.
Proof.
  unfold sanitize_filename. cbv zeta. fold (spaced name).
  by destruct (rstrip_chars $" ." (spaced name)).
Qed.

Lemma spaced_facts name :
  collapse_ws false (spaced name) = spaced name
  /\ strip (spaced name) = spaced name
  /\ Forall (fun c => forbidden c = false) (spaced name).
Proof.
  unfold spaced. split; [|split].
  - rewrite strip_collapse. apply collapse_unwords, words_proper.
  - apply strip_idem.
  - apply Forall_forall. intros c [->|Hc]%strip_elem%collapse_elem; [done|].
    pose proof (replace_forbidden_free (strip name)) as H.
    rewrite Forall_forall in H. by apply H.
Qed.

Lemma strip_ends c m d :
  is_space c = false -> is_space d = false ->
  forall s, s = [c] \/ s = c :: m ++ [d] -> strip s = s.
Proof.
  intros Hc Hd s [-> | ->].
  - unfold strip. simpl. rewrite Hc. simpl. by rewrite Hc.
  - by apply strip_fixed.
Qed.

Lemma head_nonspace_strip s c r : strip s = s -> s = c :: r -> is_space c = false.
Proof. intros Hs ->. by apply (strip_head _ _ _ Hs). Qed.

(** What the last step leaves, when it leaves something. *)
Lemma trimmed_name_facts x r0 rs :
  collapse_ws false x = x -> strip x = x ->
  Forall (fun c => forbidden c = false) x ->
  rstrip_chars $" ." x = r0 :: rs ->
  let r := r0 :: rs in
  Forall (fun c => forbidden c = false) r
  /\ strip r = r
  /\ rstrip_chars $" ." r = r
  /\ collapse_ws false r = r.
Proof.
  intros Hcol Hstrip Hfree E r.
  destruct (rstrip_chars_decomp $" ." x) as (w & Hx & Hw).
  rewrite E in Hx. fold r in Hx, E.
  assert (collapse_ws false r = r) as Hr.
  { apply collapse_prefix with w. by rewrite <- Hx. }
  assert (Forall (fun c => forbidden c = false) r) as Hf.
  { rewrite Hx in Hfree. by apply Forall_app in Hfree as [? _]. }
  destruct (snoc_or_nil r) as [?|(m & d & Hmd)]; [done|].
  assert (d ∉ $" .") as Hd.
  { apply (rstrip_chars_last $" ." x m). by rewrite E, <- Hmd. }
  assert (is_space d = false) as Hsd.
  { destruct (is_space d) eqn:Hs; [|done]. exfalso. apply Hd.
    rewrite (collapse_fixed_spaces false r d Hr); [left| |done].
    rewrite Hmd. apply elem_of_app. right. left. }
  assert (is_space r0 = false) as Hs0.
  { apply (strip_head x r0 (rs ++ w)). by rewrite Hstrip, Hx. }
  split; [done|]. split; [|split; [|done]].
  - destruct m as [|c m].
    + apply (strip_ends d [] d); [done..|]. left. rewrite Hmd. done.
    + assert (c = r0) as -> by (unfold r in Hmd; by injection Hmd).
      apply (strip_ends r0 m d); [done..|]. right. by rewrite Hmd.
  - rewrite Hmd. by apply rstrip_chars_snoc.
Qed.

Lemma strip_around a c b :
  is_space c = false -> strip (a ++ c :: b) = lstrip a ++ c :: rstrip b.
Proof.
  intros Hc. unfold strip.
  assert (rstrip (a ++ c :: b) = a ++ c :: rstrip b) as ->.
  { rewrite rstrip_app_nonblank; [|simpl; by rewrite Hc].
    f_equal. rewrite rstrip_cons. simpl. by rewrite Hc. }
  induction a as [|x a IH]; simpl.
  - by rewrite Hc.
  - by destruct (is_space x).
Qed.

Lemma collapse_elem_nonspace b s c :
  c ∈ collapse_ws b s -> c = " "%char \/ (c ∈ s /\ is_space c = false).
Proof.
  revert b. induction s as [|x s IH]; intros b; [by intros ?%elem_of_nil|].
  cbn [collapse_ws]. destruct (is_space x) eqn:Hx; [destruct b|].
  - intros [?|[? ?]]%IH; [by left|right; split; [by right|done]].
  - intros [->|[?|[? ?]]%IH]%elem_of_cons;
      [by left|by left|right; split; [by right|done]].
  - intros [->|[?|[? ?]]%IH]%elem_of_cons;
      [right; split; [by left|done]|by left|right; split; [by right|done]].
Qed.

Lemma forbidden_not_space c : forbidden c = true -> is_space c = false.
Proof.
  intros H. destruct (is_space c) eqn:E; [|done].
  apply space_not_forbidden in E. congruence.
Qed.

(** The result is safe as a file name. *)
Lemma sanitize_filename_facts name :
  let r := sanitize_filename name in
  r <> []
  /\ Forall (fun c => forbidden c = false) r
  /\ strip r = r
  /\ rstrip_chars $" ." r = r
  /\ collapse_ws false r = r.
Proof.
  intros r. unfold r. rewrite sanitize_filename_spaced.
  destruct (spaced_facts name) as (H1 & H2 & H3).
  destruct (rstrip_chars $" ." (spaced name)) as [|r0 rs] eqn:E.
  - split; [done|]. split; [by repeat constructor|]. by vm_compute.
  - split; [done|]. by apply (trimmed_name_facts (spaced name)).
Qed.

(** A safe name is left as it is. *)
Lemma sanitize_filename_fixed r :
  r <> [] -> Forall (fun c => forbidden c = false) r -> strip r = r ->
  rstrip_chars $" ." r = r -> collapse_ws false r = r ->
  sanitize_filename r = r.
Proof.
  intros Hne Hf Hs Hr Hc. rewrite sanitize_filename_spaced. unfold spaced.
  rewrite Hs, (replace_forbidden_id r Hf), Hc, Hs, Hr. by destruct r.
Qed.

End NameFacts.

(** X5. The name that [sanitize_filename] returns is never empty, holds
    none of the forbidden characters, has no whitespace at either end, does
    not end in a dot, and its whitespace is single spaces. *)
Theorem sanitize_filename_safe (name : str) :
  let r := sanitize_filename name in
  r <> []
  /\ Forall (fun c => forbidden c = false) r
  /\ strip r = r
  /\ rstrip_chars $" ." r = r
  /\ collapse_ws false r = r
  /\ (forall c, last r = Some c -> c <> "."%char /\ is_space c = false).
Proof.
  intros r. destruct (NameFacts.sanitize_filename_facts name)
    as (H1 & H2 & H3 & H4 & H5). fold r in H1, H2, H3, H4, H5.
  repeat (split; [done|]). intros c Hc.
  destruct (NameFacts.snoc_or_nil r) as [?|(m & d & Hmd)]; [done|].
  rewrite Hmd, last_snoc in Hc. injection Hc as ->.
  assert (c ∉ $" .") as Hn.
  { apply (NameFacts.rstrip_chars_last $" ." r m). by rewrite H4. }
  split.
  - intros ->. apply Hn. right. left.
  - destruct (is_space c) eqn:Hs; [|done]. exfalso. apply Hn.
    rewrite (NameFacts.collapse_fixed_spaces false r c H5); [left| |done].
    rewrite Hmd. apply elem_of_app. right. left.
Qed.

(** X6. [sanitize_filename] changes nothing when applied again, and the
    names it leaves as they are are the safe names: not empty, free of
    forbidden characters, trimmed, not ending in a space or a dot, with
    single spaces as whitespace. *)
Theorem sanitize_filename_idempotent :
  (forall name,
      sanitize_filename (sanitize_filename name) = sanitize_filename name)
  /\ (forall r,
        sanitize_filename r = r
        <-> r <> [] /\ Forall (fun c => forbidden c = false) r
            /\ strip r = r /\ rstrip_chars $" ." r = r
            /\ collapse_ws false r = r).
Proof.
  split.
  - intros name. destruct (NameFacts.sanitize_filename_facts name)
      as (H1 & H2 & H3 & H4 & H5).
    by apply NameFacts.sanitize_filename_fixed.
  - intros r. split.
    + intros E. pose proof (NameFacts.sanitize_filename_facts r) as H.
      cbv zeta in H. by rewrite E in H.
    + intros (H1 & H2 & H3 & H4 & H5).
      by apply NameFacts.sanitize_filename_fixed.
Qed.

(** X7. Two titles that differ in one place only, where each has a
    forbidden character, get the same file name: both characters become
    " - ". *)
Theorem sanitize_filename_forbidden_alike (a b : str) (c d : ascii) :
  forbidden c = true -> forbidden d = true ->
  sanitize_filename (a ++ c :: b) = sanitize_filename (a ++ d :: b).
Proof.
  intros Hc Hd. rewrite !NameFacts.sanitize_filename_spaced. unfold spaced.
  rewrite !NameFacts.strip_around by (by apply NameFacts.forbidden_not_space).
  rewrite !NameFacts.replace_forbidden_app. cbn [replace_forbidden].
  by rewrite Hc, Hd.
Qed.

Lemma sanitize_filename_forbidden_alike_witness :
  sanitize_filename ($"A" ++ "/"%char :: $"B")
  = sanitize_filename ($"A" ++ ":"%char :: $"B").
Proof.
  apply (sanitize_filename_forbidden_alike $"A" $"B" "/" ":");
    vm_compute; reflexivity.
Defined.

(** X8. A name of whitespace and dots only, the empty name among them,
    gives "Untitled". *)
Theorem sanitize_filename_untitled (name : str) :
  Forall (fun c => is_space c = true \/ c = "."%char) name ->
  sanitize_filename name = UNTITLED.
Proof.
  intros H. rewrite NameFacts.sanitize_filename_spaced.
  rewrite NameFacts.rstrip_chars_all; [done|].
  assert (Forall (fun c => is_space c = true \/ c = "."%char) (strip name)) as Hs.
  { apply Forall_forall. intros c Hc%NameFacts.strip_elem.
    rewrite Forall_forall in H. auto. }
  unfold spaced. rewrite NameFacts.replace_forbidden_id.
  2:{ apply (Forall_impl _ _ _ Hs). intros c [Hc| ->]; [|done].
      by apply NameFacts.space_not_forbidden. }
  apply Forall_forall.
  intros c [->|[Hc Hn]]%NameFacts.strip_elem%NameFacts.collapse_elem_nonspace;
    [left|].
  rewrite Forall_forall in Hs. destruct (Hs c Hc) as [?| ->]; [congruence|].
  right. left.
Qed.

Lemma sanitize_filename_untitled_witness :
  sanitize_filename $" . ." = UNTITLED.
Proof.
  apply sanitize_filename_untitled. repeat constructor; by right.
Defined.

(** ** The dedup key of a leaf pair *)

Module KeyFacts.
Import StrFacts LeafFacts NameFacts.

Lemma lower_char_space c : is_space (lower_char c) = is_space c.
Proof. by destruct c as [[] [] [] [] [] [] [] []]; vm_compute. Qed.

Lemma words_lower s : words (lower s) = map lower (words s).
Proof.
  induction s as [|c s IH]; [done|].
  change (lower (c :: s)) with (lower_char c :: lower s).
  cbn [words]. rewrite lower_char_space.
  destruct (is_space c); [done|]. destruct s as [|d s]; [done|].
  change (lower (d :: s)) with (lower_char d :: lower s) in *.
  cbv iota. rewrite lower_char_space. destruct (is_space d) eqn:Hd.
  - by rewrite IH.
  - rewrite IH. by destruct (words (d :: s)).
Qed.

Lemma lower_app a b : lower (a ++ b) = lower a ++ lower b.
Proof. apply map_app. Qed.

Lemma lower_unwords ws : lower (unwords ws) = unwords (map lower ws).
Proof.
  induction ws as [|w ws IH]; [done|]. destruct ws as [|w2 ws]; [done|].
  rewrite unwords_cons, lower_app.
  change (lower (" "%char :: unwords (w2 :: ws)))
    with (" "%char :: lower (unwords (w2 :: ws))).
  rewrite IH. reflexivity.
Qed.

Lemma words_word w : proper w -> words w = [w].
Proof.
  intros [Hne Hw]. induction w as [|c w IH]; [done|].
  simpl in Hw. apply andb_true_iff in Hw as [Hc Hw].
  unfold nonspace in Hc. apply negb_true_iff in Hc.
  cbn [words]. rewrite Hc. destruct w as [|d w]; [done|].
  simpl in Hw. apply andb_true_iff in Hw as [Hd Hw'].
  unfold nonspace in Hd. apply negb_true_iff in Hd. rewrite Hd.
  rewrite IH; [done|done|]. simpl. unfold nonspace. by rewrite Hd.
Qed.

Lemma words_unwords ws : Forall proper ws -> words (unwords ws) = ws.
Proof.
  induction 1 as [|w ws Hw Hws IH]; [done|]. destruct ws as [|w2 ws].
  - by apply words_word.
  - rewrite unwords_cons, words_app_space by done.
    by rewrite words_word, IH.
Qed.

Lemma proper_lower w : proper w -> proper (lower w).
Proof.
  intros [Hne Hw]. split; [by destruct w|].
  unfold lower. rewrite forallb_forall in *. intros c Hc.
  apply in_map_iff in Hc as (x & <- & Hx). specialize (Hw x Hx).
  unfold nonspace in *. by rewrite lower_char_space.
Qed.

Lemma proper_app ws ws' : Forall proper ws -> Forall proper ws' -> Forall proper (ws ++ ws').
Proof. apply Forall_app_2. Qed.

Lemma key_words d s :
  normalize_leaf_pair d s = unwords (map lower (words d ++ words s))
  /\ Forall proper (map lower (words d ++ words s)).
Proof.
  split.
  - by rewrite normalize_leaf_pair_words, lower_unwords.
  - apply Forall_fmap. apply Forall_app. split;
      (eapply Forall_impl; [apply words_proper|]; intros w Hw;
       by apply proper_lower).
Qed.

Lemma words_nil_blank s : words s = [] <-> blank s = true.
Proof.
  split; [|apply words_blank]. induction s as [|c s IH]; [done|].
  destruct (is_space c) eqn:Hc.
  - simpl. rewrite Hc. intros H. by rewrite IH.
  - intros H. destruct (words_nonspace_head c s Hc) as (w & ws & E). congruence.
Qed.

End KeyFacts.

(** X24. Two leaf pairs have the same dedup key exactly when the words of
    description and source, taken as one sequence and in lower case, are
    the same; the key is empty exactly when description and source are
    both blank. *)
Theorem leaf_key_is_the_lower_case_words (d s d' s' : str) :
  (normalize_leaf_pair d s = normalize_leaf_pair d' s'
   <-> map lower (words d ++ words s) = map lower (words d' ++ words s'))
  /\ (normalize_leaf_pair d s = [] <-> blank d = true /\ blank s = true).
Proof.
  destruct (KeyFacts.key_words d s) as [E P].
  destruct (KeyFacts.key_words d' s') as [E' P'].
  split.
  - rewrite E, E'. split; [|by intros ->].
    intros H. apply (f_equal words) in H.
    by rewrite !KeyFacts.words_unwords in H.
  - rewrite E. split.
    + intros H. apply (f_equal words) in H.
      rewrite KeyFacts.words_unwords in H by done. simpl in H.
      apply fmap_nil_inv, app_eq_nil in H as [H1 H2].
      by rewrite <- !KeyFacts.words_nil_blank.
    + intros [H1 H2]. apply KeyFacts.words_nil_blank in H1, H2.
      by rewrite H1, H2.
Qed.

(** ** The rows of the sheet and the leaf entries of the graph *)

Module RowFacts.
Import StrFacts GraphFacts ColFacts.

Lemma cell_text_strip r ci : strip (cell_text r ci) = cell_text r ci.
Proof.
  unfold cell_text. cbv zeta.
  destruct (if (ci <? Z.of_nat (length r))%Z
            then match r !! Z.to_nat ci with Some v => v | None => None end
            else None) as [v|]; [apply strip_idem|done].
Qed.

Lemma omap_length {A B} (f : A -> option B) l : length (omap f l) <= length l.
Proof.
  induction l as [|x l IH]; [done|]. cbn [omap list_omap].
  destruct (f x); simpl; lia.
Qed.

Lemma filter_parts r hidx p :
  p ∈ List.filter (fun sval => negb (str_eqb sval []))
        (map (cell_text r) hidx) ->
  p <> [] /\ strip p = p.
Proof.
  intros H. apply list_elem_of_In, filter_In in H as [H1 H2].
  apply in_map_iff in H1 as (ci & <- & _). split; [|apply cell_text_strip].
  apply negb_true_iff, str_eqb_false in H2. done.
Qed.

Lemma filter_length_le {A} (P : A -> bool) l :
  length (List.filter P l) <= length l.
Proof. induction l as [|x l IH]; [done|]. simpl. destruct (P x); simpl; lia. Qed.

Lemma read_row_facts hidx inc d s r row :
  read_row hidx inc d s r = Some row ->
  parts row <> []
  /\ length (parts row) <= length hidx
  /\ Forall (fun p => p <> [] /\ strip p = p) (parts row)
  /\ exists de so, description row = Some de /\ source row = Some so
                   /\ strip de = de /\ strip so = so
                   /\ (inc = false -> de = [] /\ so = []).
Proof.
  unfold read_row. cbv zeta.
  pose proof (filter_parts r hidx) as Hp.
  pose proof (filter_length_le (fun sval => negb (str_eqb sval []))
                (map (cell_text r) hidx)) as Hl.
  rewrite length_map in Hl.
  destruct (List.filter _ (map (cell_text r) hidx)) as [|p ps]; [done|].
  intros [= <-]. cbn [parts description source].
  split; [done|]. split; [done|]. split.
  { apply Forall_forall. intros q Hq. by apply Hp. }
  eexists _, _. split; [done|]. split; [done|].
  destruct inc.
  - split; [|split; [|done]].
    + destruct d; [apply cell_text_strip|done].
    + destruct s; [apply cell_text_strip|done].
  - done.
Qed.

Lemma read_rows_some rows_iter hcols inc dcol scol rows :
  read_xlsx_rows_by_columns rows_iter hcols inc dcol scol = Some rows ->
  exists hidx d s,
    mapM col_letter_to_index hcols = Some hidx
    /\ optional_col inc dcol = Some d /\ optional_col inc scol = Some s
    /\ rows = omap (fun r => r ≫= read_row hidx inc d s) rows_iter.
Proof.
  unfold read_xlsx_rows_by_columns.
  destruct (mapM col_letter_to_index hcols) as [hidx|]; [|done].
  destruct (optional_col inc dcol) as [d|]; [|done].
  destruct (optional_col inc scol) as [s|]; [|done].
  simpl. intros [= <-]. by eexists _, _, _.
Qed.

(** *** Leaf entries *)

Lemma add_edges_leaf g pcs :
  leaf_info (foldl add_edge g pcs) = leaf_info g
  /\ leaf_entry_count (foldl add_edge g pcs) = leaf_entry_count g.
Proof.
  revert g. induction pcs as [|[p c] pcs IH]; intros g; [done|].
  cbn [foldl]. destruct (IH (add_edge g (p, c))) as [-> ->]. done.
Qed.

Lemma entries_of_app t es es' :
  entries_of t (es ++ es') = entries_of t es ++ entries_of t es'.
Proof. unfold entries_of. by rewrite List.filter_app, map_app. Qed.

Lemma last_cons_is_Some {A} (x : A) l : is_Some (last (x :: l)).
Proof.
  revert x. induction l as [|y l IH]; intros x; [by eexists|]. apply (IH y).
Qed.

Lemma leaf_inv_add_row g es r :
  leaf_inv g es -> leaf_inv (add_row g r) (es ++ option_list (leaf_entry r)).
Proof.
  intros [Hc Hi]. unfold add_row, leaf_entry.
  destruct (parts r) as [|first ps] eqn:Ep.
  { simpl. rewrite app_nil_r. by split. }
  destruct (last_cons_is_Some first ps) as [leaf El]. rewrite El.
  cbv zeta.
  destruct (add_edges_leaf g (consecutive_pairs (first :: ps))) as [Hli Hlc].
  set (desc := strip (default [] (description r))).
  set (src := strip (default [] (source r))).
  destruct (negb (str_eqb desc []) || negb (str_eqb src [])) eqn:Ew.
  - split.
    + cbn [leaf_entry_count]. rewrite Hlc, Hc, length_app. simpl. lia.
    + intros t. cbn [leaf_info]. rewrite Hli, entries_of_app.
      unfold dl_append.
      change (entries_of t (option_list (Some (leaf, (desc, src)))))
        with (map snd (if str_eqb leaf t then [(leaf, (desc, src))] else [])).
      destruct (str_eqb leaf t) eqn:Et.
      * apply str_eqb_true in Et as ->. rewrite lookup_insert_eq, Hi.
        cbn [map snd]. by destruct (entries_of t es).
      * apply str_eqb_false in Et. rewrite lookup_insert_ne by done.
        cbn [map]. rewrite app_nil_r. apply Hi.
  - split.
    + cbn [leaf_entry_count]. rewrite Hlc, Hc, length_app. simpl. lia.
    + intros t. cbn [leaf_info]. rewrite Hli. simpl. rewrite app_nil_r. apply Hi.
Qed.

Lemma leaf_inv_build_from g es rows :
  leaf_inv g es -> leaf_inv (foldl add_row g rows) (es ++ leaf_entries rows).
Proof.
  revert g es. induction rows as [|r rows IH]; intros g es H.
  - simpl. by rewrite app_nil_r.
  - simpl. apply leaf_inv_add_row with (r := r) in H. apply IH in H.
    unfold leaf_entries in *. cbn [omap list_omap].
    rewrite <- app_assoc in H.
    destruct (leaf_entry r); exact H.
Qed.

Lemma leaf_inv_build rows :
  leaf_inv (build_title_graph_from_parts rows) (leaf_entries rows).
Proof. apply (leaf_inv_build_from empty_graph []). by split. Qed.

(** *** Every key is a label *)

Lemma consecutive_pairs_elem ps p c :
  (p, c) ∈ consecutive_pairs ps -> p ∈ ps /\ c ∈ ps.
Proof.
  induction ps as [|x ps IH]; [by intros ?%elem_of_nil|].
  destruct ps as [|y ps]; [by intros ?%elem_of_nil|].
  cbn [consecutive_pairs]. intros [[= -> ->]|H]%elem_of_cons.
  - split; [left|right; left].
  - destruct (IH H). split; by right.
Qed.

Lemma keys_within_add_edges g S pcs :
  keys_within g S -> (forall p c, (p, c) ∈ pcs -> p ∈ S /\ c ∈ S) ->
  keys_within (foldl add_edge g pcs) S.
Proof.
  revert g. induction pcs as [|[p c] pcs IH]; intros g Hg Hin; [done|].
  simpl. apply IH.
  - destruct (Hin p c ltac:(left)) as [Hp Hc].
    intros t. cbn [add_edge parent_to_children child_to_parents leaf_info].
    rewrite !dd_add_is_Some.
    intros [[<-|?]|[[<-|?]|?]]; auto; apply Hg; auto.
  - intros p' c' H. apply Hin. by right.
Qed.

Lemma last_elem {A} (l : list A) x : last l = Some x -> x ∈ l.
Proof.
  induction l as [|y l IH]; [done|]. destruct l as [|z l].
  - intros [= ->]. left.
  - intros H. right. by apply IH.
Qed.

Lemma keys_within_mono g S S' : keys_within g S -> S ⊆ S' -> keys_within g S'.
Proof. intros H Hs t Ht. by apply Hs, H. Qed.

Lemma keys_within_add_row g S r :
  keys_within g S -> keys_within (add_row g r) (list_to_set (parts r) ∪ S).
Proof.
  intros Hg. unfold add_row.
  destruct (parts r) as [|first ps] eqn:Ep.
  { apply (keys_within_mono g S); [done|set_solver]. }
  destruct (last_cons_is_Some first ps) as [leaf El]. rewrite El. cbv zeta.
  set (S' := list_to_set (first :: ps) ∪ S).
  assert (keys_within (foldl add_edge g (consecutive_pairs (first :: ps))) S')
    as Hk.
  { apply keys_within_add_edges.
    - apply (keys_within_mono g S); [done|set_solver].
    - intros p c [Hp Hc]%consecutive_pairs_elem. unfold S'. set_solver. }
  assert (leaf ∈ S') as Hleaf.
  { apply last_elem in El. unfold S'. set_solver. }
  assert (first ∈ S') as Hfirst by (unfold S'; set_solver).
  intros t. cbn [parent_to_children child_to_parents leaf_info].
  unfold setdefault. rewrite !dd_touch_is_Some.
  intros [[<-|?]|[[<-|?]|Hl]]; auto; try (apply Hk; auto; fail).
  destruct (negb _ || negb _).
  - unfold dl_append in Hl. destruct (decide (leaf = t)) as [<-|Hne]; [done|].
    rewrite lookup_insert_ne in Hl by done. apply Hk. auto.
  - apply Hk. auto.
Qed.

Lemma labels_cons r rows :
  labels (r :: rows) = list_to_set (parts r) ∪ labels rows.
Proof. unfold labels. simpl. by rewrite list_to_set_app_L. Qed.

Lemma keys_within_build_from g S rows :
  keys_within g S -> keys_within (foldl add_row g rows) (labels rows ∪ S).
Proof.
  revert g S. induction rows as [|r rows IH]; intros g S H.
  - simpl. apply (keys_within_mono g S); [done|set_solver].
  - simpl. apply keys_within_add_row with (r := r) in H. apply IH in H.
    apply (keys_within_mono _ _ _ H). rewrite labels_cons. set_solver.
Qed.

Lemma keys_within_build rows :
  keys_within (build_title_graph_from_parts rows) (labels rows).
Proof.
  apply (keys_within_mono _ (labels rows ∪ ∅)); [|set_solver].
  apply keys_within_build_from. intros t [H|[H|H]]; simpl in H;
    rewrite lookup_empty in H; by destruct H.
Qed.

Lemma labels_elem rows t :
  t ∈ labels rows <-> exists r, r ∈ rows /\ t ∈ parts r.
Proof.
  induction rows as [|r rows IH].
  - split; [by intros ?%elem_of_empty|]. by intros (r & ?%elem_of_nil & _).
  - rewrite labels_cons, elem_of_union, elem_of_list_to_set, IH. split.
    + intros [?|(r' & ? & ?)]; [exists r; split; [left|done]|].
      exists r'. split; [by right|done].
    + intros (r' & [->|?]%elem_of_cons & ?); [by left|right; eauto].
Qed.

Lemma graph_keys rows t :
  let g := build_title_graph_from_parts rows in
  (is_Some (parent_to_children g !! t) <-> t ∈ labels rows)
  /\ (is_Some (child_to_parents g !! t) <-> t ∈ labels rows)
  /\ (is_Some (leaf_info g !! t) -> t ∈ labels rows).
Proof.
  intros g. pose proof (keys_within_build rows t) as Hk. fold g in Hk.
  assert (t ∈ labels rows -> has_keys g t) as Hh.
  { intros H%labels_elem. apply build_keys_from. by right. }
  split; [|split].
  - split; [auto|]. by intros [? _]%Hh.
  - split; [auto|]. by intros [_ ?]%Hh.
  - auto.
Qed.

End RowFacts.

(** X9. The rows that [read_xlsx_rows_by_columns] returns: not more than
    the sheet has; each with at least one label and at most one per
    hierarchy column; every label, description and source trimmed, the
    labels not empty; without [include_desc], description and source
    empty. *)
Theorem read_rows_are_clean rows_iter hcols inc dcol scol rows :
  read_xlsx_rows_by_columns rows_iter hcols inc dcol scol = Some rows ->
  length rows <= length rows_iter
  /\ Forall (fun r =>
       parts r <> []
       /\ length (parts r) <= length hcols
       /\ Forall (fun p => p <> [] /\ strip p = p) (parts r)
       /\ exists de so, description r = Some de /\ source r = Some so
                        /\ strip de = de /\ strip so = so
                        /\ (inc = false -> de = [] /\ so = [])) rows.
Proof.
  intros (hidx & d & s & Hh & _ & _ & ->)%RowFacts.read_rows_some.
  split; [apply RowFacts.omap_length|].
  apply Forall_forall. intros r (x & _ & Hx)%list_elem_of_omap.
  destruct x as [x|]; [|done]. simpl in Hx.
  apply RowFacts.read_row_facts in Hx as (H1 & H2 & H3 & H4).
  apply length_mapM in Hh. rewrite Hh. done.
Qed.

Lemma read_rows_are_clean_witness :
  length [Row [$"A"; $"B"] (Some $"d") (Some [])] <= length [Some [Some $" A "; Some $"B"; Some $"d "]; Some [None]]
  /\ Forall (fun r =>
       parts r <> []
       /\ length (parts r) <= length [$"a"; $"b"]
       /\ Forall (fun p => p <> [] /\ strip p = p) (parts r)
       /\ exists de so, description r = Some de /\ source r = Some so
                        /\ strip de = de /\ strip so = so
                        /\ (true = false -> de = [] /\ so = []))
       [Row [$"A"; $"B"] (Some $"d") (Some [])].
Proof.
  apply (read_rows_are_clean
           [Some [Some $" A "; Some $"B"; Some $"d "]; Some [None]]
           [$"a"; $"b"] true (Some $"C") None).
  vm_compute. reflexivity.
Defined.

(** X10. When [validate_cols_exist] accepts the columns that [main] hands
    it, every one of them has an index below [max_column], and
    [read_xlsx_rows_by_columns] does not raise for these columns. *)
Theorem validated_columns_are_read max_column rows_iter hcols inc dcol scol :
  validate_cols_exist max_column (cols_to_check hcols inc dcol scol) = true ->
  (exists m, max_column = Some m
     /\ forall c, c ∈ cols_to_check hcols inc dcol scol ->
          exists i, col_letter_to_index c = Some i /\ (0 <= i < m)%Z)
  /\ is_Some (read_xlsx_rows_by_columns rows_iter hcols inc dcol scol).
Proof.
  unfold validate_cols_exist. destruct max_column as [m|]; [|done].
  destruct (Z.leb_spec m 0) as [|Hm]; [done|]. intros Hv.
  rewrite forallb_forall in Hv.
  assert (forall c, c ∈ cols_to_check hcols inc dcol scol ->
            exists i, col_letter_to_index c = Some i /\ (0 <= i < m)%Z) as Hc.
  { intros c Hin%list_elem_of_In. specialize (Hv c Hin). cbv beta in Hv.
    destruct (col_letter_to_index c) as [i|] eqn:E; [|done].
    exists i. split; [done|].
    destruct (ColFacts.col_letter_to_index_some c i) as [Hs _].
    destruct (Hs E) as [Hl ->].
    pose proof (ColFacts.number_of_pos _ Hl).
    apply negb_true_iff, Z.ltb_ge in Hv. lia. }
  split; [by exists m|].
  assert (forall c0 l inc', inc' = inc -> (c0 :: l) ∈ cols_to_check hcols inc dcol scol ->
            is_Some (optional_col inc' (Some (c0 :: l)))) as Hopt.
  { intros c0 l inc' -> Hin. destruct (Hc _ Hin) as (i & Hi & _).
    unfold optional_col. destruct inc; [|by eexists]. rewrite Hi. by eexists. }
  unfold read_xlsx_rows_by_columns.
  assert (is_Some (mapM col_letter_to_index hcols)) as [hidx ->].
  { apply mapM_is_Some, Forall_forall. intros c Hin.
    assert (c ∈ cols_to_check hcols inc dcol scol) as Hin'.
    { unfold cols_to_check. apply elem_of_app. by left. }
    destruct (Hc c Hin') as (i & Hi & _). unfold compose. rewrite Hi.
    by eexists. }
  assert (is_Some (optional_col inc dcol)) as [d ->].
  { destruct dcol as [[|c0 l]|]; [by eexists| |by eexists].
    destruct inc; [|by eexists]. apply Hopt; [done|].
    unfold cols_to_check. rewrite !elem_of_app. right. left. left. }
  assert (is_Some (optional_col inc scol)) as [s ->].
  { destruct scol as [[|c0 l]|]; [by eexists| |by eexists].
    destruct inc; [|by eexists]. apply Hopt; [done|].
    unfold cols_to_check. rewrite !elem_of_app. right. right. left. }
  by eexists.
Qed.

Lemma validated_columns_are_read_witness :
  (exists m, Some 3%Z = Some m
     /\ forall c, c ∈ cols_to_check [$"A"; $"b"] true (Some $"C") None ->
          exists i, col_letter_to_index c = Some i /\ (0 <= i < m)%Z)
  /\ is_Some (read_xlsx_rows_by_columns [Some [Some $"x"]] [$"A"; $"b"] true
                (Some $"C") None).
Proof.
  apply (validated_columns_are_read (Some 3%Z)). vm_compute. reflexivity.
Defined.

(** X11. [leaf_entry_count] is the number of rows that have a label and a
    description or source that is not blank; [leaf_info] holds, under the
    last label of each such row, the trimmed (description, source) pairs
    of these rows in the order of the rows, and no key without a pair. *)
Theorem leaf_info_collects_entries (rows : list row) :
  let g := build_title_graph_from_parts rows in
  leaf_entry_count g = length (leaf_entries rows)
  /\ (forall t, default [] (leaf_info g !! t) = entries_of t (leaf_entries rows))
  /\ (forall t, is_Some (leaf_info g !! t)
                <-> exists p, (t, p) ∈ leaf_entries rows).
Proof.
  intros g. destruct (RowFacts.leaf_inv_build rows) as [Hc Hi]. fold g in Hc, Hi.
  split; [done|]. split.
  - intros t. rewrite Hi. by destruct (entries_of t (leaf_entries rows)).
  - intros t. rewrite Hi. unfold entries_of.
    assert (forall e, e ∈ List.filter (fun e => str_eqb e.1 t) (leaf_entries rows)
                      <-> e ∈ leaf_entries rows /\ e.1 = t) as Hf.
    { intros e. rewrite !list_elem_of_In, filter_In.
      by rewrite StrFacts.str_eqb_true. }
    destruct (List.filter _ (leaf_entries rows)) as [|e es] eqn:E.
    + split; [by intros [? ?]|]. intros (p & Hp).
      assert ((t, p) ∈ @nil (str * (str * str))) as H%elem_of_nil; [|done].
      apply Hf. by split.
    + split; [intros _|by eexists].
      destruct (proj1 (Hf e) ltac:(left)) as [He <-].
      exists e.2. by destruct e.
Qed.

(** X12. The titles of the graph, which [main] writes a note for, are
    exactly the labels of the rows: each is a key of both mappings, and
    [leaf_info] has no other key. *)
Theorem graph_titles_are_labels (rows : list row) :
  let g := build_title_graph_from_parts rows in
  all_titles g = labels rows
  /\ dom (parent_to_children g) = labels rows
  /\ dom (child_to_parents g) = labels rows
  /\ dom (leaf_info g) ⊆ labels rows.
Proof.
  intros g.
  assert (dom (parent_to_children g) = labels rows) as H1.
  { apply set_eq. intros t. rewrite elem_of_dom.
    apply (RowFacts.graph_keys rows t). }
  assert (dom (child_to_parents g) = labels rows) as H2.
  { apply set_eq. intros t. rewrite elem_of_dom.
    apply (RowFacts.graph_keys rows t). }
  assert (dom (leaf_info g) ⊆ labels rows) as H3.
  { intros t. rewrite elem_of_dom. apply (RowFacts.graph_keys rows t). }
  unfold all_titles. rewrite H1, H2. split; [set_solver|done].
Qed.

(** X13. Rows read without [include_desc] give a graph without leaf
    entries. *)
Theorem rows_without_desc_have_no_leaf_entry rows_iter hcols dcol scol rows :
  read_xlsx_rows_by_columns rows_iter hcols false dcol scol = Some rows ->
  leaf_entry_count (build_title_graph_from_parts rows) = 0
  /\ leaf_info (build_title_graph_from_parts rows) = ∅.
Proof.
  intros (hidx & d & s & _ & _ & _ & ->)%RowFacts.read_rows_some.
  set (rows := omap _ rows_iter).
  assert (leaf_entries rows = []) as He.
  { apply elem_of_nil_inv. intros e (r & Hr & Hl)%list_elem_of_omap.
    apply list_elem_of_omap in Hr as (x & _ & Hx).
    destruct x as [x|]; [|done]. simpl in Hx.
    apply RowFacts.read_row_facts in Hx as (_ & _ & _ & de & so & Hd & Hs & _ & _ & He).
    destruct (He eq_refl) as [-> ->]. unfold leaf_entry in Hl.
    rewrite Hd, Hs in Hl. destruct (last (parts r)); done. }
  destruct (RowFacts.leaf_inv_build rows) as [Hc Hi].
  rewrite He in Hc, Hi. split; [done|].
  apply map_eq. intros t. by rewrite Hi, lookup_empty.
Qed.

Lemma rows_without_desc_witness :
  leaf_entry_count (build_title_graph_from_parts [Row [$"x"] (Some []) (Some [])]) = 0
  /\ leaf_info (build_title_graph_from_parts [Row [$"x"] (Some []) (Some [])]) = ∅.
Proof.
  apply (rows_without_desc_have_no_leaf_entry [Some [Some $"x"; Some $"d"]]
           [$"A"] (Some $"B") None).
  vm_compute. reflexivity.
Defined.

(** ** The notes of a graph: roots and files *)

Module NoteFacts.
Import StrFacts LinkFacts GraphFacts RowFacts.

Lemma elem_of_sorted (key : str -> str) l t : t ∈ sorted key l <-> t ∈ l.
Proof. by rewrite (sorted_perm key l). Qed.

Lemma elem_of_filter_bool {A} (P : A -> bool) l x :
  x ∈ List.filter P l <-> x ∈ l /\ P x = true.
Proof. by rewrite !list_elem_of_In, filter_In. Qed.

Lemma all_pairs_elem rows p c :
  (p, c) ∈ all_pairs rows <-> exists r, r ∈ rows /\ (p, c) ∈ row_pairs r.
Proof.
  unfold all_pairs. induction rows as [|r rows IH].
  - split; [by intros ?%elem_of_nil|]. by intros (r & ?%elem_of_nil & _).
  - cbn [map concat]. rewrite elem_of_app, IH. split.
    + intros [?|(r' & ? & ?)]; [exists r; split; [left|done]|].
      exists r'. split; [by right|done].
    + intros (r' & [->|?]%elem_of_cons & ?); [by left|right; eauto].
Qed.

Lemma no_parents rows t :
  dd_get (child_to_parents (build_title_graph_from_parts rows)) t = ∅
  <-> forall p, (p, t) ∉ all_pairs rows.
Proof.
  destruct (consistent_build rows) as [_ Hp _]. split.
  - intros E p Hin. assert (p ∈ (∅ : gset str)) as H%elem_of_empty; [|done].
    rewrite <- E. apply Hp. by apply elem_of_list_to_set.
  - intros H. apply set_eq. intros p. split; [|by intros ?%elem_of_empty].
    intros Hin%Hp%elem_of_list_to_set. by apply H in Hin.
Qed.

(** One file across the rounds of the loop. *)
Lemma write_note_lookup order g dir t f :
  write_note order g dir t !! f
  = if str_eqb (sanitize_filename t ++ MD) f
    then Some (note_update order g (dir !! f) t)
    else dir !! f.
Proof.
  unfold write_note. cbv zeta.
  destruct (str_eqb (sanitize_filename t ++ MD) f) eqn:E.
  - apply str_eqb_true in E as <-. by rewrite lookup_insert_eq.
  - apply str_eqb_false in E. by rewrite lookup_insert_ne.
Qed.

Lemma write_notes_lookup order g ts dir f :
  foldl (write_note order g) dir ts !! f
  = foldl (fun file t => Some (note_update order g file t)) (dir !! f)
      (List.filter (fun t => str_eqb (sanitize_filename t ++ MD) f) ts).
Proof.
  revert dir. induction ts as [|t ts IH]; intros dir; [done|].
  cbn [foldl List.filter]. rewrite IH, write_note_lookup.
  by destruct (str_eqb (sanitize_filename t ++ MD) f).
Qed.

Lemma write_notes_dom order g ts dir :
  dom (foldl (write_note order g) dir ts)
  = dom dir ∪ list_to_set (map (fun t => sanitize_filename t ++ MD) ts).
Proof.
  revert dir. induction ts as [|t ts IH]; intros dir.
  - simpl. set_solver.
  - cbn [foldl map list_to_set]. rewrite IH. unfold write_note. cbv zeta.
    rewrite dom_insert_L. set_solver.
Qed.

End NoteFacts.

(** X14. The roots that [dry_run_summary] shows are the labels that no row
    has after another label, in case-insensitive order; the order in
    which the set of titles hands out its elements only matters among
    titles that differ in case only. *)
Theorem roots_are_labels_without_parent (order : gset str -> list str)
    (rows : list row) (t : str) :
  (forall s, order s ≡ₚ elements s) ->
  let g := build_title_graph_from_parts rows in
  (t ∈ roots order g
   <-> t ∈ labels rows /\ forall p, (p, t) ∉ all_pairs rows)
  /\ StronglySorted (fun a b => str_leb (lower a) (lower b) = true)
       (roots order g).
Proof.
  intros Horder g. split.
  - unfold roots. rewrite NoteFacts.elem_of_sorted, NoteFacts.elem_of_filter_bool.
    rewrite (Horder (all_titles g)), elem_of_elements.
    assert (all_titles g = labels rows) as ->.
    { unfold all_titles. apply set_eq. intros x.
      rewrite !elem_of_union, !elem_of_dom.
      destruct (RowFacts.graph_keys rows x) as (H1 & H2 & H3). fold g in H1, H2, H3.
      tauto. }
    rewrite Nat.eqb_eq, size_empty_iff. subst g.
    split; intros [H1 H2]; (split; [done|]).
    + apply NoteFacts.no_parents. by apply leibniz_equiv.
    + apply leibniz_equiv_iff. by apply NoteFacts.no_parents.
  - apply LinkFacts.sorted_sorted.
Qed.

Lemma roots_are_labels_without_parent_witness :
  ($"A" ∈ roots elements (build_title_graph_from_parts rows_abcd)
   <-> $"A" ∈ labels rows_abcd /\ forall p, (p, $"A") ∉ all_pairs rows_abcd)
  /\ StronglySorted (fun a b => str_leb (lower a) (lower b) = true)
       (roots elements (build_title_graph_from_parts rows_abcd)).
Proof.
  apply (roots_are_labels_without_parent elements rows_abcd $"A").
  intros s. reflexivity.
Defined.

(** X15. The loop of [main] that writes the notes, seen from one file
    name: the file is what the updates of the titles with this file name
    make of it, one after the other in the order of the loop, each reading
    what the one before wrote; a file that is the name of no title is left
    as it was, and the files after the loop are those before it and the
    file names of the titles. *)
Theorem write_notes_by_file_name (order : gset str -> list str) (g : graph)
    (dir : gmap str str) :
  let titles := sorted lower (order (all_titles g)) in
  let name := fun t => sanitize_filename t ++ MD in
  (forall f,
      write_notes order g dir !! f
      = foldl (fun file t => Some (note_update order g file t)) (dir !! f)
          (List.filter (fun t => str_eqb (name t) f) titles))
  /\ (forall f, (forall t, t ∈ titles -> name t <> f) ->
                write_notes order g dir !! f = dir !! f)
  /\ dom (write_notes order g dir) = dom dir ∪ list_to_set (map name titles).
Proof.
  intros titles name. split; [|split].
  - intros f. apply NoteFacts.write_notes_lookup.
  - intros f Hf. unfold write_notes. rewrite NoteFacts.write_notes_lookup.
    subst titles name. cbv beta in Hf.
    assert (List.filter (fun t => str_eqb (sanitize_filename t ++ MD) f)
              (sorted lower (order (all_titles g))) = []) as ->; [|done].
    apply elem_of_nil_inv. intros t [Ht E]%NoteFacts.elem_of_filter_bool.
    apply StrFacts.str_eqb_true in E. by apply (Hf t).
  - apply NoteFacts.write_notes_dom.
Qed.

(** ** Sections: what is written is found again *)

Module SectionFacts.
Import StrFacts SecFacts LinkFacts LeafFacts GrowFacts StepFacts TextFacts.

Lemma slice_all {A} (l : list A) : slice l 0 (length l) = l.
Proof. unfold slice. by rewrite Nat.sub_0_r, drop_0, firstn_all. Qed.

(** The range of a section and its lines. *)
Lemma find_section_range_section L header s e :
  find_section_range L header = Some (s, e) ->
  section_of L (H2 ++ header) = Some (slice L s e)
  /\ s < e <= length L
  /\ exists hdr, L !! s = Some hdr /\ strip hdr = H2 ++ header.
Proof.
  rewrite find_section_range_split, section_of_split.
  destruct (split_section L (H2 ++ header)) as [[[pre sec] post]|] eqn:E; [|done].
  simpl. intros [= <- <-].
  destruct (split_section_spec _ _ _ _ _ E) as (-> & _ & hdr & body & -> & Hh & _).
  rewrite slice_app_mid. split; [done|]. split.
  - rewrite !length_app. simpl. lia.
  - exists hdr. split; [|done]. by rewrite lookup_app_r, Nat.sub_diag.
Qed.

Lemma section_found_range L header sec :
  section_of L (H2 ++ header) = Some sec ->
  exists s e, find_section_range L header = Some (s, e) /\ slice L s e = sec.
Proof.
  rewrite find_section_range_split, section_of_split.
  destruct (split_section L (H2 ++ header)) as [[[pre s] post]|] eqn:E; [|done].
  simpl. intros [= ->]. eexists _, _. split; [done|].
  rewrite (split_section_app _ _ _ _ _ E). apply slice_app_mid.
Qed.

Lemma ensured_split L header :
  strip (H2 ++ header) = H2 ++ header ->
  split_section
    (let '(pre, sec, post) := ensured L header in pre ++ sec ++ post)
    (H2 ++ header)
  = Some (ensured L header).
Proof.
  intros Hh. unfold ensured.
  destruct (split_section L (H2 ++ header)) as [[[pre sec] post]|] eqn:E.
  - by rewrite <- (split_section_app _ _ _ _ _ E).
  - apply (split_section_intro (L ++ separator L) (H2 ++ header) [ [] ] []).
    + apply no_heading_app; [by apply split_section_none|].
      unfold no_heading. rewrite Forall_forall.
      intros y ->%separator_lines. by destruct header.
    + done.
    + by repeat constructor.
    + done.
Qed.

Lemma untrimmed_never_found L header :
  strip (H2 ++ header) <> H2 ++ header -> split_section L (H2 ++ header) = None.
Proof.
  intros Hh. apply split_section_none. unfold no_heading.
  apply Forall_forall. intros y _ E. apply Hh. by rewrite <- E, strip_idem.
Qed.

(** *** A link with a display text *)




(** *** A request that is present *)

Lemma append_missing_links_fixed L h ts sec :
  section_of L (H2 ++ h) = Some sec -> (forall t, t ∈ ts -> t ∈ links_of sec) ->
  append_missing_links L h ts = L.
Proof.
  intros Hs Hin. pose proof (append_missing_links_ensured L h ts) as H.
  rewrite section_of_split in Hs. unfold ensured in H.
  destruct (split_section L (H2 ++ h)) as [[[pre s] post]|] eqn:E; [|done].
  simpl in Hs. injection Hs as ->. rewrite H.
  assert (links_to_add (links_of sec) ts = []) as ->.
  { apply elem_of_nil_inv. intros t Ht.
    apply elem_of_links_to_add in Ht as [Ht Hn]. by apply Hn, Hin. }
  simpl. symmetry. by apply split_section_app in E.
Qed.

Lemma append_missing_leaf_blocks_fixed L al sec :
  section_of L (H2 ++ DESC_HEADER) = Some sec ->
  (forall p, p ∈ al -> key_of p = [] \/ key_of p ∈ keys_of sec) ->
  append_missing_leaf_blocks L al = L.
Proof.
  intros Hs Hin. pose proof (append_missing_leaf_blocks_ensured L al) as H.
  rewrite section_of_split in Hs. unfold ensured in H.
  destruct (split_section L (H2 ++ DESC_HEADER)) as [[[pre s] post]|] eqn:E; [|done].
  simpl in Hs. injection Hs as ->. rewrite H.
  rewrite new_pairs_none by done.
  simpl. symmetry. by apply split_section_app in E.
Qed.

Lemma links_after_append L h ts :
  known_header h -> (forall t, t ∈ ts -> good_title t) ->
  exists sec, section_of (append_missing_links L h ts) (H2 ++ h) = Some sec
              /\ forall t, t ∈ ts -> t ∈ links_of sec.
Proof.
  intros Hk Hts.
  destruct (append_missing_links_grows L h ts) as [-> _].
  exists (ensured_section L h ++ new_links L h ts). split.
  { apply section_after_step; [done|]. apply (new_links_inert L h _ h). }
  intros t Ht. rewrite links_of_app. apply elem_of_union.
  destruct (decide (t ∈ links_of (ensured_section L h))) as [?|Hn]; [by left|].
  right. apply elem_of_links_of. exists (link_line t), t.
  destruct (Hts t Ht) as (Hne & Hs & Hc). split; [|split; [|done]].
  - unfold new_links. apply list_elem_of_fmap. exists t. split; [done|].
    by apply elem_of_links_to_add.
  - rewrite wikilink_targets_link_line by done. destruct t; [done|left].
Qed.

Lemma keys_after_append L al :
  exists sec, section_of (append_missing_leaf_blocks L al) (H2 ++ DESC_HEADER)
              = Some sec
              /\ forall p, p ∈ al -> key_of p = [] \/ key_of p ∈ keys_of sec.
Proof.
  destruct (append_missing_leaf_blocks_grows L al) as [-> _].
  assert (known_header DESC_HEADER) as Hk by (right; by right).
  exists (ensured_section L DESC_HEADER ++ new_blocks L al). split.
  { apply section_after_step; [done|]. apply (new_blocks_inert L _ DESC_HEADER). }
  intros p Hp. unfold new_blocks. rewrite keys_of_app_blocks.
  destruct (decide (key_of p = [])) as [?|Hne]; [by left|right].
  apply elem_of_union.
  destruct (new_pairs_complete (keys_of (ensured_section L DESC_HEADER))
              al p Hp Hne) as [?|?]; [by right|left].
  by apply elem_of_list_to_set.
Qed.

(** *** Links of one section and the lines of another *)

Lemma put_after_section_split hline new tail L :
  put_after_section hline new tail L
  = match split_section L hline with
    | Some (pre, sec, post) => pre ++ sec ++ new ++ post
    | None => L ++ tail
    end.
Proof.
  induction L as [|ln L IH]; [done|]. cbn [put_after_section split_section].
  destruct (str_eqb (strip ln) hline); [done|]. rewrite IH.
  by destruct (split_section L hline) as [[[pre sec] post]|].
Qed.

Lemma append_missing_links_put L h ts :
  append_missing_links L h ts
  = put_after_section (H2 ++ h) (new_links L h ts)
      (separator L ++ [H2 ++ h; []] ++ new_links L h ts) L.
Proof.
  rewrite put_after_section_split.
  pose proof (append_missing_links_ensured L h ts) as H.
  unfold new_links, ensured_section. unfold ensured in *.
  destruct (split_section L (H2 ++ h)) as [[[pre sec] post]|]; [done|].
  rewrite H. cbn [fst snd]. rewrite app_nil_r, <- !app_assoc. reflexivity.
Qed.

Lemma until_h2_stop A x X : is_h2 x = true -> until_h2 (A ++ x :: X) = until_h2 A.
Proof.
  intros Hx. induction A as [|a A IH]; simpl; [by rewrite Hx|].
  destruct (is_h2 a); [done|]. by rewrite IH.
Qed.

Lemma blank_lines_no_h2 sep : (forall ln, ln ∈ sep -> ln = []) -> no_h2 sep.
Proof. intros H. apply Forall_forall. by intros y ->%H. Qed.

(** What follows a heading of the other section. *)
Lemma until_h2_put h new sep L :
  is_h2 h = true -> strip h = h -> no_h2 sep ->
  Forall (fun ln => strip ln = h -> is_h2 ln = true) L ->
  until_h2 (put_after_section h new (sep ++ [h; []] ++ new) L) = until_h2 L
  \/ until_h2 (put_after_section h new (sep ++ [h; []] ++ new) L)
     = until_h2 L ++ sep.
Proof.
  intros Hh Hs Hsep HL. induction HL as [|x L Hx HL IH].
  - right. cbn [put_after_section]. rewrite until_h2_app_no_h2 by done.
    cbn [app until_h2]. by rewrite Hh, app_nil_r.
  - cbn [put_after_section]. destruct (str_eqb (strip x) h) eqn:E.
    + apply str_eqb_true in E. left. cbn [until_h2]. by rewrite (Hx E).
    + cbn [until_h2]. destruct (is_h2 x); [by left|].
      destruct IH as [-> | ->]; [by left|by right].
Qed.

Lemma other_section_put h h' new sep L :
  is_h2 h = true -> strip h = h -> h <> h' -> h' <> [] -> no_h2 sep ->
  no_heading h' sep -> no_h2 new -> no_heading h' new ->
  Forall (fun ln => strip ln = h \/ strip ln = h' -> is_h2 ln = true) L ->
  match section_of L h',
        section_of (put_after_section h new (sep ++ [h; []] ++ new) L) h' with
  | Some sec, Some sec' => sec' = sec \/ sec' = sec ++ sep
  | None, None => True
  | _, _ => False
  end.
Proof.
  intros Hh Hs Hne Hne' Hsep Hsep' Hnew Hnew' HL.
  induction HL as [|x L Hx HL IH].
  - cbn [put_after_section section_of].
    rewrite section_of_skip by done.
    rewrite (section_of_skip [h; []] new h').
    2:{ repeat constructor; [by rewrite Hs|]. intros E. by symmetry in E. }
    apply section_of_none in Hnew'. by rewrite Hnew'.
  - cbn [put_after_section section_of].
    destruct (str_eqb (strip x) h) eqn:E.
    + apply str_eqb_true in E.
      assert (str_eqb (strip x) h' = false) as E'.
      { apply str_eqb_false. congruence. }
      rewrite E'. cbn [section_of]. rewrite E'.
      assert (no_heading h' (until_h2 L)) as Hu.
      { apply Forall_forall. intros y Hy Ey.
        pose proof (until_h2_no_h2 L) as Hn. unfold no_h2 in Hn.
        rewrite Forall_forall in Hn, HL.
        assert (y ∈ L) as HyL.
        { by apply (sublist_subseteq _ _ (until_h2_sublist L)). }
        specialize (HL y HyL (or_intror Ey)). specialize (Hn y Hy). congruence. }
      assert (section_of (until_h2 L ++ new ++ from_h2 L) h'
              = section_of (from_h2 L) h') as ->.
      { rewrite section_of_skip by done. by rewrite section_of_skip. }
      assert (section_of L h' = section_of (from_h2 L) h') as ->.
      { rewrite <- (until_from_h2 L) at 1. by rewrite section_of_skip. }
      destruct (section_of (from_h2 L) h'); [by left|done].
    + destruct (str_eqb (strip x) h') eqn:E'.
      * cbn [section_of]. rewrite E'.
        destruct (until_h2_put h new sep L Hh Hs Hsep) as [-> | ->];
          [|by left|by right].
        apply (Forall_impl _ _ _ HL). intros y Hy Ey. apply Hy. by left.
      * cbn [section_of]. rewrite E'. apply IH.
Qed.

End SectionFacts.

(** X16. [ensure_section] for a header that is trimmed as a heading line:
    the lines it returns have the section at the range it returns, as
    [find_section_range] finds it; the range is not empty and starts at
    the heading line; the given lines are a prefix of the lines returned
    (all of them when the section was there); and a second call changes
    nothing. *)
Theorem ensure_section_gives_the_section (lines : list str) (header : str) :
  strip (H2 ++ header) = H2 ++ header ->
  let '(lines', s, e) := ensure_section lines header in
  find_section_range lines' header = Some (s, e)
  /\ lines `prefix_of` lines'
  /\ s < e <= length lines'
  /\ (exists hdr, lines' !! s = Some hdr /\ strip hdr = H2 ++ header)
  /\ (is_Some (find_section_range lines header) -> lines' = lines)
  /\ ensure_section lines' header = (lines', s, e).
Proof.
  intros Hh. pose proof (SecFacts.ensure_section_ensured lines header) as He.
  pose proof (SectionFacts.ensured_split lines header Hh) as Hs.
  assert (lines `prefix_of`
            (let '(pre, sec, post) := ensured lines header in pre ++ sec ++ post)
          /\ (is_Some (find_section_range lines header) ->
              (let '(pre, sec, post) := ensured lines header in pre ++ sec ++ post)
              = lines)) as [Hp Hsame].
  { rewrite SecFacts.find_section_range_split. unfold ensured.
    destruct (split_section lines (H2 ++ header)) as [[[pre sec] post]|] eqn:E.
    - rewrite <- (SecFacts.split_section_app _ _ _ _ _ E). done.
    - split; [|by intros [? ?]]. rewrite <- app_assoc. by eexists. }
  destruct (ensured lines header) as [[pre sec] post]. rewrite He.
  assert (find_section_range (pre ++ sec ++ post) header
          = Some (length pre, length pre + length sec)) as Hf.
  { by rewrite SecFacts.find_section_range_split, Hs. }
  split; [done|]. split; [done|].
  destruct (SectionFacts.find_section_range_section _ _ _ _ Hf) as (_ & Hr & Hhd).
  split; [done|]. split; [done|]. split; [done|].
  unfold ensure_section. by rewrite Hf.
Qed.

Lemma ensure_section_gives_the_section_witness :
  let '(lines', s, e) := ensure_section [$"# T"; $"text"] PARENTS in
  find_section_range lines' PARENTS = Some (s, e)
  /\ [$"# T"; $"text"] `prefix_of` lines'
  /\ s < e <= length lines'
  /\ (exists hdr, lines' !! s = Some hdr /\ strip hdr = H2 ++ PARENTS)
  /\ (is_Some (find_section_range [$"# T"; $"text"] PARENTS) ->
      lines' = [$"# T"; $"text"])
  /\ ensure_section lines' PARENTS = (lines', s, e).
Proof.
  apply (ensure_section_gives_the_section [$"# T"; $"text"] PARENTS).
  vm_compute. reflexivity.
Defined.

(** X17. A header that is empty or ends in whitespace makes a heading
    line that no trimmed line equals: [find_section_range] never finds
    the section, and every call of [ensure_section] appends the heading
    once more. *)
Theorem untrimmed_header_is_never_found (lines : list str) (header : str) :
  strip (H2 ++ header) <> H2 ++ header ->
  find_section_range lines header = None
  /\ ensure_section lines header
     = (lines ++ separator lines ++ [H2 ++ header; []],
        length (lines ++ separator lines),
        length (lines ++ separator lines) + 2).
Proof.
  intros Hh. pose proof (SectionFacts.untrimmed_never_found lines header Hh) as E.
  split.
  - by rewrite SecFacts.find_section_range_split, E.
  - pose proof (SecFacts.ensure_section_ensured lines header) as He.
    unfold ensured in He. rewrite E in He. rewrite He.
    by rewrite app_nil_r, <- app_assoc.
Qed.

Lemma untrimmed_header_is_never_found_witness :
  find_section_range [$"## X "] $"X " = None
  /\ ensure_section [$"## X "] $"X "
     = ([$"## X "] ++ separator [$"## X "] ++ [H2 ++ $"X "; []],
        length ([$"## X "] ++ separator [$"## X "]),
        length ([$"## X "] ++ separator [$"## X "]) + 2).
Proof.
  apply (untrimmed_header_is_never_found [$"## X "] $"X ").
  vm_compute. discriminate.
Defined.


(** X19. The blocks that [append_missing_leaf_blocks] writes for pairs,
    put after any lines, are read by [extract_existing_leaf_pairs] as the
    keys of these pairs, besides the keys of the lines before; lines
    without a description line give no key. *)
Theorem written_blocks_are_read_back :
  (forall (lines : list str) (pairs : list (str * str)),
     extract_existing_leaf_pairs
       (lines ++ concat (map (fun '(d, s) => leaf_block d s) pairs)) 0
       (length (lines ++ concat (map (fun '(d, s) => leaf_block d s) pairs)))
     = list_to_set (map (fun p => normalize_leaf_pair p.1 p.2) pairs)
       ∪ extract_existing_leaf_pairs lines 0 (length lines))
  /\ (forall lines : list str,
        Forall (fun ln => startswith (strip ln) DESC_PREFIX = false) lines ->
        extract_existing_leaf_pairs lines 0 (length lines) = ∅).
Proof.
  split.
  - intros lines pairs. unfold extract_existing_leaf_pairs.
    rewrite !SectionFacts.slice_all. apply LeafFacts.keys_of_app_blocks.
  - intros lines H. unfold extract_existing_leaf_pairs.
    rewrite SectionFacts.slice_all.
    assert (foldl leaf_scan_step (∅, None) lines = (∅, None)) as ->; [|done].
    induction H as [|ln lines Hln H IH]; [done|]. cbn [foldl].
    assert (leaf_scan_step (∅, None) ln = (∅, None)) as ->; [|done].
    unfold leaf_scan_step. by rewrite Hln.
Qed.

(** X20. [append_missing_links] on its own result, with titles that are
    not empty, trimmed and without ']' and '|': nothing changes. *)
Theorem append_missing_links_twice (lines : list str) (header : str)
    (new_links : list str) :
  header = PARENTS \/ header = CHILDREN ->
  Forall good_title new_links ->
  append_missing_links (append_missing_links lines header new_links)
    header new_links
  = append_missing_links lines header new_links.
Proof.
  intros Hh Hts. rewrite Forall_forall in Hts.
  assert (known_header header) as Hk.
  { destruct Hh as [-> | ->]; [by left|right; by left]. }
  destruct (SectionFacts.links_after_append lines header new_links Hk Hts)
    as (sec & Hs & Hin).
  by apply (SectionFacts.append_missing_links_fixed _ _ _ sec).
Qed.

Lemma append_missing_links_twice_witness :
  append_missing_links (append_missing_links [$"# T"] PARENTS [$"b"; $"A"])
    PARENTS [$"b"; $"A"]
  = append_missing_links [$"# T"] PARENTS [$"b"; $"A"].
Proof.
  apply (append_missing_links_twice [$"# T"] PARENTS [$"b"; $"A"]).
  - by left.
  - repeat constructor; done.
Defined.

(** X21. [append_missing_leaf_blocks] on its own result with the same
    pairs changes nothing, whatever the lines and the pairs. *)
Theorem append_missing_leaf_blocks_twice (lines : list str)
    (pairs : list (str * str)) :
  append_missing_leaf_blocks (append_missing_leaf_blocks lines pairs) pairs
  = append_missing_leaf_blocks lines pairs.
Proof.
  destruct (SectionFacts.keys_after_append lines pairs) as (sec & Hs & Hin).
  by apply (SectionFacts.append_missing_leaf_blocks_fixed _ _ sec).
Qed.

(** X22. After the three append steps, with parent and child titles that
    are not empty, trimmed and without ']' and '|', the request is in the
    note: every parent is a link target of the Parents section, every
    child one of the Children section, and every pair has an empty key or
    a key of the leaf section. *)
Theorem merged_note_holds_the_request (lines : list str)
    (add_parents add_children : list str) (add_leaf_pairs : list (str * str)) :
  Forall good_title add_parents -> Forall good_title add_children ->
  let merged := append_updates lines add_parents add_children add_leaf_pairs in
  (add_parents <> [] ->
     exists s e, find_section_range merged PARENTS = Some (s, e)
       /\ forall t, t ∈ add_parents -> t ∈ extract_existing_wikilinks merged s e)
  /\ (add_children <> [] ->
        exists s e, find_section_range merged CHILDREN = Some (s, e)
          /\ forall t, t ∈ add_children ->
                t ∈ extract_existing_wikilinks merged s e)
  /\ (add_leaf_pairs <> [] ->
        exists s e, find_section_range merged DESC_HEADER = Some (s, e)
          /\ forall p, p ∈ add_leaf_pairs ->
                normalize_leaf_pair p.1 p.2 = []
                \/ normalize_leaf_pair p.1 p.2
                     ∈ extract_existing_leaf_pairs merged s e).
Proof.
  intros Hap Hac merged. rewrite Forall_forall in Hap, Hac.
  destruct (TextFacts.append_updates_settled lines add_parents add_children
              add_leaf_pairs Hap Hac) as (Sp & Sc & Sl).
  fold merged in Sp, Sc, Sl.
  split; [|split].
  - intros Hne. destruct Sp as [?|(sec & Hs & Hin)]; [done|].
    destruct (SectionFacts.section_found_range _ _ _ Hs) as (s & e & Hf & Hsl).
    exists s, e. split; [done|]. intros t Ht.
    unfold extract_existing_wikilinks. rewrite Hsl. by apply Hin.
  - intros Hne. destruct Sc as [?|(sec & Hs & Hin)]; [done|].
    destruct (SectionFacts.section_found_range _ _ _ Hs) as (s & e & Hf & Hsl).
    exists s, e. split; [done|]. intros t Ht.
    unfold extract_existing_wikilinks. rewrite Hsl. by apply Hin.
  - intros Hne. destruct Sl as [?|(sec & Hs & Hin)]; [done|].
    destruct (SectionFacts.section_found_range _ _ _ Hs) as (s & e & Hf & Hsl).
    exists s, e. split; [done|]. intros p Hp.
    unfold extract_existing_leaf_pairs. rewrite Hsl. by apply Hin.
Qed.

Lemma merged_note_holds_the_request_witness :
  let merged := append_updates [$"# T"] [$"Animal"] [$"Cat"] [($"d", $"s")] in
  ([$"Animal"] <> [] ->
     exists s e, find_section_range merged PARENTS = Some (s, e)
       /\ forall t, t ∈ [$"Animal"] -> t ∈ extract_existing_wikilinks merged s e)
  /\ ([$"Cat"] <> [] ->
        exists s e, find_section_range merged CHILDREN = Some (s, e)
          /\ forall t, t ∈ [$"Cat"] ->
                t ∈ extract_existing_wikilinks merged s e)
  /\ ([($"d", $"s")] <> [] ->
        exists s e, find_section_range merged DESC_HEADER = Some (s, e)
          /\ forall p, p ∈ [($"d", $"s")] ->
                normalize_leaf_pair p.1 p.2 = []
                \/ normalize_leaf_pair p.1 p.2
                     ∈ extract_existing_leaf_pairs merged s e).
Proof.
  apply (merged_note_holds_the_request [$"# T"] [$"Animal"] [$"Cat"]
           [($"d", $"s")]); repeat constructor; done.
Defined.

(** X23. In a note whose Parents and Children heading lines are not
    indented, [append_missing_links] for one of the two sections leaves
    the other section as it was, but for a blank line at its end when the
    missing section is appended right after it: no link line of one
    section gets into the other. *)
Theorem links_stay_out_of_the_other_section (lines : list str)
    (header other : str) (link_titles : list str) :
  (header = PARENTS /\ other = CHILDREN)
  \/ (header = CHILDREN /\ other = PARENTS) ->
  headings_flush header other lines ->
  let merged := append_missing_links lines header link_titles in
  match find_section_range lines other, find_section_range merged other with
  | Some (s, e), Some (s', e') =>
      slice merged s' e' = slice lines s e
      \/ slice merged s' e' = slice lines s e ++ [ [] ]
  | None, None => True
  | _, _ => False
  end.
Proof.
  intros Hh Hflush merged.
  assert (is_h2 (H2 ++ header) = true /\ strip (H2 ++ header) = H2 ++ header
          /\ H2 ++ header <> H2 ++ other) as (H1 & H2' & H3).
  { destruct Hh as [[-> ->]|[-> ->]]; by vm_compute. }
  pose proof (SectionFacts.other_section_put (H2 ++ header) (H2 ++ other)
                (new_links lines header link_titles) (separator lines) lines
                H1 H2' H3 ltac:(done)) as H.
  rewrite <- SectionFacts.append_missing_links_put in H. fold merged in H.
  assert (forall ln, ln ∈ separator lines -> ln = []) as Hsep
    by apply GrowFacts.separator_lines.
  specialize (H (SectionFacts.blank_lines_no_h2 _ Hsep)).
  assert (no_heading (H2 ++ other) (separator lines)) as Hsep'.
  { apply Forall_forall. intros y ->%Hsep. by destruct other. }
  destruct (GrowFacts.new_links_inert lines header link_titles other) as [Hn Hn'].
  specialize (H Hsep' Hn Hn' Hflush).
  destruct (section_of lines (H2 ++ other)) as [sec|] eqn:E;
    destruct (section_of merged (H2 ++ other)) as [sec'|] eqn:E'; try done.
  - destruct (SectionFacts.section_found_range _ _ _ E) as (s & e & -> & <-).
    destruct (SectionFacts.section_found_range _ _ _ E') as (s' & e' & -> & <-).
    destruct H as [H|H]; [by left|]. rewrite H.
    unfold separator. destruct (last lines) as [l|].
    + destruct (str_eqb (strip l) []); [left; by rewrite app_nil_r|by right].
    + left. by rewrite app_nil_r.
  - rewrite !SecFacts.find_section_range_split.
    rewrite GrowFacts.section_of_split in E, E'.
    destruct (split_section lines (H2 ++ other)) as [[[? ?] ?]|]; [done|].
    by destruct (split_section merged (H2 ++ other)) as [[[? ?] ?]|].
Qed.

Lemma links_stay_out_witness :
  let merged := append_missing_links [$"## Children"; $"- [[c]]"] PARENTS [$"p"] in
  match find_section_range [$"## Children"; $"- [[c]]"] CHILDREN,
        find_section_range merged CHILDREN with
  | Some (s, e), Some (s', e') =>
      slice merged s' e' = slice [$"## Children"; $"- [[c]]"] s e
      \/ slice merged s' e' = slice [$"## Children"; $"- [[c]]"] s e ++ [ [] ]
  | None, None => True
  | _, _ => False
  end.
Proof.
  apply (links_stay_out_of_the_other_section [$"## Children"; $"- [[c]]"]
           PARENTS CHILDREN [$"p"]).
  - by left.
  - repeat constructor; vm_compute; intros [H|H]; done.
Defined.

(** X25. The range that [find_section_range] returns: it starts at the
    first line that is, trimmed, the heading line; it ends before the
    first later line that starts with "## ", or at the end of the lines;
    no line in between starts with "## ". Without a line that is the
    heading line, no range is returned. *)
Theorem find_section_range_is_first_section (lines : list str) (header : str) :
  match find_section_range lines header with
  | Some (s, e) =>
      s < e <= length lines
      /\ (exists hdr, lines !! s = Some hdr /\ strip hdr = H2 ++ header)
      /\ (forall i ln, i < s -> lines !! i = Some ln ->
            strip ln <> H2 ++ header)
      /\ (forall i ln, s < i < e -> lines !! i = Some ln -> is_h2 ln = false)
      /\ (forall ln, lines !! e = Some ln -> is_h2 ln = true)
  | None => forall ln, ln ∈ lines -> strip ln <> H2 ++ header
  end.
Proof.
  rewrite SecFacts.find_section_range_split.
  destruct (split_section lines (H2 ++ header)) as [[[pre sec] post]|] eqn:E.
  - simpl.
    destruct (GrowFacts.split_section_spec _ _ _ _ _ E)
      as (-> & Hpre & hdr & body & -> & Hh & Hb & Hp).
    split; [rewrite !length_app; simpl; lia|].
    split; [exists hdr; split; [|done]; by rewrite lookup_app_r, Nat.sub_diag|].
    split; [|split].
    + intros i ln Hi Hl. rewrite lookup_app_l in Hl by done.
      unfold no_heading in Hpre. rewrite Forall_forall in Hpre.
      apply Hpre. by apply list_elem_of_lookup_2 in Hl.
    + intros i ln [Hi1 Hi2] Hl. simpl in Hi2.
      rewrite lookup_app_r in Hl by lia.
      rewrite lookup_app_l in Hl by (simpl; lia).
      destruct (i - length pre) as [|k] eqn:Ek; [lia|]. simpl in Hl.
      unfold no_h2 in Hb. rewrite Forall_forall in Hb.
      apply Hb. by apply list_elem_of_lookup_2 in Hl.
    + intros ln Hl. rewrite lookup_app_r in Hl by lia.
      rewrite lookup_app_r in Hl by lia.
      replace (length pre + length (hdr :: body) - length pre
               - length (hdr :: body)) with 0 in Hl by lia.
      destruct post as [|x post]; [done|]. simpl in Hl. injection Hl as ->.
      simpl in Hp. by destruct (is_h2 ln).
  - simpl. apply GrowFacts.split_section_none in E.
    unfold no_heading in E. rewrite Forall_forall in E. exact E.
Qed.

